(** * ethcore: the RPC read client, its connection pool and block assembly

    A shallow embedding of [client/rpccall.go], [client/ethrpc.go], the
    connection pool and [types/block.go], followed by the properties of the
    block assembler, the receipt batcher, the pool's failover loop and the
    block-number encoding. *)

From Stdlib Require Import ZArith Lia Ascii String.
From stdpp Require Import base option list strings sorting.
From stdpp Require Import gmap.

(** ** Go errors

    A Go [error] value is either [nil] or an error object: [option error].
    [ethereum.NotFound] and [rpc.ErrNoResult] are sentinels compared by
    identity; every [fmt.Errorf] site of the repository has its own
    constructor, carrying the values it formats. *)

Module common.
(** [common.Hash] is a 32-byte array and [common.Address] a 20-byte array,
    read here as the big-endian numbers they spell. *)
Definition Hash := N.
Definition Address := N.
End common.

Inductive error : Type :=
  | NotFound                                (* ethereum.NotFound *)
  | ErrNoResult                             (* rpc.ErrNoResult *)
  | ErrNullHeader (h : common.Hash)         (* "got null header for hash %s" *)
  | ErrWrongHeader (h : common.Hash)        (* "got wrong header for hash %s" *)
  | ErrNullReceipt (h : common.Hash)        (* "got null receipt for tx hash %s" *)
  | ErrReceiptNotInBlock (tx blk : common.Hash)
                                            (* "receipt %s does not belong to block %s" *)
  | ErrAllBusy                              (* "all clients are busy" *)
  | ErrNoConnection                         (* "no connection established" *)
  | ErrOther (msg : string).                (* transport, protocol, decoding, context *)

#[global] Instance error_eq_dec : EqDecision error.
Proof. solve_decision. Defined.

(** A Go call either returns or panics (nil dereference). *)
Inductive outcome (A : Type) : Type :=
  | Returns (a : A)
  | Panics.
Arguments Returns {A} a.
Arguments Panics {A}.

(** ** go-ethereum's [hexutil] encoders

    [hexutil.EncodeBig] and [hexutil.EncodeUint64] belong to go-ethereum, not
    to this repository.  They print the magnitude in base 16 with lower-case
    digits, most significant digit first and no leading zero ([big.Int.Text]
    and [strconv.FormatUint]), after the prefix ["0x"] (["-0x"] for a
    negative [big.Int]); zero is ["0x0"]. *)
Module hexutil.

Local Open Scope Z_scope.

Definition hex_digit (d : Z) : ascii :=
  match d with
  | 0 => "0" | 1 => "1" | 2 => "2" | 3 => "3" | 4 => "4" | 5 => "5"
  | 6 => "6" | 7 => "7" | 8 => "8" | 9 => "9" | 10 => "a" | 11 => "b"
  | 12 => "c" | 13 => "d" | 14 => "e" | _ => "f"
  end%char.

(** Digits of [n] pushed in front of [acc], least significant first, until
    the quotient is zero.  [fuel] bounds the number of digits. *)
Fixpoint format_bits (fuel : nat) (n : Z) (acc : string) : string :=
  let acc' := String (hex_digit (n mod 16)) acc in
  match fuel with
  | O => acc'
  | S fuel' => if n / 16 =? 0 then acc' else format_bits fuel' (n / 16) acc'
  end.

(** [strconv.FormatUint(n, 16)] and [big.Int.Text(16)] on a magnitude. *)
Definition FormatUint16 (n : Z) : string :=
  format_bits (Z.to_nat (Z.log2 n)) n EmptyString.

Definition EncodeUint64 (i : Z) : string :=
  String.append "0x" (FormatUint16 i).

Definition EncodeBig (bigint : Z) : string :=
  match Z.sgn bigint with
  | 0 => "0x0"%string
  | Zpos _ => String.append "0x" (FormatUint16 bigint)
  | Zneg _ => String.append "-0x" (FormatUint16 (- bigint))
  end.

(** Reading a digit string back, most significant digit first. *)
Definition digit_value (c : ascii) : option Z :=
  let n := Z.of_N (N_of_ascii c) in
  if (48 <=? n) && (n <=? 57) then Some (n - 48)
  else if (97 <=? n) && (n <=? 102) then Some (n - 87)
  else None.

Fixpoint hex_value_from (acc : Z) (s : string) : option Z :=
  match s with
  | EmptyString => Some acc
  | String c s' =>
      match digit_value c with
      | Some d => hex_value_from (16 * acc + d) s'
      | None => None
      end
  end.

Definition hex_value (s : string) : option Z := hex_value_from 0 s.

(** The spec's "minimal big-endian hex string" of a magnitude [n]: a
    non-empty string of hex digits whose big-endian value is [n] and whose
    first digit is not ["0"], except for the single digit of zero. *)
Definition minimal_hex (s : string) (n : Z) : Prop :=
  hex_value s = Some n /\
  match s with
  | EmptyString => False
  | String c rest => c = "0"%char -> rest = EmptyString
  end.

End hexutil.

(** ** Package [types] *)
Module types.

(** Modelled from the spec: the declaration of [Bloom] is not among the
    sources; the log bloom of a header or receipt is a byte string. *)
Definition Bloom := list Byte.byte.

(** Modelled from the spec: the declaration of [Header] is not among the
    sources; its fields are the ones [types/block.go] reads.  Pointer
    fields ([*big.Int], [*uint64], [*common.Hash]) are options. *)
Record Header : Type := {
  Header_ParentHash : common.Hash;
  Header_UncleHash : common.Hash;
  Header_Coinbase : common.Address;
  Header_Root : common.Hash;
  Header_TxHash : common.Hash;
  Header_ReceiptHash : common.Hash;
  Header_Bloom : Bloom;
  Header_Difficulty : option Z;
  Header_Number : option Z;
  Header_GasLimit : Z;
  Header_GasUsed : Z;
  Header_Time : Z;
  Header_Extra : list Byte.byte;
  Header_MixDigest : common.Hash;
  Header_Nonce : list Byte.byte;
  Header_BaseFee : option Z;
  Header_WithdrawalsHash : option common.Hash;
  Header_BlobGasUsed : option Z;
  Header_ExcessBlobGas : option Z;
  Header_ParentBeaconRoot : option common.Hash;
  Header_Hash : common.Hash
}.

(** Modelled from the spec: the declaration of [Withdrawal] is not among
    the sources; a block carries an ordered list of them. *)
Record Withdrawal : Type := {
  Withdrawal_Index : Z;
  Withdrawal_Validator : Z;
  Withdrawal_Address : common.Address;
  Withdrawal_Amount : Z
}.

(** Modelled from the spec: the declaration of [Log] is not among the
    sources; a receipt carries an ordered list of them. *)
Record Log : Type := {
  Log_Address : common.Address;
  Log_Topics : list common.Hash;
  Log_Data : list Byte.byte
}.

Record AccessTuple : Type := {
  AccessTuple_Address : common.Address;
  AccessTuple_StorageKeys : list common.Hash
}.

Record txData : Type := {
  txData_BlockHash : common.Hash;
  txData_BlockNumber : option Z;
  txData_From : common.Address;
  txData_Gas : Z;
  txData_GasPrice : option Z;
  txData_GasTipCap : option Z;
  txData_GasFeeCap : option Z;
  txData_Hash : common.Hash;
  txData_Data : list Byte.byte;
  txData_Nonce : Z;
  txData_To : option common.Address;
  txData_TxIndex : Z;
  txData_Value : option Z;
  txData_Type : Z;
  txData_AccessList : list AccessTuple;
  txData_ChainID : option Z;
  txData_V : option Z;
  txData_R : option Z;
  txData_S : option Z
}.

Record Transaction : Type := { data : txData }.

Definition Transaction_Hash (tx : Transaction) : common.Hash :=
  txData_Hash (data tx).

Record Receipt : Type := {
  Receipt_BlockHash : common.Hash;
  Receipt_BlockNumber : option Z;
  Receipt_TransactionIndex : Z;
  Receipt_TransactionHash : common.Hash;
  Receipt_Type : Z;
  Receipt_ContractAddress : common.Address;
  Receipt_GasUsed : Z;
  Receipt_CumulativeGasUsed : Z;
  Receipt_EffectiveGasPrice : option Z;
  Receipt_From : common.Address;
  Receipt_To : option common.Address;
  Receipt_Logs : list (option Log);
  Receipt_LogsBloom : Bloom;
  Receipt_Status : Z
}.

(** A [[]*T] slice is a list of options; a slice that the code
    distinguishes from [nil] is an option of a list. *)
Definition Transactions := list (option Transaction).
Definition Receipts := list (option Receipt).
Definition Withdrawals := list Withdrawal.

Record Body : Type := {
  Body_Transactions : Transactions;
  Body_Uncles : list (option Header)
}.

Record compactBody : Type := {
  compactBody_Transactions : list common.Hash;
  compactBody_Uncles : list common.Hash
}.

(** [CopyHeader]: the copy always owns a [Difficulty] and a [Number]
    ([new(big.Int)] is zero); every other field keeps its value. *)
Definition CopyHeader (h : Header) : Header :=
  {| Header_ParentHash := Header_ParentHash h;
     Header_UncleHash := Header_UncleHash h;
     Header_Coinbase := Header_Coinbase h;
     Header_Root := Header_Root h;
     Header_TxHash := Header_TxHash h;
     Header_ReceiptHash := Header_ReceiptHash h;
     Header_Bloom := Header_Bloom h;
     Header_Difficulty :=
       Some (match Header_Difficulty h with Some d => d | None => 0%Z end);
     Header_Number :=
       Some (match Header_Number h with Some n => n | None => 0%Z end);
     Header_GasLimit := Header_GasLimit h;
     Header_GasUsed := Header_GasUsed h;
     Header_Time := Header_Time h;
     Header_Extra := Header_Extra h;
     Header_MixDigest := Header_MixDigest h;
     Header_Nonce := Header_Nonce h;
     Header_BaseFee := Header_BaseFee h;
     Header_WithdrawalsHash := Header_WithdrawalsHash h;
     Header_BlobGasUsed := Header_BlobGasUsed h;
     Header_ExcessBlobGas := Header_ExcessBlobGas h;
     Header_ParentBeaconRoot := Header_ParentBeaconRoot h;
     Header_Hash := Header_Hash h |}.

Record Block : Type := {
  header : option Header;
  body : option Body;
  compact : option compactBody;
  withdrawals : option Withdrawals
}.

(** [Body()] returns the pointer as it is; [Uncles()] and
    [Transactions()] read through [b.compact]. *)
Definition Block_Body (b : Block) : option Body := body b.

Definition Block_Uncles (b : Block) : outcome (list common.Hash) :=
  match compact b with
  | Some c => Returns (compactBody_Uncles c)
  | None => Panics
  end.

Definition Block_Transactions (b : Block) : outcome (list common.Hash) :=
  match compact b with
  | Some c => Returns (compactBody_Transactions c)
  | None => Panics
  end.

Definition NewBlockWithHeader (header : option Header) : Block :=
  {| header := header; body := None; compact := None; withdrawals := None |}.

Definition WithCompactBody (b : Block)
    (transactions uncles : list common.Hash) : Block :=
  {| header := header b;
     body := None;
     compact := Some {| compactBody_Transactions := transactions;
                        compactBody_Uncles := uncles |};
     withdrawals := None |}.

(** The two loops of [WithBody], writing slot [i] of the slices made
    beforehand.  [tx.Hash()] and [uncle.Hash] dereference the element. *)
Fixpoint fillTransactions (i : nat) (transactions : Transactions)
    (bd : Body) (cp : compactBody) : outcome (Body * compactBody) :=
  match transactions with
  | [] => Returns (bd, cp)
  | None :: _ => Panics
  | Some tx :: rest =>
      fillTransactions (S i) rest
        {| Body_Transactions := <[i := Some tx]> (Body_Transactions bd);
           Body_Uncles := Body_Uncles bd |}
        {| compactBody_Transactions :=
             <[i := Transaction_Hash tx]> (compactBody_Transactions cp);
           compactBody_Uncles := compactBody_Uncles cp |}
  end.

Fixpoint fillUncles (i : nat) (uncles : list (option Header))
    (bd : Body) (cp : compactBody) : outcome (Body * compactBody) :=
  match uncles with
  | [] => Returns (bd, cp)
  | None :: _ => Panics
  | Some uncle :: rest =>
      fillUncles (S i) rest
        {| Body_Transactions := Body_Transactions bd;
           Body_Uncles := <[i := Some (CopyHeader uncle)]> (Body_Uncles bd) |}
        {| compactBody_Transactions := compactBody_Transactions cp;
           compactBody_Uncles :=
             <[i := Header_Hash uncle]> (compactBody_Uncles cp) |}
  end.

(** The statements of [WithBody] before its [return]: the [block] they
    build. *)
Definition WithBody_block (b : Block) (transactions : Transactions)
    (uncles : list (option Header)) : outcome Block :=
  let bd := {| Body_Transactions := replicate (length transactions) None;
               Body_Uncles := replicate (length uncles) None |} in
  let cp := {| compactBody_Transactions := replicate (length transactions) 0%N;
               compactBody_Uncles := replicate (length uncles) 0%N |} in
  match fillTransactions 0 transactions bd cp with
  | Panics => Panics
  | Returns (bd, cp) =>
      match fillUncles 0 uncles bd cp with
      | Panics => Panics
      | Returns (bd, cp) =>
          Returns {| header := header b; body := Some bd;
                     compact := Some cp; withdrawals := None |}
      end
  end.

(** [WithBody] builds [block] and returns the receiver [b]. *)
Definition WithBody (b : Block) (transactions : Transactions)
    (uncles : list (option Header)) : outcome Block :=
  match WithBody_block b transactions uncles with
  | Panics => Panics
  | Returns block => Returns b
  end.

Definition WithWithdrawals (b : Block) (withdrawals : Withdrawals) : Block :=
  {| header := header b;
     body := body b;
     compact := compact b;
     withdrawals :=
       if (0 <? length withdrawals)%nat then Some withdrawals else None |}.

Definition Transaction_BlockNumber (tx : Transaction) : option Z :=
  txData_BlockNumber (data tx).

Definition Transaction_RawSignatureValues (tx : Transaction)
    : option Z * option Z * option Z :=
  (txData_V (data tx), txData_R (data tx), txData_S (data tx)).

(** [Body.Transaction]: the first transaction of the body with the given
    hash, [nil] when there is none.  [tx.Hash()] dereferences each element
    it meets. *)
Fixpoint Transaction_in (transactions : Transactions) (hash : common.Hash)
    : outcome (option Transaction) :=
  match transactions with
  | [] => Returns None
  | None :: _ => Panics
  | Some tx :: rest =>
      if decide (Transaction_Hash tx = hash) then Returns (Some tx)
      else Transaction_in rest hash
  end.

Definition Body_Transaction (b : Body) (hash : common.Hash)
    : outcome (option Transaction) :=
  Transaction_in (Body_Transactions b) hash.

(** [Header()] copies the header it dereferences. *)
Definition Block_Header (b : Block) : outcome Header :=
  match header b with
  | Some h => Returns (CopyHeader h)
  | None => Panics
  end.

(** A Go [int] is 64 bits wide: sums wrap around. *)
Definition int_wrap (z : Z) : Z :=
  ((z + 2 ^ 63) mod 2 ^ 64 - 2 ^ 63)%Z.

(** [AccessList.StorageKeys]: the running [sum] over the tuples. *)
Definition AccessList_StorageKeys (al : list AccessTuple) : Z :=
  foldl (fun sum tuple =>
           int_wrap (sum + Z.of_nat (length (AccessTuple_StorageKeys tuple))))
        0%Z al.

End types.

(** ** go-ethereum's [rpc] package, as far as the client uses it *)
Module rpc.

(** [json.RawMessage]: the bytes of a JSON value. *)
Definition RawMessage := string.

(** A value passed as [interface{}]. *)
Inductive any : Type :=
  | VBigInt (v : option Z)
  | VHash (h : common.Hash)
  | VString (s : string)
  | VBool (b : bool).

(** [json.Unmarshal(data, &v)] for a target of type [T]: the new content
    of [v] and the error.  The decoders of the generated codecs are not
    part of the sources and stay parameters. *)
Class Unmarshal (T : Type) : Type :=
  json_Unmarshal : RawMessage -> T -> T * option error.

(** Decoding into a [json.RawMessage] stores the bytes. *)
#[global] Instance RawMessage_Unmarshal : Unmarshal RawMessage :=
  fun data _ => (data, None).

(** [rpc.BatchElem]; [Result] holds what the pointer points to. *)
Record BatchElem (T : Type) : Type := {
  Method : string;
  Args : list any;
  Result : T;
  Error : option error
}.
Arguments Method {T} _.
Arguments Args {T} _.
Arguments Result {T} _.
Arguments Error {T} _.

(** What a caller asked for: one call, or one batch of calls. *)
Inductive Request : Type :=
  | ReqCall (method : string) (args : list any)
  | ReqBatch (elems : list (string * list any)).

Definition batchRequest {T : Type} (b : list (BatchElem T)) : Request :=
  ReqBatch ((fun elem => (Method elem, Args elem)) <$> b).

(** A JSON-RPC response message. *)
Record jsonrpcMessage : Type := {
  msg_Error : option error;
  msg_Result : RawMessage
}.

(** What the peer does with one request. *)
Inductive Reply : Type :=
  | Fails (e : error)
  | Answers (msg : jsonrpcMessage)
  | AnswersBatch (msgs : list jsonrpcMessage).

(** [rpc.Client], a connection to a scripted peer: the replies still to
    come, and the requests sent so far. *)
Record Client : Type := {
  inbox : list Reply;
  sent : list Request
}.

Definition exchange (c : Client) (req : Request) : Client :=
  {| inbox := tail (inbox c); sent := sent c ++ [req] |}.

Definition ErrMissingBatchResponse : error :=
  ErrOther "response batch did not contain a response to this call".

Definition ErrUnexpectedReply : error :=
  ErrOther "unexpected reply".

Definition CallContext {T : Type} `{Unmarshal T} (c : Client) (result : T)
    (method : string) (args : list any) : Client * (T * option error) :=
  let c' := exchange c (ReqCall method args) in
  match inbox c with
  | Fails e :: _ => (c', (result, Some e))
  | Answers resp :: _ =>
      match msg_Error resp with
      | Some e => (c', (result, Some e))
      | None =>
          if (String.length (msg_Result resp) =? 0)%nat
          then (c', (result, Some ErrNoResult))
          else (c', json_Unmarshal (msg_Result resp) result)
      end
  | _ => (c', (result, Some ErrUnexpectedReply))
  end.

Definition deliver {T : Type} `{Unmarshal T} (elem : BatchElem T)
    (resp : option jsonrpcMessage) : BatchElem T :=
  match resp with
  | None =>
      {| Method := Method elem; Args := Args elem; Result := Result elem;
         Error := Some ErrMissingBatchResponse |}
  | Some resp =>
      match msg_Error resp with
      | Some e =>
          {| Method := Method elem; Args := Args elem;
             Result := Result elem; Error := Some e |}
      | None =>
          if (String.length (msg_Result resp) =? 0)%nat
          then {| Method := Method elem; Args := Args elem;
                  Result := Result elem; Error := Some ErrNoResult |}
          else
            let '(v, err) := json_Unmarshal (msg_Result resp) (Result elem) in
            {| Method := Method elem; Args := Args elem;
               Result := v; Error := err |}
      end
  end.

Definition BatchCallContext {T : Type} `{Unmarshal T} (c : Client)
    (b : list (BatchElem T)) : Client * (list (BatchElem T) * option error) :=
  let c' := exchange c (batchRequest b) in
  match inbox c with
  | Fails e :: _ => (c', (b, Some e))
  | AnswersBatch msgs :: _ =>
      (c', (imap (fun i elem => deliver elem (msgs !! i)) b, None))
  | _ => (c', (b, Some ErrUnexpectedReply))
  end.

End rpc.

(** ** Go's [sort.Slice]

    [sort.Slice] belongs to Go's standard library: it reorders the slice so
    that it is sorted by [less], without promising stability.  The model is
    the insertion sort the library runs on short slices: each element in
    turn moves left past the elements it is [less] than. *)
Module sort.

Section Slice.
Context {A : Type}.
Variable less : A -> A -> bool.

(** [sorted] is kept in reverse, nearest neighbour first. *)
Fixpoint sift (x : A) (sorted : list A) : list A :=
  match sorted with
  | [] => [x]
  | y :: rest => if less x y then y :: sift x rest else x :: sorted
  end.

Definition Slice (l : list A) : list A :=
  reverse (foldl (fun sorted x => sift x sorted) [] l).

End Slice.

End sort.

(** ** Package [client] *)
Module client.
Import types rpc.

Definition rpcRequestBatchSize : nat := 100.

(** The [rpcCaller] interface.  A caller is a stateful object: each method
    returns its next state.  The context argument is left out: a
    cancelled or expired context shows as the error the call returns.
    [Call] returns the new content of [result]; [BatchCall] returns the
    elements as the callee left them, and cannot change how many there
    are, as the slice is passed by value. *)
Class rpcCaller (C : Type) : Type := {
  Call : forall {T : Type} `{Unmarshal T},
    C -> T -> string -> list any -> C * (T * option error);
  BatchCall : forall {T : Type} `{Unmarshal T},
    C -> list (BatchElem T) -> C * (list (BatchElem T) * option error);
  BatchCall_length : forall {T : Type} `{Unmarshal T} (c : C)
    (batch : list (BatchElem T)),
    length (BatchCall c batch).2.1 = length batch
}.

(** A connection is a caller. *)
#[global, refine] Instance Client_rpcCaller : rpcCaller rpc.Client :=
  {| Call := @CallContext; BatchCall := @BatchCallContext |}.
Proof.
  intros T U c batch. unfold BatchCallContext.
  destruct (inbox c) as [|[e|msg|msgs] rest]; simpl; try reflexivity.
  apply length_imap.
Defined.

(** A caller that notes every request made through it. *)
Record Recorder (C : Type) : Type := {
  inner : C;
  calls : list Request
}.
Arguments inner {C} _.
Arguments calls {C} _.

#[global, refine] Instance Recorder_rpcCaller {C : Type} `{rpcCaller C}
    : rpcCaller (Recorder C) :=
  {| Call := fun T U r result method args =>
       let '(c, out) := Call (inner r) result method args in
       ({| inner := c; calls := calls r ++ [ReqCall method args] |}, out);
     BatchCall := fun T U r batch =>
       let '(c, out) := BatchCall (inner r) batch in
       ({| inner := c; calls := calls r ++ [batchRequest batch] |}, out) |}.
Proof.
  intros T U r batch. pose proof (BatchCall_length (inner r) batch) as Hlen.
  destruct (BatchCall (inner r) batch) as [c out]. exact Hlen.
Defined.

Definition toBlockNumArg (number : option Z) : string :=
  match number with
  | None => "latest"
  | Some n =>
      let pending := (-1)%Z in
      if (n ?= pending)%Z is Eq then "pending"
      else hexutil.EncodeBig n
  end.

Fixpoint getBatchErr {T : Type} (batch : list (BatchElem T)) : option error :=
  match batch with
  | [] => None
  | elem :: rest =>
      match Error elem with
      | Some e => Some e
      | None => getBatchErr rest
      end
  end.

(** The two anonymous [resp] structs of [getBlock]. *)
Record fullResp : Type := {
  fullResp_Uncles : list common.Hash;
  fullResp_Transactions : Transactions;
  fullResp_Withdrawals : Withdrawals
}.

Record compactResp : Type := {
  compactResp_Uncles : list common.Hash;
  compactResp_Transactions : list common.Hash;
  compactResp_Withdrawals : Withdrawals
}.

Section rpccall.
Context {C : Type} `{rpcCaller C}.
Context `{Unmarshal (option Header)} `{Unmarshal fullResp}
        `{Unmarshal compactResp} `{Unmarshal (option Receipt)}.

(** The validation loop of [getBlockUncles]: [batch] and [hashes] are
    walked in step, [uncles[idx]] being the [Result] of [batch[idx]]. *)
Fixpoint checkUncles (batch : list (BatchElem (option Header)))
    (hashes : list common.Hash) : option error :=
  match batch, hashes with
  | elem :: batch', hash :: hashes' =>
      match Error elem with
      | Some e => Some e
      | None =>
          match Result elem with
          | None => Some (ErrNullHeader hash)
          | Some uncle =>
              if decide (Header_Hash uncle <> hash)
              then Some (ErrWrongHeader hash)
              else checkUncles batch' hashes'
          end
      end
  | _, _ => None
  end.

(** The batch built by the first loop of [getBlockUncles]. *)
Definition uncleBatch (blockHash : common.Hash) (hashes : list common.Hash)
    : list (BatchElem (option Header)) :=
  imap (fun idx _ =>
          {| Method := "eth_getUncleByBlockHashAndIndex";
             Args := [VHash blockHash;
                      VString (hexutil.EncodeUint64 (Z.of_nat idx))];
             Result := None;
             Error := None |}) hashes.

(** Returns [(uncles, err)]; the slice is [None] when it is [nil]. *)
Definition getBlockUncles (client : C) (blockHash : common.Hash)
    (hashes : list common.Hash)
    : C * (option (list (option Header)) * option error) :=
  if (length hashes =? 0)%nat then (client, (None, None))
  else
    let batch := uncleBatch blockHash hashes in
    let '(client, (batch, err)) := BatchCall client batch in
    match err with
    | Some e => (client, (None, Some e))
    | None =>
        match checkUncles batch hashes with
        | Some e => (client, (None, Some e))
        | None => (client, (Some (Result <$> batch), None))
        end
    end.

Definition getBlock (client : C) (method : string) (numOrHash : any)
    (fullBlock : bool) : outcome (C * (option Block * option error)) :=
  let '(client, (raw, err)) :=
    Call client (EmptyString : RawMessage) method [numOrHash; VBool fullBlock] in
  match err with
  | Some e => Returns (client, (None, Some e))
  | None =>
  if (String.length raw =? 0)%nat then Returns (client, (None, Some NotFound))
  else
  let '(header, err) := json_Unmarshal raw (None : option Header) in
  match err with
  | Some e => Returns (client, (None, Some e))
  | None =>
  if fullBlock then
    let '(resp, err) :=
      json_Unmarshal raw
        {| fullResp_Uncles := []; fullResp_Transactions := [];
           fullResp_Withdrawals := [] |} in
    match err with
    | Some e => Returns (client, (None, Some e))
    | None =>
    match header with
    | None => Panics
    | Some hd =>
    let '(client, (uncles, err)) :=
      getBlockUncles client (Header_Hash hd) (fullResp_Uncles resp) in
    match err with
    | Some e => Returns (client, (None, Some e))
    | None =>
    match WithBody (NewBlockWithHeader header)
            (fullResp_Transactions resp) (default [] uncles) with
    | Panics => Panics
    | Returns b =>
        Returns (client,
                 (Some (WithWithdrawals b (fullResp_Withdrawals resp)), None))
    end end end end
  else
    let '(resp, err) :=
      json_Unmarshal raw
        {| compactResp_Uncles := []; compactResp_Transactions := [];
           compactResp_Withdrawals := [] |} in
    match err with
    | Some e => Returns (client, (None, Some e))
    | None =>
      Returns (client,
               (Some (WithWithdrawals
                        (WithCompactBody (NewBlockWithHeader header)
                           (compactResp_Transactions resp)
                           (compactResp_Uncles resp))
                        (compactResp_Withdrawals resp)), None))
    end
  end end.

(** The validation loop of [batchGetTransactionReceipt]:
    [receipts[idx]] is the [Result] of [batch[idx]]. *)
Fixpoint checkReceipts (batch : list (BatchElem (option Receipt)))
    (txHashes : list common.Hash) : option error :=
  match batch, txHashes with
  | elem :: batch', txHash :: txHashes' =>
      match Error elem with
      | Some e => Some e
      | None =>
          match Result elem with
          | None => Some (ErrNullReceipt txHash)
          | Some _ => checkReceipts batch' txHashes'
          end
      end
  | _, _ => None
  end.

Definition receiptBatch (txHashes : list common.Hash)
    : list (BatchElem (option Receipt)) :=
  (fun txHash =>
     {| Method := "eth_getTransactionReceipt";
        Args := [VHash txHash];
        Result := None;
        Error := None |}) <$> txHashes.

Definition batchGetTransactionReceipt (client : C)
    (txHashes : list common.Hash) : C * (option Receipts * option error) :=
  let receipts : Receipts := replicate (length txHashes) None in
  if (length txHashes =? 0)%nat then (client, (Some receipts, None))
  else
    let batch := receiptBatch txHashes in
    let '(client, (batch, err)) := BatchCall client batch in
    match err with
    | Some e => (client, (None, Some e))
    | None =>
        match checkReceipts batch txHashes with
        | Some e => (client, (None, Some e))
        | None => (client, (Some (Result <$> batch), None))
        end
    end.

(** The chunk loop of [getBlockReceiptsByHashes], [todo] iterations
    from counter [i] on. *)
Fixpoint receiptChunks (todo i : nat) (client : C)
    (txHashes : list common.Hash) (ret : Receipts)
    : C * (option Receipts * option error) :=
  match todo with
  | O => (client, (Some ret, None))
  | S todo' =>
      let start := i * rpcRequestBatchSize in
      let end_ := start + rpcRequestBatchSize in
      let end_ := if (length txHashes <? end_)%nat
                  then length txHashes else end_ in
      let '(client, (receipts, err)) :=
        batchGetTransactionReceipt client
          (take (end_ - start) (drop start txHashes)) in
      match err with
      | Some e => (client, (None, Some e))
      | None =>
          receiptChunks todo' (S i) client txHashes
            (ret ++ default [] receipts)
      end
  end.

(** The final loop of [getBlockReceiptsByHashes]; [receipt.BlockHash]
    dereferences the element. *)
Fixpoint checkBlockHash (blockHash : common.Hash) (ret : Receipts)
    : outcome (option error) :=
  match ret with
  | [] => Returns None
  | None :: _ => Panics
  | Some receipt :: rest =>
      if decide (Receipt_BlockHash receipt <> blockHash)
      then Returns (Some (ErrReceiptNotInBlock
                            (Receipt_TransactionHash receipt) blockHash))
      else checkBlockHash blockHash rest
  end.

Definition getBlockReceiptsByHashes (client : C) (blockHash : common.Hash)
    (txHashes : list common.Hash)
    : outcome (C * (option Receipts * option error)) :=
  if (length txHashes <=? rpcRequestBatchSize)%nat
  then Returns (batchGetTransactionReceipt client txHashes)
  else
    let batchCount :=
      (length txHashes + rpcRequestBatchSize - 1) / rpcRequestBatchSize in
    let '(client, (ret, err)) := receiptChunks batchCount 0 client txHashes [] in
    match err with
    | Some e => Returns (client, (None, Some e))
    | None =>
        match checkBlockHash blockHash (default [] ret) with
        | Panics => Panics
        | Returns (Some e) => Returns (client, (None, Some e))
        | Returns None => Returns (client, (ret, None))
        end
    end.

End rpccall.

(** *** The connection pool

    [clients] and [status] are the two parallel slices; [quitCh] tells
    whether the channel is closed.  [trace] is not a field of the Go
    struct: it lists, in order, the atomic steps a call took on the slots
    and the cooldown goroutines it started. *)
Inductive Event : Type :=
  | Claimed (idx : nat)                       (* the compare-and-swap on status[idx] succeeded *)
  | Replied (idx : nat) (err : option error)  (* what the claimed client answered *)
  | Released (idx : nat)                      (* StoreInt64(&status[idx], 0) *)
  | CoolingDown (idx : nat).                  (* go p.cooldown(idx, client) *)

#[global] Instance Event_eq_dec : EqDecision Event.
Proof. solve_decision. Defined.

Record RpcConnectionPool (E : Type) : Type := {
  clients : list E;
  status : list Z;
  quitCh : bool;
  trace : list Event
}.
Arguments clients {E} _.
Arguments status {E} _.
Arguments quitCh {E} _.
Arguments trace {E} _.

Definition NewRpcConnectionPool {E : Type} (clients : list E)
    : RpcConnectionPool E :=
  {| clients := clients;
     status := replicate (length clients) 0%Z;
     quitCh := false;
     trace := [] |}.

Definition Size {E : Type} (p : RpcConnectionPool E) : nat :=
  length (clients p).

(** [atomic.CompareAndSwapInt64(&mem[idx], old, new)] and
    [atomic.StoreInt64(&mem[idx], v)].  [NewRpcConnectionPool] makes
    [status] as long as [clients], so the index of a client is in range; a
    slot that does not exist cannot be claimed. *)
Definition CompareAndSwapInt64 (mem : list Z) (idx : nat) (old new : Z)
    : list Z * bool :=
  match mem !! idx with
  | Some v => if (v =? old)%Z then (<[idx := new]> mem, true) else (mem, false)
  | None => (mem, false)
  end.

Definition StoreInt64 (mem : list Z) (idx : nat) (v : Z) : list Z :=
  <[idx := v]> mem.

Definition with_status {E : Type} (p : RpcConnectionPool E) (st : list Z)
    : RpcConnectionPool E :=
  {| clients := clients p; status := st; quitCh := quitCh p; trace := trace p |}.

Definition with_client {E : Type} (p : RpcConnectionPool E) (idx : nat)
    (client : E) : RpcConnectionPool E :=
  {| clients := <[idx := client]> (clients p); status := status p;
     quitCh := quitCh p; trace := trace p |}.

Definition note {E : Type} (p : RpcConnectionPool E) (ev : Event)
    : RpcConnectionPool E :=
  {| clients := clients p; status := status p; quitCh := quitCh p;
     trace := trace p ++ [ev] |}.

Section pool.
Context {E : Type} `{rpcCaller E}.

(** [others idx st] is the status slice once the other goroutines
    (concurrent calls, cooldown tasks) have run, just before this call's
    compare-and-swap on slot [idx]; [fun _ st => st] when the call runs
    alone. *)
Variable others : nat -> list Z -> list Z.

(** The loop of [RpcConnectionPool.Call] from index [idx] on, over the
    remaining [todo] of [range p.clients]; [err] is the loop's variable. *)
Fixpoint Call_range {T : Type} `{Unmarshal T} (idx : nat) (todo : list E)
    (p : RpcConnectionPool E) (result : T) (method : string)
    (args : list any) (err : option error)
    : RpcConnectionPool E * (T * option error) :=
  match todo with
  | [] => (p, (result, err))
  | client :: todo' =>
      let p := with_status p (others idx (status p)) in
      let '(st, swapped) := CompareAndSwapInt64 (status p) idx 0 1 in
      if negb swapped then Call_range (S idx) todo' p result method args err
      else
        let p := note (with_status p st) (Claimed idx) in
        let '(client, (result, err)) := Call client result method args in
        let p := note (with_client p idx client) (Replied idx err) in
        match err with
        | Some e =>
            let p := if bool_decide (e <> NotFound) && bool_decide (e <> ErrNoResult)
                     then note p (CoolingDown idx) else p in
            Call_range (S idx) todo' p result method args (Some e)
        | None =>
            (note (with_status p (StoreInt64 (status p) idx 0)) (Released idx),
             (result, None))
        end
  end.

Definition Pool_Call {T : Type} `{Unmarshal T} (p : RpcConnectionPool E)
    (result : T) (method : string) (args : list any)
    : RpcConnectionPool E * (T * option error) :=
  Call_range 0 (clients p) p result method args None.

(** The loop of [RpcConnectionPool.BatchCall], with its two variables
    [err] and [allBusy]. *)
Fixpoint BatchCall_range {T : Type} `{Unmarshal T} (idx : nat) (todo : list E)
    (p : RpcConnectionPool E) (batch : list (BatchElem T))
    (err : option error) (allBusy : bool)
    : RpcConnectionPool E * (list (BatchElem T) * option error) :=
  match todo with
  | [] =>
      if allBusy then (p, (batch, Some ErrAllBusy)) else (p, (batch, err))
  | client :: todo' =>
      let p := with_status p (others idx (status p)) in
      let '(st, swapped) := CompareAndSwapInt64 (status p) idx 0 1 in
      if negb swapped then BatchCall_range (S idx) todo' p batch err allBusy
      else
        let p := note (with_status p st) (Claimed idx) in
        let allBusy := false in
        let '(client, (batch, err)) := BatchCall client batch in
        let err := match err with None => getBatchErr batch | Some e => Some e end in
        let p := note (with_client p idx client) (Replied idx err) in
        match err with
        | Some e =>
            BatchCall_range (S idx) todo' (note p (CoolingDown idx)) batch
              (Some e) allBusy
        | None =>
            (note (with_status p (StoreInt64 (status p) idx 0)) (Released idx),
             (batch, None))
        end
  end.

Definition Pool_BatchCall {T : Type} `{Unmarshal T} (p : RpcConnectionPool E)
    (batch : list (BatchElem T))
    : RpcConnectionPool E * (list (BatchElem T) * option error) :=
  BatchCall_range 0 (clients p) p batch None true.

Lemma BatchCall_range_length {T : Type} `{Unmarshal T} (todo : list E) :
  forall idx p (batch : list (BatchElem T)) err allBusy,
    length (BatchCall_range idx todo p batch err allBusy).2.1 = length batch.
Proof.
  induction todo as [|client todo IH]; intros idx p batch err allBusy; simpl.
  - destruct allBusy; reflexivity.
  - destruct (CompareAndSwapInt64 _ idx 0 1) as [st swapped].
    destruct swapped; simpl; [|apply IH].
    pose proof (BatchCall_length client batch) as Hlen.
    destruct (BatchCall client batch) as [client' [batch' err']]; simpl in Hlen.
    destruct err' as [e|]; [rewrite IH; exact Hlen|].
    destruct (getBatchErr batch') as [e|]; [rewrite IH; exact Hlen|].
    exact Hlen.
Qed.

(** The pool is itself a caller. *)
#[global, refine] Instance Pool_rpcCaller : rpcCaller (RpcConnectionPool E) :=
  {| Call := @Pool_Call; BatchCall := @Pool_BatchCall |}.
Proof.
  intros T U p batch. apply BatchCall_range_length.
Defined.

Section chain_reader.
Context `{Unmarshal (option Header)} `{Unmarshal fullResp}
        `{Unmarshal compactResp}.

Definition BlockByNumber (p : RpcConnectionPool E) (number : option Z)
    (fullBlock : bool)
    : outcome (RpcConnectionPool E * (option Block * option error)) :=
  getBlock p "eth_getBlockByNumber" (VString (toBlockNumArg number)) fullBlock.

Definition BlockByHash (p : RpcConnectionPool E) (hash : common.Hash)
    (fullBlock : bool)
    : outcome (RpcConnectionPool E * (option Block * option error)) :=
  getBlock p "eth_getBlockByHash" (VHash hash) fullBlock.

End chain_reader.

(** What wakes the [select] of [cooldown]: the closed [quitCh], or the
    timer after [rpcConnectionCooldown]. *)
Inductive Wakeup : Type :=
  | Quit
  | Timer.

(** [cooldown], given the client's [connect] and the wakeups to come.  The
    boolean tells whether the goroutine has returned. *)
Fixpoint cooldown (connect : E -> E * option error) (wakeups : list Wakeup)
    (idx : nat) (client : E) (p : RpcConnectionPool E)
    : RpcConnectionPool E * bool :=
  match wakeups with
  | [] => (p, false)
  | Quit :: _ => (p, true)
  | Timer :: wakeups' =>
      let '(client, err) := connect client in
      let p := with_client p idx client in
      match err with
      | Some _ => cooldown connect wakeups' idx client p
      | None => (with_status p (StoreInt64 (status p) idx 0), true)
      end
  end.

End pool.

(** *** [ETHClient] and the construction of the pool *)
Record ETHClient : Type := {
  url : string;
  client : option rpc.Client;
  networkId : string;
  version : string;
  latency : Z
}.

Definition Latency (ec : ETHClient) : Z := latency ec.

Section dial.
Context `{Unmarshal string}.

(** The network: what [rpc.DialContext] gives for a URL (within the dial
    timeout), and the time the [net_version] round trip to it takes. *)
Variable rpc_DialContext : string -> error + rpc.Client.
Variable time_Since : string -> Z.

Definition connect (ec : ETHClient) : ETHClient * option error :=
  match rpc_DialContext (url ec) with
  | inl e => (ec, Some e)
  | inr conn =>
      let '(conn, (id, err)) := CallContext conn (networkId ec) "net_version" [] in
      let ec := {| url := url ec; client := client ec; networkId := id;
                   version := version ec; latency := latency ec |} in
      match err with
      | Some e => (ec, Some e)
      | None =>
          let ec := {| url := url ec; client := client ec;
                       networkId := networkId ec; version := version ec;
                       latency := time_Since (url ec) |} in
          let '(conn, (ver, err)) :=
            CallContext conn (version ec) "web3_clientVersion" [] in
          let ec := {| url := url ec; client := client ec;
                       networkId := networkId ec; version := ver;
                       latency := latency ec |} in
          match err with
          | Some e => (ec, Some e)
          | None =>
              ({| url := url ec; client := Some conn;
                  networkId := networkId ec; version := version ec;
                  latency := latency ec |}, None)
          end
      end
  end.

Definition DialContext (url : string) : option ETHClient * option error :=
  let client := {| url := url; client := None; networkId := EmptyString;
                   version := EmptyString; latency := 0%Z |} in
  let '(client, err) := connect client in
  match err with
  | Some e => (None, Some e)
  | None => (Some client, None)
  end.

(** The body of one goroutine of [SetupConnectionPool], for [url]. *)
Definition dialInto (clients : list ETHClient) (url : string)
    : list ETHClient :=
  let '(client, err) := DialContext url in
  match err, client with
  | None, Some client => clients ++ [client]
  | _, _ => clients
  end.

(** [SetupConnectionPool]: the goroutines dial independently and each
    appends under the lock; [finished] lists the indices of [urls] in the
    order in which their goroutines reach the lock. *)
Definition SetupConnectionPool (finished : list nat) (urls : list string)
    : option (RpcConnectionPool ETHClient) * option error :=
  let clients :=
    foldl (fun clients i =>
             match urls !! i with
             | Some url => dialInto clients url
             | None => clients
             end) [] finished in
  if (0 <? length clients)%nat
  then (Some (NewRpcConnectionPool
                (sort.Slice (fun a b => (Latency a <? Latency b)%Z) clients)),
        None)
  else (None, Some ErrNoConnection).

End dial.

(** *** Call arguments *)

(** [ethereum.CallMsg], the message type of go-ethereum. *)
Record CallMsg : Type := {
  CallMsg_From : common.Address;
  CallMsg_To : option common.Address;
  CallMsg_Gas : Z;
  CallMsg_GasPrice : option Z;
  CallMsg_GasFeeCap : option Z;
  CallMsg_GasTipCap : option Z;
  CallMsg_Value : option Z;
  CallMsg_Data : list Byte.byte;
  CallMsg_AccessList : list AccessTuple
}.

(** The values [toCallArg] stores in its map. *)
Inductive callArg : Type :=
  | ArgAddress (a : common.Address)            (* msg.From *)
  | ArgAddressPtr (a : option common.Address)  (* msg.To *)
  | ArgBytes (b : list Byte.byte)              (* hexutil.Bytes(msg.Data) *)
  | ArgBig (v : Z)                             (* a non-nil *hexutil.Big *)
  | ArgUint64 (v : Z).                         (* hexutil.Uint64(msg.Gas) *)

Definition toCallArg (msg : CallMsg) : gmap string callArg :=
  let arg : gmap string callArg :=
    <["to" := ArgAddressPtr (CallMsg_To msg)]>
      (<["from" := ArgAddress (CallMsg_From msg)]> ∅) in
  let arg := if (0 <? length (CallMsg_Data msg))%nat
             then <["data" := ArgBytes (CallMsg_Data msg)]> arg else arg in
  let arg := match CallMsg_Value msg with
             | Some v => <["value" := ArgBig v]> arg
             | None => arg
             end in
  let arg := if (CallMsg_Gas msg =? 0)%Z then arg
             else <["gas" := ArgUint64 (CallMsg_Gas msg)]> arg in
  let arg := match CallMsg_GasPrice msg with
             | Some v => <["gasPrice" := ArgBig v]> arg
             | None => arg
             end in
  arg.

Definition ErrNoSignature : error :=
  ErrOther "server returned transaction without signature".

Section chain_reader_calls.
Context {E : Type} `{rpcCaller E}.
Variable others : nat -> list Z -> list Z.

Context `{Unmarshal (option Transaction)} `{Unmarshal (option Receipt)}.

(** Returns [(tx, isPending, err)]. *)
Definition TransactionByHash (p : RpcConnectionPool E) (hash : common.Hash)
    : RpcConnectionPool E * (option Transaction * bool * option error) :=
  let '(p, (tx, err)) :=
    Pool_Call others p (None : option Transaction)
      "eth_getTransactionByHash" [VHash hash] in
  match err with
  | Some e => (p, (None, false, Some e))
  | None =>
      match tx with
      | None => (p, (None, false, Some NotFound))
      | Some t =>
          let '(_, r, _) := Transaction_RawSignatureValues t in
          match r with
          | None => (p, (None, false, Some ErrNoSignature))
          | Some _ =>
              (p, (Some t,
                   if Transaction_BlockNumber t is None then true else false,
                   None))
          end
      end
  end.

Definition TransactionReceipt (p : RpcConnectionPool E) (txHash : common.Hash)
    : RpcConnectionPool E * (option Receipt * option error) :=
  let '(p, (receipt, err)) :=
    Pool_Call others p (None : option Receipt)
      "eth_getTransactionReceipt" [VHash txHash] in
  match err, receipt with
  | None, None => (p, (None, Some NotFound))
  | _, _ => (p, (receipt, err))
  end.

End chain_reader_calls.

(** *** Blocks through one [ETHClient] *)
Section eth_client_blocks.
Context `{Unmarshal (option Header)} `{Unmarshal fullResp}
        `{Unmarshal compactResp}.

Definition with_transport (ec : ETHClient) (conn : rpc.Client) : ETHClient :=
  {| url := url ec; client := Some conn; networkId := networkId ec;
     version := version ec; latency := latency ec |}.

(** [ETHClient.BlockByHash].  [ec.Call] and [ec.BatchCall] hand each
    request of [getBlock] to the transport [ec.client] and log the result;
    [getBlock] starts with a call, which dereferences a nil transport. *)
Definition ETHClient_BlockByHash (ec : ETHClient) (hash : common.Hash)
    (fullBlock : bool)
    : outcome (ETHClient * (option Block * option error)) :=
  match client ec with
  | None => Panics
  | Some conn =>
      match getBlock conn "eth_getBlockByNumber" (VHash hash) fullBlock with
      | Panics => Panics
      | Returns (conn, out) => Returns (with_transport ec conn, out)
      end
  end.

End eth_client_blocks.

End client.

(** ** Notions the properties are stated with *)
Module spec.
Import types rpc client.

(** The partition of a list into consecutive chunks of [size] elements, the
    last one holding what is left. *)
Fixpoint chunks_upto {A : Type} (fuel size : nat) (l : list A) : list (list A) :=
  match fuel, l with
  | S fuel', _ :: _ => take size l :: chunks_upto fuel' size (drop size l)
  | _, _ => []
  end.

Definition chunks {A : Type} (size : nat) (l : list A) : list (list A) :=
  chunks_upto (length l) size l.

(** What a caller answers to batches submitted one after the other: its
    final state and each batch as it came back. *)
Fixpoint serve {C : Type} `{rpcCaller C} {T : Type} `{Unmarshal T} (c : C)
    (batches : list (list (BatchElem T))) : C * list (list (BatchElem T)) :=
  match batches with
  | [] => (c, [])
  | batch :: rest =>
      let '(c, (got, _)) := BatchCall c batch in
      let '(c, gots) := serve c rest in
      (c, got :: gots)
  end.

(** A receipt batch came back usable: its call returned no error, and
    every element holds a receipt and no error. *)
Definition usable (got : list (BatchElem (option Receipt)))
    (err : option error) : bool :=
  match err with
  | Some _ => false
  | None =>
      forallb (fun elem => match Error elem, Result elem with
                           | None, Some _ => true
                           | _, _ => false
                           end) got
  end.

(** Receipt batches submitted one after the other, up to and including
    the first that does not come back usable: the caller afterwards, how
    many batches were submitted, and whether all of them came back
    usable. *)
Fixpoint submit {C : Type} `{rpcCaller C} `{Unmarshal (option Receipt)} (c : C)
    (batches : list (list (BatchElem (option Receipt)))) : C * (nat * bool) :=
  match batches with
  | [] => (c, (0, true))
  | batch :: rest =>
      let '(c, (got, err)) := BatchCall c batch in
      if usable got err
      then let '(c, (n, ok)) := submit c rest in (c, (S n, ok))
      else (c, (1, false))
  end.

(** The request an uncle batch amounts to, and the one a receipt batch
    amounts to. *)
Definition uncleRequest (blockHash : common.Hash) (hashes : list common.Hash)
    : Request :=
  ReqBatch (imap (fun idx _ =>
                    ("eth_getUncleByBlockHashAndIndex"%string,
                     [VHash blockHash;
                      VString (hexutil.EncodeUint64 (Z.of_nat idx))]))
              hashes).

Definition receiptRequest (txHashes : list common.Hash) : Request :=
  ReqBatch ((fun txHash =>
               ("eth_getTransactionReceipt"%string, [VHash txHash]))
              <$> txHashes).

(** Slot [idx] of a returned uncle batch is unusable: no header, or a header
    whose hash is not the one asked for at that position. *)
Definition bad_uncle (got : list (BatchElem (option Header)))
    (hashes : list common.Hash) : Prop :=
  exists idx elem hash,
    got !! idx = Some elem /\ hashes !! idx = Some hash /\
    match Result elem with
    | None => True
    | Some uncle => Header_Hash uncle <> hash
    end.

(** A block is hydrated with [transactions] and [uncles]: it has a body
    holding exactly them. *)
Definition hydrated (blk : Block) (transactions : Transactions)
    (uncles : list (option Header)) : Prop :=
  exists bd, body blk = Some bd /\
             Body_Transactions bd = transactions /\
             Body_Uncles bd = (option_map CopyHeader <$> uncles).

(** A usable slot of a returned receipt batch: no error and a receipt. *)
Definition answered (elem : BatchElem (option Receipt)) : Prop :=
  Error elem = None /\ Result elem <> None.

(** The slot an event is about. *)
Definition slot (ev : Event) : nat :=
  match ev with
  | Claimed idx | Replied idx _ | Released idx | CoolingDown idx => idx
  end.

(** The errors [Call] starts no cooldown for. *)
Definition quiet (e : error) : Prop := e = NotFound \/ e = ErrNoResult.

(** The clients that connect, in the order of their URLs. *)
Definition connected `{Unmarshal string}
    (rpc_DialContext : string -> error + rpc.Client)
    (time_Since : string -> Z) (urls : list string) : list ETHClient :=
  omap (fun url => (DialContext rpc_DialContext time_Since url).1) urls.

(** The steps a pool call took: what it added to the trace. *)
Definition steps {E : Type} (before after : RpcConnectionPool E) : list Event :=
  drop (length (trace before)) (trace after).

(** C4 as the spec words it: every [NotFound] or [ErrNoResult] answer is
    what the call returns, no later slot is claimed, and no cooldown is
    started for the slot. *)
Definition returned_at_once {E : Type} (before after : RpcConnectionPool E)
    (err : option error) : Prop :=
  forall idx e, Replied idx (Some e) ∈ steps before after -> quiet e ->
    err = Some e /\
    (forall j, idx < j -> Claimed j ∉ steps before after) /\
    (CoolingDown idx ∉ steps before after).

(** C5 as the spec words it: every slot the call claimed has been set free
    or handed to a cooldown goroutine. *)
Definition claims_released {E : Type} (before after : RpcConnectionPool E)
    : Prop :=
  forall idx, Claimed idx ∈ steps before after ->
    Released idx ∈ steps before after \/ CoolingDown idx ∈ steps before after.

(** The loop of [Body.Transaction] on the slots before the one it stops at:
    each holds a transaction with another hash. *)
Definition passed_over (transactions : Transactions) (hash : common.Hash)
    (i : nat) : Prop :=
  forall j, j < i ->
    exists tx, transactions !! j = Some (Some tx) /\ Transaction_Hash tx <> hash.

(** The withdrawals of block [b] are the list [ws], kept as [nil] when the
    list is empty. *)
Definition Block_Withdrawals_of (b : Block) (ws : Withdrawals) : Prop :=
  withdrawals b = match ws with [] => None | _ => Some ws end.

(** The slots claimed along a list of steps, in order. *)
Definition claimed (evs : list Event) : list nat :=
  omap (fun ev => match ev with Claimed idx => Some idx | _ => None end) evs.

End spec.

(** ** Fixtures

    A toy wire format to run the client on: a payload names the value it
    decodes to. *)
Module fixtures.
Import types rpc client.

Definition mkHeader (hash : common.Hash) : Header :=
  {| Header_ParentHash := 0%N; Header_UncleHash := 0%N; Header_Coinbase := 0%N;
     Header_Root := 0%N; Header_TxHash := 0%N; Header_ReceiptHash := 0%N;
     Header_Bloom := []; Header_Difficulty := None; Header_Number := None;
     Header_GasLimit := 0%Z; Header_GasUsed := 0%Z; Header_Time := 0%Z;
     Header_Extra := []; Header_MixDigest := 0%N; Header_Nonce := [];
     Header_BaseFee := None; Header_WithdrawalsHash := None;
     Header_BlobGasUsed := None; Header_ExcessBlobGas := None;
     Header_ParentBeaconRoot := None; Header_Hash := hash |}.

Definition mkTransaction (hash : common.Hash) : Transaction :=
  {| data :=
       {| txData_BlockHash := 0%N; txData_BlockNumber := None;
          txData_From := 0%N; txData_Gas := 0%Z; txData_GasPrice := None;
          txData_GasTipCap := None; txData_GasFeeCap := None;
          txData_Hash := hash; txData_Data := []; txData_Nonce := 0%Z;
          txData_To := None; txData_TxIndex := 0%Z; txData_Value := None;
          txData_Type := 0%Z; txData_AccessList := []; txData_ChainID := None;
          txData_V := None; txData_R := None; txData_S := None |} |}.

Definition mkReceipt (blockHash txHash : common.Hash) : Receipt :=
  {| Receipt_BlockHash := blockHash; Receipt_BlockNumber := None;
     Receipt_TransactionIndex := 0%Z; Receipt_TransactionHash := txHash;
     Receipt_Type := 0%Z; Receipt_ContractAddress := 0%N;
     Receipt_GasUsed := 0%Z; Receipt_CumulativeGasUsed := 0%Z;
     Receipt_EffectiveGasPrice := None; Receipt_From := 0%N;
     Receipt_To := None; Receipt_Logs := []; Receipt_LogsBloom := [];
     Receipt_Status := 1%Z |}.

Definition invalid {T : Type} (v : T) : T * option error :=
  (v, Some (ErrOther "invalid JSON")).

(** The value a payload names in a table. *)
Fixpoint named {T : Type} (table : list (string * T)) (data : RawMessage)
    : option T :=
  match table with
  | [] => None
  | (name, v) :: rest => if String.eqb name data then Some v else named rest data
  end.

Definition decodeWith {T : Type} (table : list (string * T)) : Unmarshal T :=
  fun data v =>
    match named table data with
    | Some v' => (v', None)
    | None => invalid v
    end.

(** Block 11 lists the uncles 21 and 22 and the transaction 31. *)
Definition decodeHeader : Unmarshal (option Header) :=
  decodeWith [("null", None);
              ("block11", Some (mkHeader 11%N));
              ("uncle21", Some (mkHeader 21%N));
              ("uncle22", Some (mkHeader 22%N));
              ("uncle23", Some (mkHeader 23%N))]%string.

Definition decodeFull : Unmarshal fullResp :=
  decodeWith [("block11",
               {| fullResp_Uncles := [21; 22]%N;
                  fullResp_Transactions := [Some (mkTransaction 31%N)];
                  fullResp_Withdrawals := [] |})]%string.

Definition decodeCompact : Unmarshal compactResp :=
  decodeWith [("block11",
               {| compactResp_Uncles := [21; 22]%N;
                  compactResp_Transactions := [31%N];
                  compactResp_Withdrawals := [] |})]%string.

(** Receipts of the transactions 7, 8 and 9, as block 1 or block 2 would
    hold them. *)
Definition decodeReceipt : Unmarshal (option Receipt) :=
  decodeWith [("null", None);
              ("receipt7in1", Some (mkReceipt 1%N 7%N));
              ("receipt8in1", Some (mkReceipt 1%N 8%N));
              ("receipt9in1", Some (mkReceipt 1%N 9%N));
              ("receipt7in2", Some (mkReceipt 2%N 7%N))]%string.

(** A JSON string decodes to its content. *)
Definition decodeString : Unmarshal string :=
  fun data _ => (data, None).

Definition result (payload : RawMessage) : jsonrpcMessage :=
  {| msg_Error := None; msg_Result := payload |}.

(** A connection whose peer will give [replies]. *)
Definition peer (replies : list Reply) : rpc.Client :=
  {| inbox := replies; sent := [] |}.

(** The node holding block 11: it answers the block request with the
    envelope, then the uncle batch with the two uncle headers. *)
Definition node11 : rpc.Client :=
  peer [Answers (result "block11");
        AnswersBatch [result "uncle21"; result "uncle22"]].

(** Block 11 again, from a node whose second uncle header is the header
    23 instead of 22. *)
Definition node11_wrong_uncle : rpc.Client :=
  peer [Answers (result "block11");
        AnswersBatch [result "uncle21"; result "uncle23"]].

(** A node that holds the receipt of transaction 7 in block 2. *)
Definition node_receipt7in2 : rpc.Client :=
  peer [AnswersBatch [result "receipt7in2"]].

(** A node that answers two receipt batches, of 100 and of 1 element, for
    transaction 7 of block 1. *)
Definition node_receipts101 : rpc.Client :=
  peer [AnswersBatch (replicate 100 (result "receipt7in1"));
        AnswersBatch [result "receipt7in1"]].

(** A node that answers a call with its block number, and one that answers
    with neither a result nor an error. *)
Definition live_node : rpc.Client := peer [Answers (result "0x10")].
Definition silent_node : rpc.Client := peer [Answers (result "")].

(** No other goroutine runs. *)
Definition alone : nat -> list Z -> list Z := fun _ st => st.

(** A pool whose only client is claimed by a call in flight. *)
Definition busy_pool : RpcConnectionPool rpc.Client :=
  {| clients := [live_node]; status := [1%Z]; quitCh := false; trace := [] |}.

(** A network of four URLs: one refuses the connection, the others answer
    the handshake after 90, 10 and 40 time units. *)
Definition network (url : string) : error + rpc.Client :=
  if String.eqb url "down"
  then inl (ErrOther "connection refused")
  else inr (peer [Answers (result "1"); Answers (result "geth")]).

Definition round_trip (url : string) : Z :=
  if String.eqb url "far" then 90%Z
  else if String.eqb url "near" then 10%Z
  else 40%Z.

Definition four_urls : list string := ["far"; "down"; "near"; "mid"]%string.

(** A recorder around a caller, with nothing noted yet. *)
Definition recorded {C : Type} (c : C) : Recorder C :=
  {| inner := c; calls := [] |}.

(** The pool of one silent node, and the order in which the four dials
    finish. *)
Definition silent_pool : RpcConnectionPool rpc.Client :=
  NewRpcConnectionPool [silent_node].

Definition finish_order : list nat := [2; 0; 1; 3].

(** The full-body request for block 11 on the node with the wrong uncle:
    the recorder after the block request, and the reply to the uncle
    batch. *)
Definition after_block11 : Recorder rpc.Client :=
  (Call (recorded node11_wrong_uncle) (EmptyString : RawMessage)
     "eth_getBlockByHash" [VHash 11%N; VBool true]).1.

Definition uncle_reply
    : Recorder rpc.Client * (list (BatchElem (option Header)) * option error) :=
  BatchCall (H := decodeHeader) after_block11
    (uncleBatch 11%N [21%N; 22%N]).

(** A signed transaction, included in block 5. *)
Definition signedTransaction (hash : common.Hash) : Transaction :=
  {| data :=
       {| txData_BlockHash := 0%N; txData_BlockNumber := Some 5%Z;
          txData_From := 0%N; txData_Gas := 0%Z; txData_GasPrice := None;
          txData_GasTipCap := None; txData_GasFeeCap := None;
          txData_Hash := hash; txData_Data := []; txData_Nonce := 0%Z;
          txData_To := None; txData_TxIndex := 0%Z; txData_Value := None;
          txData_Type := 0%Z; txData_AccessList := []; txData_ChainID := None;
          txData_V := Some 27%Z; txData_R := Some 1%Z; txData_S := Some 1%Z |} |}.

Definition decodeTransaction : Unmarshal (option Transaction) :=
  decodeWith [("null", None);
              ("tx31", Some (signedTransaction 31%N))]%string.

(** Decoding the JSON [null] into a struct leaves it as it is. *)
Definition decodeFullOrNull : Unmarshal fullResp :=
  fun data v => if String.eqb data "null" then (v, None) else decodeFull data v.

Definition decodeCompactOrNull : Unmarshal compactResp :=
  fun data v => if String.eqb data "null" then (v, None) else decodeCompact data v.

(** A node that does not have the block asked for, one that has the
    transaction 31, and one that has no receipt for the transaction asked
    for. *)
Definition null_node : rpc.Client := peer [Answers (result "null")].
Definition node_tx31 : rpc.Client := peer [Answers (result "tx31")].
Definition node_null_receipt : rpc.Client := peer [AnswersBatch [result "null"]].

(** An access list of two tuples, with three storage keys in all. *)
Definition storage_list : list AccessTuple :=
  [{| AccessTuple_Address := 1%N; AccessTuple_StorageKeys := [10; 11]%N |};
   {| AccessTuple_Address := 2%N; AccessTuple_StorageKeys := [12]%N |}].

(** A pool of three clients: the first is claimed by a call in flight, the
    second answers with neither a result nor an error, the third
    answers. *)
Definition mixed_pool : RpcConnectionPool rpc.Client :=
  {| clients := [live_node; silent_node; live_node];
     status := [1%Z; 0%Z; 0%Z]; quitCh := false; trace := [] |}.

(** A pool whose first node drops the connection and whose second holds
    the receipt of transaction 7. *)
Definition receipt_pool : RpcConnectionPool rpc.Client :=
  NewRpcConnectionPool
    [peer [Fails (ErrOther "connection reset")]; node_receipt7in2].

(** A client not yet connected, for the URL "near", and a client connected
    to the node holding block 11. *)
Definition fresh_client : ETHClient :=
  {| url := "near"; client := None; networkId := EmptyString;
     version := EmptyString; latency := 0%Z |}.

Definition client11 : ETHClient :=
  {| url := "near"; client := Some node11; networkId := "1";
     version := "geth"; latency := 10%Z |}.

End fixtures.

(** * Properties *)

(** ** The hexadecimal encoders *)
Section hexutil_facts.
Import hexutil.
Local Open Scope Z_scope.

Lemma digit_value_hex_digit (d : Z) :
  0 <= d < 16 -> digit_value (hex_digit d) = Some d.
Proof.
  intros Hd.
  assert (Hcases : d = 0 \/ d = 1 \/ d = 2 \/ d = 3 \/ d = 4 \/ d = 5 \/ d = 6
                   \/ d = 7 \/ d = 8 \/ d = 9 \/ d = 10 \/ d = 11 \/ d = 12
                   \/ d = 13 \/ d = 14 \/ d = 15) by lia.
  repeat (destruct Hcases as [-> | Hcases]; [reflexivity|]).
  subst d. reflexivity.
Qed.

Lemma hex_digit_zero (d : Z) :
  0 <= d < 16 -> hex_digit d = "0"%char -> d = 0.
Proof.
  intros Hd Hz. apply (f_equal digit_value) in Hz.
  rewrite digit_value_hex_digit in Hz by assumption.
  vm_compute in Hz. congruence.
Qed.

(** Reading [s ++ t] continues from the value read in [s]. *)
Lemma hex_value_from_digit (acc d : Z) (s : string) :
  0 <= d < 16 ->
  hex_value_from acc (String (hex_digit d) s) = hex_value_from (16 * acc + d) s.
Proof. intros Hd. simpl. rewrite digit_value_hex_digit by assumption. reflexivity. Qed.

Lemma hex_value_format_bits (fuel : nat) :
  forall n acc, 0 <= n < 16 ^ (Z.of_nat fuel + 1) ->
    hex_value_from 0 (format_bits fuel n acc) = hex_value_from n acc.
Proof.
  induction fuel as [|fuel IH]; intros n acc Hn.
  - change (16 ^ (Z.of_nat 0 + 1)) with 16 in Hn. simpl format_bits.
    rewrite hex_value_from_digit by (apply Z.mod_pos_bound; lia).
    rewrite Z.mod_small by lia. f_equal.
  - assert (Hmod : 0 <= n mod 16 < 16) by (apply Z.mod_pos_bound; lia).
    simpl format_bits. destruct (Z.eqb_spec (n / 16) 0) as [Hq|Hq].
    + rewrite hex_value_from_digit by assumption.
      f_equal. pose proof (Z.div_mod n 16). lia.
    + rewrite IH.
      * rewrite hex_value_from_digit by assumption.
        f_equal. pose proof (Z.div_mod n 16). lia.
      * split; [apply Z.div_pos; lia|].
        apply Z.div_lt_upper_bound; [lia|].
        replace (Z.of_nat (S fuel) + 1) with (Z.succ (Z.of_nat fuel + 1)) in Hn by lia.
        rewrite Z.pow_succ_r in Hn by lia. lia.
Qed.

Lemma format_bits_leading (fuel : nat) :
  forall n acc, 0 < n < 16 ^ (Z.of_nat fuel + 1) ->
    exists c rest, format_bits fuel n acc = String c rest /\ c <> "0"%char.
Proof.
  induction fuel as [|fuel IH]; intros n acc Hn.
  - change (16 ^ (Z.of_nat 0 + 1)) with 16 in Hn. simpl format_bits.
    eexists _, _. split; [reflexivity|].
    intros Hz. apply hex_digit_zero in Hz; [|apply Z.mod_pos_bound; lia].
    rewrite Z.mod_small in Hz by lia. lia.
  - simpl format_bits. destruct (Z.eqb_spec (n / 16) 0) as [Hq|Hq].
    + eexists _, _. split; [reflexivity|].
      intros Hz. apply hex_digit_zero in Hz; [|apply Z.mod_pos_bound; lia].
      pose proof (Z.div_mod n 16). lia.
    + apply IH.
      assert (0 <= n / 16) by (apply Z.div_pos; lia).
      split; [lia|].
      apply Z.div_lt_upper_bound; [lia|].
      replace (Z.of_nat (S fuel) + 1) with (Z.succ (Z.of_nat fuel + 1)) in Hn by lia.
      rewrite Z.pow_succ_r in Hn by lia. lia.
Qed.

(** The fuel [FormatUint16] starts with covers every digit. *)
Lemma log2_fuel (n : Z) :
  0 <= n -> n < 16 ^ (Z.of_nat (Z.to_nat (Z.log2 n)) + 1).
Proof.
  intros Hn. rewrite Z2Nat.id by apply Z.log2_nonneg.
  destruct (Z.eq_dec n 0) as [->|Hnz]; [reflexivity|].
  pose proof (Z.log2_spec n ltac:(lia)) as [_ Hup].
  pose proof (Z.log2_nonneg n) as Hlog.
  eapply Z.lt_le_trans; [exact Hup|].
  replace (Z.succ (Z.log2 n)) with (Z.log2 n + 1) by lia.
  apply Z.pow_le_mono_l. lia.
Qed.

(** [FormatUint16] prints the minimal big-endian hex string. *)
Lemma FormatUint16_minimal (n : Z) :
  0 <= n -> minimal_hex (FormatUint16 n) n.
Proof.
  intros Hn. unfold minimal_hex, FormatUint16, hex_value. split.
  - rewrite hex_value_format_bits by (split; [lia|apply log2_fuel; lia]).
    reflexivity.
  - destruct (Z.eq_dec n 0) as [->|Hnz]; [intros _; reflexivity|].
    destruct (format_bits_leading (Z.to_nat (Z.log2 n)) n EmptyString)
      as (c & rest & -> & Hc); [split; [lia|apply log2_fuel; lia]|].
    intros Hz. contradiction.
Qed.

End hexutil_facts.

(** ** Block-number arguments *)

Example toBlockNumArg_255 : client.toBlockNumArg (Some 255%Z) = "0xff"%string.
Proof. reflexivity. Qed.

Example toBlockNumArg_0 : client.toBlockNumArg (Some 0%Z) = "0x0"%string.
Proof. reflexivity. Qed.

Example toBlockNumArg_3340162 :
  client.toBlockNumArg (Some 3340162%Z) = "0x32f782"%string.
Proof. reflexivity. Qed.

Example toBlockNumArg_minus_2 :
  client.toBlockNumArg (Some (-2)%Z) = "-0x2"%string.
Proof. reflexivity. Qed.

(** C9: the wire encoding of a block number is ["latest"] for [nil],
    ["pending"] for [-1], and otherwise the minimal big-endian hex string of
    the number: ["0x"] (["-0x"] below zero) followed by the digits of its
    magnitude, most significant first, without a leading zero. *)
Theorem toBlockNumArg_encoding (number : option Z) :
  match number with
  | None => client.toBlockNumArg number = "latest"%string
  | Some n =>
      if (n =? -1)%Z then client.toBlockNumArg number = "pending"%string
      else exists digits,
             hexutil.minimal_hex digits (Z.abs n) /\
             client.toBlockNumArg number =
               String.append (if (n <? 0)%Z then "-0x" else "0x")%string digits
  end.
Proof.
  destruct number as [n|]; [|reflexivity].
  unfold client.toBlockNumArg.
  destruct (Z.eqb_spec n (-1)) as [->|Hne]; [reflexivity|].
  destruct (Z.compare_spec n (-1)) as [Heq|Hlt|Hgt]; [contradiction| |].
  - exists (hexutil.FormatUint16 (- n)). split.
    + replace (Z.abs n) with (- n)%Z by lia.
      apply FormatUint16_minimal. lia.
    + destruct (Z.ltb_spec n 0); [|lia].
      unfold hexutil.EncodeBig. destruct n; try lia. reflexivity.
  - exists (hexutil.FormatUint16 (Z.abs n)). split.
    + apply FormatUint16_minimal. lia.
    + destruct (Z.ltb_spec n 0); [lia|].
      unfold hexutil.EncodeBig. destruct n; try lia; reflexivity.
Qed.

(** ** Block assembly *)
Section block_facts.
Import types.

(** [WithBody] hands back its receiver. *)
Lemma WithBody_returns_receiver (b b' : Block) (transactions : Transactions)
    (uncles : list (option Header)) :
  WithBody b transactions uncles = Returns b' -> b' = b.
Proof.
  unfold WithBody.
  destruct (WithBody_block b transactions uncles); [congruence|discriminate].
Qed.

Lemma fillTransactions_fills (transactions : Transactions) :
  forall i bd cp bd' cp',
    fillTransactions i transactions bd cp = Returns (bd', cp') ->
    length (Body_Transactions bd) = i + length transactions ->
    Body_Transactions bd' = take i (Body_Transactions bd) ++ transactions /\
    Body_Uncles bd' = Body_Uncles bd.
Proof.
  induction transactions as [|[tx|] rest IH]; intros i bd cp bd' cp' Hfill Hlen.
  - injection Hfill as <- <-. rewrite app_nil_r.
    rewrite take_ge by (simpl in Hlen; lia). split; reflexivity.
  - cbn [fillTransactions] in Hfill. apply IH in Hfill as [Htxs Huncles];
      cbn [Body_Transactions Body_Uncles] in *.
    + split; [|exact Huncles]. rewrite Htxs.
      rewrite (take_S_r _ _ (Some tx))
        by (apply list_lookup_insert_eq; simpl in Hlen; lia).
      change Transactions with (list (option Transaction)) in *.
      rewrite take_insert_ge by lia. rewrite <- app_assoc. reflexivity.
    + change Transactions with (list (option Transaction)) in *.
      rewrite length_insert. simpl in Hlen. lia.
  - discriminate.
Qed.

Lemma fillUncles_fills (uncles : list (option Header)) :
  forall i bd cp bd' cp',
    fillUncles i uncles bd cp = Returns (bd', cp') ->
    length (Body_Uncles bd) = i + length uncles ->
    Body_Uncles bd' = take i (Body_Uncles bd) ++ (option_map CopyHeader <$> uncles) /\
    Body_Transactions bd' = Body_Transactions bd.
Proof.
  induction uncles as [|[uncle|] rest IH]; intros i bd cp bd' cp' Hfill Hlen.
  - injection Hfill as <- <-. rewrite app_nil_r.
    rewrite take_ge by (simpl in Hlen; lia). split; reflexivity.
  - cbn [fillUncles] in Hfill. apply IH in Hfill as [Huncles Htxs];
      cbn [Body_Transactions Body_Uncles] in *.
    + split; [|exact Htxs]. rewrite Huncles.
      rewrite (take_S_r _ _ (Some (CopyHeader uncle)))
        by (apply list_lookup_insert_eq; simpl in Hlen; lia).
      rewrite take_insert_ge by lia. rewrite <- app_assoc. reflexivity.
    + rewrite length_insert. simpl in Hlen. lia.
  - discriminate.
Qed.

(** X22: the block that [WithBody] builds is hydrated; it is not the one
    it returns. *)
Lemma WithBody_block_hydrated (b block : Block) (transactions : Transactions)
    (uncles : list (option Header)) :
  WithBody_block b transactions uncles = Returns block ->
  spec.hydrated block transactions uncles /\ header block = header b.
Proof.
  unfold WithBody_block.
  destruct (fillTransactions _ _ _ _) as [[bd cp]|] eqn:Htxs; [|discriminate].
  destruct (fillUncles _ _ _ _) as [[bd' cp']|] eqn:Huncles; [|discriminate].
  intros [= <-]. split; [|reflexivity].
  apply fillTransactions_fills in Htxs as [Htxs Hkeep];
    [|simpl; rewrite length_replicate; reflexivity].
  apply fillUncles_fills in Huncles as [Huncles Hkeep'];
    [|rewrite Hkeep; simpl; rewrite length_replicate; reflexivity].
  exists bd'. split; [reflexivity|]. split.
  - rewrite Hkeep', Htxs. reflexivity.
  - rewrite Huncles. reflexivity.
Qed.

(** X21: the block a full-body [getBlock] returns is the one
    [NewBlockWithHeader] made, with its withdrawals: it has neither a body
    nor a compact body. *)
Lemma getBlock_full_bodiless {C : Type} `{client.rpcCaller C}
    `{rpc.Unmarshal (option Header)} `{rpc.Unmarshal client.fullResp}
    `{rpc.Unmarshal client.compactResp}
    (c c' : C) (method : string) (numOrHash : rpc.any) (blk : Block) :
  client.getBlock c method numOrHash true = Returns (c', (Some blk, None)) ->
  body blk = None /\ compact blk = None.
Proof.
  unfold client.getBlock.
  destruct (client.Call c _ method _) as [c1 [raw [e|]]]; [discriminate|].
  destruct (String.length raw =? 0)%nat; [discriminate|].
  destruct (rpc.json_Unmarshal raw None) as [hd [e|]]; [discriminate|].
  destruct (rpc.json_Unmarshal raw _) as [resp [e|]]; [discriminate|].
  destruct hd as [hd|]; [|discriminate].
  destruct (client.getBlockUncles c1 _ _) as [c2 [uncles [e|]]]; [discriminate|].
  destruct (WithBody _ _ _) as [b|] eqn:Hb; [|discriminate].
  apply WithBody_returns_receiver in Hb. subst b.
  intros [= <- <-]. split; reflexivity.
Qed.

End block_facts.

Section block_examples.
Import types rpc client spec fixtures.
#[local] Existing Instances decodeHeader decodeFull decodeCompact.

(** C1, on the code: [BlockByHash] with [fullBlock = true] succeeds on the
    pool made of [node11], whose envelope decodes to one transaction and
    two uncle hashes and whose uncle headers are valid, and the block it
    returns has no body at all, neither full nor compact. *)
Theorem BlockByHash_full_has_no_body :
  exists p' blk,
    BlockByHash alone (NewRpcConnectionPool [node11]) 11%N true
      = Returns (p', (Some blk, None)) /\
    (json_Unmarshal "block11"
       {| fullResp_Uncles := []; fullResp_Transactions := [];
          fullResp_Withdrawals := [] |}).1
      = {| fullResp_Uncles := [21; 22]%N;
           fullResp_Transactions := [Some (mkTransaction 31%N)];
           fullResp_Withdrawals := [] |} /\
    Block_Body blk = None /\
    compact blk = None /\
    Block_Transactions blk = Panics /\
    ~ hydrated blk [Some (mkTransaction 31%N)]
        [Some (mkHeader 21%N); Some (mkHeader 22%N)].
Proof.
  eexists _, _. split; [vm_compute; reflexivity|].
  repeat split. intros (bd & Hbody & _). discriminate.
Qed.

End block_examples.

(** ** Chunks *)
Section chunks_facts.
Import spec.
Context {A : Type}.
Implicit Types (l : list A) (size fuel : nat).

Lemma chunks_upto_fuel size fuel :
  forall fuel' l, 0 < size -> length l <= fuel -> length l <= fuel' ->
    chunks_upto fuel size l = chunks_upto fuel' size l.
Proof.
  induction fuel as [|fuel IH]; intros fuel' l Hsize Hfuel Hfuel'.
  - destruct l; [destruct fuel'; reflexivity|simpl in Hfuel; lia].
  - destruct l as [|x l]; [destruct fuel'; reflexivity|].
    destruct fuel' as [|fuel']; [simpl in Hfuel'; lia|].
    cbn [chunks_upto]. f_equal.
    assert (Hdrop : length (drop size (x :: l)) <= length l).
    { rewrite length_drop. simpl. lia. }
    simpl in Hfuel, Hfuel'. apply IH; [assumption|lia|lia].
Qed.

Lemma chunks_upto_enough size fuel l :
  0 < size -> length l <= fuel -> chunks_upto fuel size l = chunks size l.
Proof.
  intros Hsize Hfuel. apply chunks_upto_fuel; [assumption|assumption|lia].
Qed.

Lemma chunks_nil size : chunks size ([] : list A) = [].
Proof. reflexivity. Qed.

Lemma chunks_cons size l :
  0 < size -> l <> [] ->
  chunks size l = take size l :: chunks size (drop size l).
Proof.
  intros Hsize Hl. destruct l as [|x l]; [contradiction|].
  unfold chunks at 1. cbn [chunks_upto length]. f_equal.
  apply chunks_upto_enough; [assumption|].
  rewrite length_drop. simpl. lia.
Qed.

(** Strong induction along the chunks of a list. *)
Lemma chunks_ind size (P : list A -> Prop) :
  0 < size ->
  P [] ->
  (forall l, l <> [] -> P (drop size l) -> P l) ->
  forall l, P l.
Proof.
  intros Hsize Hnil Hstep l.
  remember (length l) as n eqn:Hn. revert l Hn.
  induction n as [n IH] using lt_wf_ind. intros l Hn.
  destruct l as [|x l]; [exact Hnil|].
  apply Hstep; [discriminate|].
  apply (IH (length (drop size (x :: l)))); [|reflexivity].
  rewrite length_drop. subst n. simpl. lia.
Qed.

Lemma chunks_concat size l : 0 < size -> concat (chunks size l) = l.
Proof.
  intros Hsize. pattern l.
  apply (chunks_ind size); [assumption| |clear l; intros l Hl IH].
  - reflexivity.
  - rewrite chunks_cons by assumption. simpl. rewrite IH. apply take_drop.
Qed.

Lemma chunks_bounded size l :
  0 < size -> Forall (fun c => 0 < length c <= size) (chunks size l).
Proof.
  intros Hsize. pattern l.
  apply (chunks_ind size); [assumption| |clear l; intros l Hl IH].
  - constructor.
  - rewrite chunks_cons by assumption. constructor; [|exact IH].
    rewrite length_take. destruct l; [contradiction|]. simpl. lia.
Qed.

(** There are [ceil (n / size)] chunks. *)
Lemma chunks_length size l :
  0 < size -> length (chunks size l) = (length l + size - 1) / size.
Proof.
  intros Hsize. pattern l.
  apply (chunks_ind size); [assumption| |clear l; intros l Hl IH].
  - simpl. symmetry. apply Nat.div_small. lia.
  - rewrite chunks_cons by assumption. cbn [length]. rewrite IH, length_drop.
    assert (Hn : 0 < length l) by (destruct l; [contradiction|simpl; lia]).
    assert (Hsame : (length l - size + size - 1) / size = (length l - 1) / size).
    { destruct (le_lt_dec size (length l)) as [Hge|Hlt].
      - f_equal. lia.
      - rewrite !Nat.div_small by lia. reflexivity. }
    rewrite Hsame.
    replace (length l + size - 1) with (length l - 1 + 1 * size) by lia.
    rewrite Nat.div_add by lia. lia.
Qed.

(** Every chunk but the last is full. *)
Lemma chunks_full size l i c :
  0 < size -> chunks size l !! i = Some c -> S i < length (chunks size l) ->
  length c = size.
Proof.
  intros Hsize. revert i. pattern l.
  apply (chunks_ind size); [assumption| |clear l; intros l Hl IH].
  - intros i Hc. discriminate.
  - intros i. rewrite chunks_cons by assumption.
    destruct i as [|i]; cbn [lookup list_lookup length].
    + intros [= <-] Hmore. rewrite length_take.
      destruct (chunks size (drop size l)) as [|c' cs] eqn:Hrest;
        [simpl in Hmore; lia|].
      assert (Hnonempty : drop size l <> []).
      { intros Hnil. rewrite Hnil in Hrest. discriminate. }
      assert (size < length l).
      { destruct (le_lt_dec (length l) size) as [Hle|Hlt]; [|assumption].
        exfalso. apply Hnonempty. apply drop_ge. assumption. }
      lia.
    + intros Hc Hmore. apply (IH i); [assumption|lia].
Qed.

End chunks_facts.

Example chunks_250 :
  length <$> spec.chunks 100 (seq 0 250) = [100; 100; 50].
Proof. vm_compute. reflexivity. Qed.

(** ** Receipts *)
Section receipts_facts.
Import types rpc client spec.
Context {C : Type} `{rpcCaller C} `{Unmarshal (option Receipt)}.

Lemma batchRequest_receiptBatch (txHashes : list common.Hash) :
  batchRequest (receiptBatch txHashes) = receiptRequest txHashes.
Proof.
  unfold batchRequest, receiptBatch, receiptRequest.
  rewrite <- list_fmap_compose. reflexivity.
Qed.

Lemma checkReceipts_answered (batch : list (BatchElem (option Receipt))) :
  forall txHashes, length batch = length txHashes ->
    checkReceipts batch txHashes = None -> Forall answered batch.
Proof.
  induction batch as [|elem batch IH]; intros txHashes Hlen Hcheck.
  - constructor.
  - destruct txHashes as [|txHash txHashes]; [discriminate|].
    simpl in Hcheck, Hlen.
    destruct (Error elem) eqn:Herr; [discriminate|].
    destruct (Result elem) eqn:Hres; [|discriminate].
    constructor.
    + split; [assumption|]. rewrite Hres. discriminate.
    + apply (IH txHashes); [lia|assumption].
Qed.

(** The validation loop stops with an error at, or before, a null
    receipt. *)
Lemma checkReceipts_null (got : list (BatchElem (option Receipt))) :
  forall txHashes, length got = length txHashes ->
    (exists idx elem, got !! idx = Some elem /\ Result elem = None) ->
    exists e, checkReceipts got txHashes = Some e.
Proof.
  induction got as [|elem0 got IH]; intros txHashes Hlen (idx & elem & Hgot & Hnull).
  - discriminate.
  - destruct txHashes as [|txHash txHashes]; [discriminate|].
    cbn [checkReceipts].
    destruct (Error elem0) as [e|]; [eauto|].
    destruct (Result elem0) as [receipt|] eqn:Hres; [|eauto].
    destruct idx as [|idx].
    + simpl in Hgot. injection Hgot as <-. congruence.
    + apply IH; [simpl in Hlen; lia|]. exists idx, elem. auto.
Qed.

(** X24: a batch that comes back with a null receipt makes
    [batchGetTransactionReceipt] fail. *)
Lemma batchGetTransactionReceipt_null (c : C) (txHashes : list common.Hash) :
  let reply := BatchCall c (receiptBatch txHashes) in
  (exists idx elem, reply.2.1 !! idx = Some elem /\ Result elem = None) ->
  exists e, batchGetTransactionReceipt c txHashes = (reply.1, (None, Some e)).
Proof.
  intros reply Hnull. unfold batchGetTransactionReceipt.
  pose proof (BatchCall_length c (receiptBatch txHashes)) as Hlen.
  fold reply in Hlen |- *. unfold receiptBatch in Hlen. rewrite length_fmap in Hlen.
  destruct (Nat.eqb_spec (length txHashes) 0) as [Hz|_].
  { destruct Hnull as (idx & elem & Hgot & _).
    apply lookup_lt_Some in Hgot. lia. }
  destruct reply as [c1 [got [e|]]]; cbn [fst snd] in *; [eauto|].
  apply (checkReceipts_null got txHashes Hlen) in Hnull as [e ->]. eauto.
Qed.

(** A successful [batchGetTransactionReceipt] on a non-empty list made one
    batched call, and returns the results of its elements in order. *)
Lemma batchGetTransactionReceipt_success (c c' : C)
    (txHashes : list common.Hash) (ret : option Receipts) :
  txHashes <> [] ->
  batchGetTransactionReceipt c txHashes = (c', (ret, None)) ->
  exists got,
    serve c [receiptBatch txHashes] = (c', [got]) /\
    ret = Some (Result <$> got) /\
    length got = length txHashes /\
    Forall answered got.
Proof.
  intros Hne. unfold batchGetTransactionReceipt.
  destruct (Nat.eqb_spec (length txHashes) 0) as [Hz|_].
  { destruct txHashes; [contradiction|discriminate]. }
  cbn [serve].
  pose proof (BatchCall_length c (receiptBatch txHashes)) as Hlen.
  destruct (BatchCall c (receiptBatch txHashes)) as [c1 [got [e|]]];
    [discriminate|].
  simpl in Hlen. unfold receiptBatch in Hlen. rewrite length_fmap in Hlen.
  destruct (checkReceipts got txHashes) eqn:Hcheck; [discriminate|].
  intros [= <- <-]. exists got. repeat split; try assumption.
  eapply checkReceipts_answered; eassumption.
Qed.

Lemma serve_cons {T : Type} `{Unmarshal T} (c : C)
    (batch : list (BatchElem T)) (rest : list (list (BatchElem T))) :
  serve c (batch :: rest) =
    ((serve (serve c [batch]).1 rest).1,
     (serve c [batch]).2 ++ (serve (serve c [batch]).1 rest).2).
Proof.
  cbn [serve]. destruct (BatchCall c batch) as [c1 [got e]]. cbn [fst snd].
  destruct (serve c1 rest) as [c2 gots]. reflexivity.
Qed.

(** The slice [txHashes[start:end]] of the chunk loop is the next chunk. *)
Lemma chunk_slice (txHashes : list common.Hash) (i : nat) :
  let start := i * rpcRequestBatchSize in
  let end_ := start + rpcRequestBatchSize in
  let end_ := if (length txHashes <? end_)%nat then length txHashes else end_ in
  take (end_ - start) (drop start txHashes)
    = take rpcRequestBatchSize (drop (i * rpcRequestBatchSize) txHashes).
Proof.
  cbv zeta. destruct (Nat.ltb_spec (length txHashes)
                        (i * rpcRequestBatchSize + rpcRequestBatchSize)) as [Hlt|Hge].
  - rewrite !take_ge; [reflexivity|rewrite length_drop; lia|rewrite length_drop; lia].
  - f_equal. lia.
Qed.

(** A successful run of the chunk loop served the remaining chunks one
    batched call each, and appended their results in order. *)
Lemma receiptChunks_success (todo : nat) :
  forall (i : nat) (c c' : C) (txHashes : list common.Hash)
         (ret : Receipts) (out : option Receipts),
    length (chunks rpcRequestBatchSize (drop (i * rpcRequestBatchSize) txHashes))
      = todo ->
    receiptChunks todo i c txHashes ret = (c', (out, None)) ->
    let served :=
      serve c (receiptBatch <$>
               chunks rpcRequestBatchSize (drop (i * rpcRequestBatchSize) txHashes)) in
    c' = served.1 /\
    out = Some (ret ++ (Result <$> concat served.2)) /\
    Forall answered (concat served.2) /\
    length (concat served.2) = length (drop (i * rpcRequestBatchSize) txHashes).
Proof.
  assert (Hsize : 0 < rpcRequestBatchSize) by (unfold rpcRequestBatchSize; lia).
  induction todo as [|todo IH]; intros i c c' txHashes ret out Hcount Hrun.
  - apply nil_length_inv in Hcount as Hnil. rewrite Hnil. cbn [fmap list_fmap serve].
    simpl in Hrun. injection Hrun as <- <-. cbn [fst snd concat fmap list_fmap].
    rewrite app_nil_r. repeat split; [constructor|].
    pose proof (chunks_concat rpcRequestBatchSize
                  (drop (i * rpcRequestBatchSize) txHashes) Hsize) as Hcat.
    rewrite Hnil in Hcat. simpl in Hcat. rewrite <- Hcat. reflexivity.
  - set (rest := drop (i * rpcRequestBatchSize) txHashes) in *.
    assert (Hrest : rest <> []).
    { intros Hnil. rewrite Hnil in Hcount. discriminate. }
    rewrite (chunks_cons _ rest Hsize Hrest) in Hcount |- *.
    cbn [receiptChunks] in Hrun. rewrite chunk_slice in Hrun. fold rest in Hrun.
    assert (Hchunk : take rpcRequestBatchSize rest <> []).
    { destruct rest; [contradiction|]. unfold rpcRequestBatchSize. discriminate. }
    destruct (batchGetTransactionReceipt c (take rpcRequestBatchSize rest))
      as [c1 [receipts [e|]]] eqn:Hget; [discriminate|].
    apply batchGetTransactionReceipt_success in Hget as (got & Hserve & -> & Hlen & Hok);
      [|assumption].
    assert (Hnext : drop (S i * rpcRequestBatchSize) txHashes
                    = drop rpcRequestBatchSize rest).
    { unfold rest. rewrite drop_drop. f_equal. lia. }
    apply IH in Hrun as (Hc' & Hout & Hans & Hlens);
      [|rewrite Hnext; simpl in Hcount; lia].
    rewrite Hnext in Hc', Hout, Hans, Hlens.
    cbn [fmap list_fmap]. rewrite serve_cons.
    change (list_fmap _ _ receiptBatch) with (fmap (M := list) receiptBatch).
    rewrite Hserve. cbn [fst snd]. cbn [app concat].
    repeat split.
    + exact Hc'.
    + rewrite Hout. cbn [default]. rewrite fmap_app, app_assoc. reflexivity.
    + apply Forall_app. split; assumption.
    + rewrite length_app, Hlens, Hlen, length_take, length_drop. lia.
Qed.

Lemma checkReceipts_usable (got : list (BatchElem (option Receipt))) :
  forall txHashes, length got = length txHashes ->
    (checkReceipts got txHashes = None <-> usable got None = true).
Proof.
  induction got as [|elem got IH]; intros [|txHash txHashes] Hlen;
    try discriminate; [split; reflexivity|].
  cbn [checkReceipts usable forallb].
  destruct (Error elem) as [e|]; [split; discriminate|].
  destruct (Result elem) as [receipt|]; [|split; discriminate].
  cbn [andb]. apply IH. simpl in Hlen. lia.
Qed.

(** [batchGetTransactionReceipt] on a non-empty list submits its batch,
    and succeeds exactly when the batch comes back usable. *)
Lemma batchGetTransactionReceipt_usable (c : C) (txHashes : list common.Hash) :
  txHashes <> [] ->
  let call := BatchCall c (receiptBatch txHashes) in
  let res := batchGetTransactionReceipt c txHashes in
  res.1 = call.1 /\
  (res.2.2 = None <-> usable call.2.1 call.2.2 = true) /\
  (res.2.2 <> None -> res.2.1 = None).
Proof.
  intros Hne call res. subst call res. unfold batchGetTransactionReceipt.
  destruct (Nat.eqb_spec (length txHashes) 0) as [Hz|_].
  { destruct txHashes; [contradiction|discriminate]. }
  pose proof (BatchCall_length c (receiptBatch txHashes)) as Hlen.
  destruct (BatchCall c (receiptBatch txHashes)) as [c1 [got [e|]]];
    cbn [fst snd] in *.
  { split; [reflexivity|]. split; [split; discriminate|reflexivity]. }
  unfold receiptBatch in Hlen. rewrite length_fmap in Hlen.
  pose proof (checkReceipts_usable got txHashes Hlen) as Hiff.
  destruct (checkReceipts got txHashes) as [e|]; cbn [fst snd].
  - split; [reflexivity|]. split; [|reflexivity].
    split; [discriminate|]. intros Hok. apply Hiff in Hok. discriminate.
  - split; [reflexivity|]. split; [|intros Hcontra; contradiction].
    split; [intros _; apply Hiff; reflexivity|reflexivity].
Qed.

Lemma submit_cons (c : C) (batch : list (BatchElem (option Receipt)))
    (rest : list (list (BatchElem (option Receipt)))) :
  submit c (batch :: rest) =
    let call := BatchCall c batch in
    if usable call.2.1 call.2.2
    then let s := submit call.1 rest in (s.1, (S s.2.1, s.2.2))
    else (call.1, (1, false)).
Proof.
  cbn [submit]. destruct (BatchCall c batch) as [c1 [got e]]. cbn [fst snd].
  destruct (usable got e); [|reflexivity].
  destruct (submit c1 rest) as [c2 [n ok]]. reflexivity.
Qed.

(** The chunk loop submits the chunks one after the other until one does
    not come back usable, and succeeds exactly when all come back
    usable. *)
Lemma receiptChunks_submit (todo : nat) :
  forall (i : nat) (c c' : C) (txHashes : list common.Hash)
         (ret : Receipts) (out : option Receipts) (err : option error),
    length (chunks rpcRequestBatchSize (drop (i * rpcRequestBatchSize) txHashes))
      = todo ->
    receiptChunks todo i c txHashes ret = (c', (out, err)) ->
    let s :=
      submit c (receiptBatch <$>
                chunks rpcRequestBatchSize (drop (i * rpcRequestBatchSize) txHashes)) in
    c' = s.1 /\ (err = None <-> s.2.2 = true) /\ (err <> None -> out = None).
Proof.
  assert (Hsize : 0 < rpcRequestBatchSize) by (unfold rpcRequestBatchSize; lia).
  induction todo as [|todo IH]; intros i c c' txHashes ret out err Hcount Hrun.
  - apply nil_length_inv in Hcount as Hnil. rewrite Hnil.
    simpl in Hrun. injection Hrun as <- <- <-. cbn.
    split; [reflexivity|]. split; [split; reflexivity|].
    intros Hcontra. contradiction.
  - set (rest := drop (i * rpcRequestBatchSize) txHashes) in *.
    assert (Hrest : rest <> []).
    { intros Hnil. rewrite Hnil in Hcount. discriminate. }
    rewrite (chunks_cons _ rest Hsize Hrest) in Hcount |- *.
    cbn [receiptChunks] in Hrun. rewrite chunk_slice in Hrun. fold rest in Hrun.
    assert (Hchunk : take rpcRequestBatchSize rest <> []).
    { destruct rest; [contradiction|]. unfold rpcRequestBatchSize. discriminate. }
    pose proof (batchGetTransactionReceipt_usable c
                  (take rpcRequestBatchSize rest) Hchunk) as (Hc & Hiff & Hnone).
    cbn [fmap list_fmap]. rewrite submit_cons. cbv zeta.
    change (list_fmap _ _ receiptBatch) with (fmap (M := list) receiptBatch).
    destruct (batchGetTransactionReceipt c (take rpcRequestBatchSize rest))
      as [c1 [receipts [e|]]]; cbn [fst snd] in Hc, Hiff, Hnone.
    + injection Hrun as <- <- <-.
      destruct (usable _ _).
      { destruct Hiff as [_ Hiff]. specialize (Hiff eq_refl). discriminate. }
      cbn [fst snd]. split; [exact Hc|].
      split; [split; discriminate|reflexivity].
    + destruct (usable _ _).
      2:{ destruct Hiff as [Hiff _]. specialize (Hiff eq_refl). discriminate. }
      assert (Hnext : drop (S i * rpcRequestBatchSize) txHashes
                      = drop rpcRequestBatchSize rest).
      { unfold rest. rewrite drop_drop. f_equal. lia. }
      apply IH in Hrun as (Hc' & Herr & Hout);
        [|rewrite Hnext; simpl in Hcount; lia].
      rewrite Hnext in Hc', Herr. rewrite <- Hc. cbn [fst snd].
      split; [exact Hc'|]. split; [exact Herr|exact Hout].
Qed.

End receipts_facts.

Section recorded_receipts.
Import types rpc client spec.
Context {C : Type} `{rpcCaller C} `{Unmarshal (option Receipt)}.

Lemma Recorder_BatchCall_calls {T : Type} `{Unmarshal T} (r : Recorder C)
    (batch : list (BatchElem T)) :
  calls (BatchCall r batch).1 = calls r ++ [batchRequest batch].
Proof.
  simpl. destruct (BatchCall (inner r) batch) as [c out]. reflexivity.
Qed.

Lemma Recorder_serve_calls {T : Type} `{Unmarshal T}
    (batches : list (list (BatchElem T))) :
  forall r : Recorder C,
    calls (serve r batches).1 = calls r ++ (batchRequest <$> batches).
Proof.
  induction batches as [|batch batches IH]; intros r.
  - simpl. rewrite app_nil_r. reflexivity.
  - cbn [serve]. pose proof (Recorder_BatchCall_calls r batch) as Hcall.
    destruct (BatchCall r batch) as [r1 [got e]]. cbn [fst] in Hcall.
    specialize (IH r1). destruct (serve r1 batches) as [r2 gots].
    cbn [fst] in IH |- *. rewrite IH, Hcall, <- app_assoc. reflexivity.
Qed.

(** A list of at most [size] elements is its own single chunk. *)
Lemma chunks_single {A : Type} (size : nat) (l : list A) :
  0 < size -> l <> [] -> length l <= size -> chunks size l = [l].
Proof.
  intros Hsize Hl Hlen. rewrite chunks_cons by assumption.
  rewrite take_ge, drop_ge by assumption. reflexivity.
Qed.

(** Two hundred and fifty elements make chunks of 100, 100 and 50. *)
Lemma chunks_of_250 {A : Type} (l : list A) :
  length l = 250 -> length <$> chunks rpcRequestBatchSize l = [100; 100; 50].
Proof.
  intros Hlen.
  assert (Hsize : 0 < rpcRequestBatchSize) by (unfold rpcRequestBatchSize; lia).
  assert (Hne : forall k : list A, 0 < length k -> k <> []).
  { intros k Hk ->. simpl in Hk. lia. }
  rewrite (chunks_cons _ l) by (auto; apply Hne; lia).
  rewrite (chunks_cons _ (drop _ l)) by (auto; apply Hne; rewrite length_drop; unfold rpcRequestBatchSize; lia).
  rewrite (chunks_single _ (drop _ (drop _ l)));
    [|assumption
     |apply Hne; rewrite !length_drop; unfold rpcRequestBatchSize; lia
     |rewrite !length_drop; unfold rpcRequestBatchSize; lia].
  cbn [fmap list_fmap]. rewrite !length_take, !length_drop.
  unfold rpcRequestBatchSize. rewrite Hlen. reflexivity.
Qed.

(** A successful [getBlockReceiptsByHashes] has served every chunk with one
    batched call, and returns the results concatenated in order. *)
Lemma getBlockReceiptsByHashes_success (r r' : Recorder C)
    (blockHash : common.Hash) (txHashes : list common.Hash)
    (ret : option Receipts) :
  getBlockReceiptsByHashes r blockHash txHashes = Returns (r', (ret, None)) ->
  let cs := chunks rpcRequestBatchSize txHashes in
  let served := serve r (receiptBatch <$> cs) in
  length cs = (length txHashes + 99) / 100 /\
  concat cs = txHashes /\
  Forall (fun c => 0 < length c <= 100) cs /\
  (length txHashes = 250 -> length <$> cs = [100; 100; 50]) /\
  calls r' = calls r ++ (receiptRequest <$> cs) /\
  r' = served.1 /\
  ret = Some (Result <$> concat served.2) /\
  length (concat served.2) = length txHashes /\
  Forall answered (concat served.2).
Proof.
  intros Hrun cs served.
  assert (Hsize : 0 < rpcRequestBatchSize) by (unfold rpcRequestBatchSize; lia).
  split.
  { subst cs. rewrite chunks_length by assumption. unfold rpcRequestBatchSize.
    f_equal. lia. }
  split; [apply chunks_concat; assumption|].
  split; [apply (chunks_bounded rpcRequestBatchSize txHashes Hsize)|].
  split; [apply chunks_of_250|].
  assert (Hmain : r' = served.1 /\ ret = Some (Result <$> concat served.2) /\
                  length (concat served.2) = length txHashes /\
                  Forall answered (concat served.2)).
  { unfold getBlockReceiptsByHashes in Hrun.
    destruct (Nat.leb_spec (length txHashes) rpcRequestBatchSize) as [Hle|Hgt].
    - injection Hrun as Hget. destruct txHashes as [|txHash txHashes].
      + unfold batchGetTransactionReceipt in Hget. simpl in Hget.
        injection Hget as <- <-. repeat split. constructor.
      + apply batchGetTransactionReceipt_success in Hget
          as (got & Hserve & -> & Hlen & Hok); [|discriminate].
        subst served cs. rewrite chunks_single by (auto; discriminate).
        cbn [fmap list_fmap]. rewrite Hserve. cbn [fst snd concat].
        rewrite app_nil_r. repeat split; assumption.
    - destruct (receiptChunks _ 0 r txHashes []) as [r1 [out [e|]]] eqn:Hloop;
        [discriminate|].
      apply receiptChunks_success in Hloop as (Hr1 & Hout & Hok & Hlen);
        [|rewrite Nat.mul_0_l, drop_0; apply chunks_length; assumption].
      rewrite Nat.mul_0_l, drop_0 in Hr1, Hout, Hok, Hlen. cbn [app] in Hout.
      destruct (checkBlockHash blockHash (default [] out)) as [[e|]|];
        try discriminate.
      injection Hrun as <- <-. repeat split; assumption. }
  destruct Hmain as (Hr' & Hret & Hlen & Hok).
  repeat split; try assumption.
  rewrite Hr'. subst served. rewrite Recorder_serve_calls.
  rewrite <- list_fmap_compose. f_equal. apply list_fmap_ext.
  intros i c _. apply batchRequest_receiptBatch.
Qed.

Lemma Recorder_batchGet_calls (r : Recorder C) (txHashes : list common.Hash) :
  calls (batchGetTransactionReceipt r txHashes).1
    = calls r ++ match txHashes with
                 | [] => []
                 | _ => [receiptRequest txHashes]
                 end.
Proof.
  destruct txHashes as [|txHash txHashes].
  - simpl. rewrite app_nil_r. reflexivity.
  - unfold batchGetTransactionReceipt. cbn [length Nat.eqb].
    pose proof (Recorder_BatchCall_calls r (receiptBatch (txHash :: txHashes)))
      as Hcalls.
    rewrite batchRequest_receiptBatch in Hcalls.
    destruct (BatchCall r (receiptBatch (txHash :: txHashes)))
      as [r1 [got [e|]]]; [exact Hcalls|].
    destruct (checkReceipts got (txHash :: txHashes)); exact Hcalls.
Qed.

(** However the chunk loop ends, it has asked for the first [k] of the
    remaining chunks, one batched call each, and for all of them when it
    ends without an error. *)
Lemma receiptChunks_calls (todo : nat) :
  forall (i : nat) (r r' : Recorder C) (txHashes : list common.Hash)
         (ret : Receipts) (out : option Receipts) (err : option error),
    length (chunks rpcRequestBatchSize (drop (i * rpcRequestBatchSize) txHashes))
      = todo ->
    receiptChunks todo i r txHashes ret = (r', (out, err)) ->
    exists k, k <= todo /\
      (err = None -> k = todo) /\
      calls r' = calls r ++
        (receiptRequest <$>
         take k (chunks rpcRequestBatchSize (drop (i * rpcRequestBatchSize) txHashes))).
Proof.
  assert (Hsize : 0 < rpcRequestBatchSize) by (unfold rpcRequestBatchSize; lia).
  induction todo as [|todo IH]; intros i r r' txHashes ret out err Hcount Hrun.
  - injection Hrun as <- <- <-. exists 0. rewrite take_0. simpl.
    rewrite app_nil_r. auto.
  - set (rest := drop (i * rpcRequestBatchSize) txHashes) in *.
    assert (Hrest : rest <> []).
    { intros Hnil. rewrite Hnil in Hcount. discriminate. }
    rewrite (chunks_cons _ rest Hsize Hrest) in Hcount |- *.
    cbn [receiptChunks] in Hrun. rewrite chunk_slice in Hrun. fold rest in Hrun.
    pose proof (Recorder_batchGet_calls r (take rpcRequestBatchSize rest)) as Hcalls.
    assert (Hchunk : take rpcRequestBatchSize rest <> []).
    { destruct rest; [contradiction|]. unfold rpcRequestBatchSize. discriminate. }
    destruct (batchGetTransactionReceipt r (take rpcRequestBatchSize rest))
      as [r1 [receipts [e|]]]; cbn [fst] in Hcalls.
    + injection Hrun as <- <- <-. exists 1. split; [lia|]. split; [discriminate|].
      rewrite Hcalls. cbn [take fmap list_fmap]. rewrite take_0.
      destruct (take rpcRequestBatchSize rest); [contradiction|reflexivity].
    + assert (Hnext : drop (S i * rpcRequestBatchSize) txHashes
                      = drop rpcRequestBatchSize rest).
      { unfold rest. rewrite drop_drop. f_equal. lia. }
      apply IH in Hrun as (k & Hk & Hall & Hrest_calls);
        [|rewrite Hnext; simpl in Hcount; lia].
      rewrite Hnext in Hrest_calls.
      exists (S k). split; [lia|]. split; [intros He; rewrite Hall by exact He; reflexivity|].
      rewrite Hrest_calls, Hcalls. cbn [take fmap list_fmap].
      rewrite <- app_assoc.
      destruct (take rpcRequestBatchSize rest); [contradiction|reflexivity].
Qed.

Lemma checkBlockHash_returns (blockHash : common.Hash) (ret : Receipts) :
  Forall (fun slot => slot <> None) ret ->
  exists res, checkBlockHash blockHash ret = Returns res.
Proof.
  induction 1 as [|[receipt|] ret Hslot _ IH]; simpl.
  - eauto.
  - destruct (decide (Receipt_BlockHash receipt <> blockHash)); eauto.
  - contradiction.
Qed.

Lemma Recorder_submit_calls
    (batches : list (list (BatchElem (option Receipt)))) :
  forall r : Recorder C,
    let s := submit r batches in
    calls s.1 = calls r ++ (batchRequest <$> take s.2.1 batches) /\
    s.2.1 <= length batches /\
    (batches <> [] -> 0 < s.2.1) /\
    (s.2.2 = true -> s.2.1 = length batches).
Proof.
  induction batches as [|batch batches IH]; intros r.
  - cbn. rewrite app_nil_r. repeat split; try reflexivity; try lia.
    intros Hcontra. contradiction.
  - cbv zeta. rewrite submit_cons. cbv zeta.
    pose proof (Recorder_BatchCall_calls r batch) as Hcall.
    destruct (usable _ _).
    + specialize (IH (BatchCall r batch).1). cbv zeta in IH.
      destruct IH as (Hcalls & Hle & _ & Hall). cbn [fst snd length].
      split.
      { rewrite Hcalls, Hcall, <- app_assoc. reflexivity. }
      split; [lia|]. split; [intros _; lia|].
      intros Hok. rewrite (Hall Hok). reflexivity.
    + cbn [fst snd length]. split; [rewrite Hcall; reflexivity|].
      split; [lia|]. split; [intros _; lia|discriminate].
Qed.

(** When the final loop of [getBlockReceiptsByHashes] reports an error,
    some receipt has another block hash. *)
Lemma checkBlockHash_mismatch (blockHash : common.Hash) (ret : Receipts)
    (e : error) :
  checkBlockHash blockHash ret = Returns (Some e) ->
  exists receipt,
    Some receipt ∈ ret /\ Receipt_BlockHash receipt <> blockHash.
Proof.
  induction ret as [|[receipt|] ret IH]; simpl; intros Hcheck.
  - discriminate.
  - destruct (decide (Receipt_BlockHash receipt <> blockHash)) as [Hne|_].
    + exists receipt. split; [left|exact Hne].
    + destruct (IH Hcheck) as (found & Hin & Hne).
      exists found. split; [right; exact Hin|exact Hne].
  - discriminate.
Qed.

(** What [getBlockReceiptsByHashes] submits, and when it fails. *)
Lemma getBlockReceiptsByHashes_submits (r r' : Recorder C)
    (blockHash : common.Hash) (txHashes : list common.Hash)
    (ret : option Receipts) (err : option error) :
  getBlockReceiptsByHashes r blockHash txHashes = Returns (r', (ret, err)) ->
  let cs := chunks rpcRequestBatchSize txHashes in
  let served := serve r (receiptBatch <$> cs) in
  let submitted := submit r (receiptBatch <$> cs) in
  r' = submitted.1 /\
  (submitted.2.2 = false -> err <> None /\ ret = None) /\
  (submitted.2.2 = true ->
   err = None \/
   (rpcRequestBatchSize < length txHashes /\ ret = None /\
    exists receipt,
      Some receipt ∈ (Result <$> concat served.2) /\
      Receipt_BlockHash receipt <> blockHash)).
Proof.
  intros Hrun cs served submitted.
  assert (Hsize : 0 < rpcRequestBatchSize) by (unfold rpcRequestBatchSize; lia).
  unfold getBlockReceiptsByHashes in Hrun.
  destruct (Nat.leb_spec (length txHashes) rpcRequestBatchSize) as [Hle|Hgt].
  - injection Hrun as Hget. destruct txHashes as [|txHash txHashes].
    + unfold batchGetTransactionReceipt in Hget. simpl in Hget.
      injection Hget as <- <- <-. subst submitted cs. cbn.
      split; [reflexivity|]. split; [discriminate|]. intros _. left. reflexivity.
    + pose proof (batchGetTransactionReceipt_usable r (txHash :: txHashes)
                    ltac:(discriminate)) as (Hc & Hiff & Hnone).
      rewrite Hget in Hc, Hiff, Hnone. cbn [fst snd] in Hc, Hiff, Hnone.
      subst submitted cs. rewrite chunks_single by (auto; discriminate).
      cbn [fmap list_fmap]. rewrite submit_cons. cbv zeta.
      destruct (usable _ _); cbn [fst snd submit].
      * split; [exact Hc|]. split; [discriminate|].
        intros _. left. apply Hiff. reflexivity.
      * split; [exact Hc|]. split; [|discriminate]. intros _.
        assert (Herr : err <> None).
        { intros ->. destruct Hiff as [Hiff _]. specialize (Hiff eq_refl).
          discriminate. }
        split; [exact Herr|apply Hnone; exact Herr].
  - destruct (receiptChunks _ 0 r txHashes []) as [r1 [out err1]] eqn:Hloop.
    pose proof Hloop as Hsub.
    apply receiptChunks_submit in Hsub as (Hr1 & Hiff & Hnone);
      [|rewrite Nat.mul_0_l, drop_0; apply chunks_length; assumption].
    rewrite Nat.mul_0_l, drop_0 in Hr1, Hiff. fold cs in Hr1, Hiff.
    fold submitted in Hr1, Hiff.
    destruct err1 as [e|].
    + injection Hrun as <- <- <-. split; [exact Hr1|].
      split; [intros _; split; [discriminate|reflexivity]|].
      intros Hok. apply Hiff in Hok. discriminate.
    + apply receiptChunks_success in Hloop as (_ & Hout & _ & _);
        [|rewrite Nat.mul_0_l, drop_0; apply chunks_length; assumption].
      rewrite Nat.mul_0_l, drop_0 in Hout. cbn [app] in Hout. fold cs in Hout.
      fold served in Hout. subst out. cbn [default id] in Hrun.
      destruct (checkBlockHash blockHash (Result <$> concat served.2))
        as [[e|]|] eqn:Hcheck; try discriminate.
      * injection Hrun as <- <- <-. split; [exact Hr1|].
        split.
        { intros Hbad. destruct Hiff as [Hiff _]. specialize (Hiff eq_refl).
          congruence. }
        intros _. right. split; [exact Hgt|]. split; [reflexivity|].
        eapply checkBlockHash_mismatch. exact Hcheck.
      * injection Hrun as <- <- <-. split; [exact Hr1|].
        split.
        { intros Hbad. destruct Hiff as [Hiff _]. specialize (Hiff eq_refl).
          congruence. }
        intros _. left. reflexivity.
Qed.

(** C7: [getBlockReceiptsByHashes] cuts [n] hashes into [ceil (n / 100)]
    consecutive chunks of at most 100 hashes (100, 100 and 50 for 250
    hashes).  It always returns, having issued one batched call for each
    of the first [k] chunks, in order, each with one
    [eth_getTransactionReceipt] element per hash, and nothing else.  The
    chunks are submitted one after the other, up to and including the
    first whose batch does not come back usable: [k] is that number, at
    least one when there is a hash, and the caller is left as these [k]
    calls leave it.  When a batch does not come back usable the operation
    fails and returns no receipts.  When every batch comes back usable,
    all chunks have been submitted, and the operation fails only past 100
    hashes, on a receipt of another block.  When it returns no error, it
    returns the results of the calls concatenated in the order of the
    hashes; no element of a successful run holds an error or a null
    receipt: a null receipt anywhere makes the operation fail. *)
Theorem getBlockReceiptsByHashes_chunked (r : Recorder C)
    (blockHash : common.Hash) (txHashes : list common.Hash) :
  let cs := chunks rpcRequestBatchSize txHashes in
  let served := serve r (receiptBatch <$> cs) in
  let submitted := submit r (receiptBatch <$> cs) in
  length cs = (length txHashes + 99) / 100 /\
  concat cs = txHashes /\
  Forall (fun c => 0 < length c <= 100) cs /\
  (length txHashes = 250 -> length <$> cs = [100; 100; 50]) /\
  exists r' ret err k,
    getBlockReceiptsByHashes r blockHash txHashes = Returns (r', (ret, err)) /\
    k <= length cs /\
    calls r' = calls r ++ (receiptRequest <$> take k cs) /\
    (err = None ->
     k = length cs /\
     r' = served.1 /\
     ret = Some (Result <$> concat served.2) /\
     length (concat served.2) = length txHashes /\
     Forall answered (concat served.2)) /\
    r' = submitted.1 /\
    k = submitted.2.1 /\
    (txHashes <> [] -> 0 < k) /\
    (submitted.2.2 = false -> err <> None /\ ret = None) /\
    (submitted.2.2 = true ->
     k = length cs /\
     (err = None \/
      (rpcRequestBatchSize < length txHashes /\ ret = None /\
       exists receipt,
         Some receipt ∈ (Result <$> concat served.2) /\
         Receipt_BlockHash receipt <> blockHash))).
Proof.
  intros cs served submitted.
  assert (Hsize : 0 < rpcRequestBatchSize) by (unfold rpcRequestBatchSize; lia).
  assert (Hruns : exists r' ret err,
            getBlockReceiptsByHashes r blockHash txHashes = Returns (r', (ret, err))).
  { unfold getBlockReceiptsByHashes.
    destruct (Nat.leb_spec (length txHashes) rpcRequestBatchSize) as [Hle|Hgt].
    - destruct (batchGetTransactionReceipt r txHashes) as [r' [ret err]]. eauto.
    - destruct (receiptChunks _ 0 r txHashes []) as [r1 [out err]] eqn:Hloop.
      destruct err as [e|]; [eauto|].
      apply receiptChunks_success in Hloop as (_ & -> & Hok & _);
        [|rewrite Nat.mul_0_l, drop_0; apply chunks_length; assumption].
      cbn [app default id].
      destruct (checkBlockHash_returns blockHash
                  (Result <$> concat (serve r (receiptBatch <$>
                     chunks rpcRequestBatchSize
                       (drop (0 * rpcRequestBatchSize) txHashes))).2))
        as [res Hres].
      { apply Forall_fmap. eapply Forall_impl; [exact Hok|].
        intros elem [_ Hnn]. exact Hnn. }
      rewrite Hres. destruct res as [e|]; eauto. }
  split.
  { subst cs. rewrite chunks_length by assumption. unfold rpcRequestBatchSize.
    f_equal. lia. }
  split; [apply chunks_concat; assumption|].
  split; [apply (chunks_bounded rpcRequestBatchSize txHashes Hsize)|].
  split; [apply chunks_of_250|].
  destruct Hruns as (r' & ret & err & Hrun).
  destruct (getBlockReceiptsByHashes_submits r r' blockHash txHashes ret err Hrun)
    as (Hr' & Hbad & Hgood).
  fold cs in Hr', Hbad, Hgood. fold served in Hgood. fold submitted in Hr', Hbad, Hgood.
  destruct (Recorder_submit_calls (receiptBatch <$> cs) r)
    as (Hcalls & Hle & Hpos & Hall).
  fold submitted in Hcalls, Hle, Hpos, Hall.
  rewrite length_fmap in Hle, Hall.
  assert (Hne : txHashes <> [] -> cs <> []).
  { intros Htx Hnil. pose proof (chunks_concat rpcRequestBatchSize txHashes Hsize)
      as Hcat. fold cs in Hcat. rewrite Hnil in Hcat. simpl in Hcat. congruence. }
  assert (Hok : err = None -> submitted.2.2 = true).
  { intros ->. destruct (submitted.2.2); [reflexivity|].
    destruct (Hbad eq_refl) as [Hcontra _]. contradiction. }
  exists r', ret, err, submitted.2.1.
  split; [exact Hrun|]. split; [exact Hle|].
  split.
  { rewrite Hr', Hcalls. f_equal. rewrite <- fmap_take, <- list_fmap_compose.
    apply list_fmap_ext. intros i c _. apply batchRequest_receiptBatch. }
  split.
  { intros Herr. split; [apply Hall, Hok, Herr|].
    subst err. eapply getBlockReceiptsByHashes_success. exact Hrun. }
  split; [exact Hr'|]. split; [reflexivity|].
  split.
  { intros Htx. apply Hpos. intros Hnil. apply fmap_nil_inv in Hnil.
    exact (Hne Htx Hnil). }
  split; [exact Hbad|].
  intros Hgoodness. split; [apply Hall; exact Hgoodness|apply Hgood; exact Hgoodness].
Qed.

(** C10: on an empty list of hashes [getBlockReceiptsByHashes] returns an
    empty, non-nil list of receipts and no error, and leaves the caller as
    it was: nothing has been asked through it. *)
Theorem getBlockReceiptsByHashes_empty (r : Recorder C)
    (blockHash : common.Hash) :
  getBlockReceiptsByHashes r blockHash [] = Returns (r, (Some [], None)).
Proof. reflexivity. Qed.

(** Past one hundred hashes, a successful run has checked every receipt
    against the block hash. *)
Lemma checkBlockHash_checked (blockHash : common.Hash) (ret : Receipts) :
  checkBlockHash blockHash ret = Returns None ->
  Forall (fun slot => exists receipt,
            slot = Some receipt /\ Receipt_BlockHash receipt = blockHash) ret.
Proof.
  induction ret as [|[receipt|] ret IH]; simpl; intros Hcheck.
  - constructor.
  - destruct (decide (Receipt_BlockHash receipt <> blockHash)) as [Hne|Heq];
      [discriminate|].
    constructor; [|apply IH; assumption].
    exists receipt. split; [reflexivity|].
    destruct (decide (Receipt_BlockHash receipt = blockHash)); [assumption|contradiction].
  - discriminate.
Qed.

(** X23: past one hundred hashes, every receipt of a successful
    [getBlockReceiptsByHashes] is non-nil and has the block hash asked
    for. *)
Lemma getBlockReceiptsByHashes_large_checked (c c' : C)
    (blockHash : common.Hash) (txHashes : list common.Hash) (ret : Receipts) :
  rpcRequestBatchSize < length txHashes ->
  getBlockReceiptsByHashes c blockHash txHashes = Returns (c', (Some ret, None)) ->
  Forall (fun slot => exists receipt,
            slot = Some receipt /\ Receipt_BlockHash receipt = blockHash) ret.
Proof.
  intros Hlarge. unfold getBlockReceiptsByHashes.
  destruct (Nat.leb_spec (length txHashes) rpcRequestBatchSize) as [Hle|_]; [lia|].
  destruct (receiptChunks _ 0 c txHashes []) as [c1 [out [e|]]]; [discriminate|].
  destruct (checkBlockHash blockHash (default [] out)) as [[e|]|] eqn:Hcheck;
    try discriminate.
  intros [= <- ->]. apply checkBlockHash_checked in Hcheck. exact Hcheck.
Qed.

End recorded_receipts.

(** ** Uncles *)
Section uncles_facts.
Import types rpc client spec.
Context {C : Type} `{rpcCaller C}.
Context `{Unmarshal (option Header)} `{Unmarshal fullResp}
        `{Unmarshal compactResp}.

Lemma batchRequest_uncleBatch (blockHash : common.Hash)
    (hashes : list common.Hash) :
  batchRequest (uncleBatch blockHash hashes) = uncleRequest blockHash hashes.
Proof.
  unfold batchRequest, uncleBatch, uncleRequest. rewrite fmap_imap. reflexivity.
Qed.

(** The validation loop stops with an error at, or before, a bad slot. *)
Lemma checkUncles_bad (got : list (BatchElem (option Header))) :
  forall hashes, bad_uncle got hashes ->
    exists e, checkUncles got hashes = Some e.
Proof.
  induction got as [|elem got IH]; intros hashes (idx & bad & hash & Hgot & Hhash & Hbad).
  - discriminate.
  - destruct hashes as [|hash0 hashes]; [discriminate|].
    cbn [checkUncles].
    destruct (Error elem) as [e|]; [eauto|].
    destruct (Result elem) as [uncle|] eqn:Hres; [|eauto].
    destruct (decide (Header_Hash uncle <> hash0)) as [Hne|Heq]; [eauto|].
    destruct idx as [|idx].
    + simpl in Hgot, Hhash. injection Hgot as <-. injection Hhash as <-.
      rewrite Hres in Hbad. contradiction.
    + apply IH. exists idx, bad, hash. auto.
Qed.

Lemma Recorder_Call_calls {T : Type} `{Unmarshal T} (r : Recorder C)
    (result : T) (method : string) (args : list any) :
  calls (Call r result method args).1 = calls r ++ [ReqCall method args].
Proof.
  simpl. destruct (Call (inner r) result method args) as [c out]. reflexivity.
Qed.

(** C6: in a full-path assembly whose envelope lists [n >= 1] uncle
    hashes, the uncles are asked for in exactly one batched call, after the
    block request, with exactly [n] elements, element [idx] calling
    [eth_getUncleByBlockHashAndIndex] with the block's hash and [idx]; the
    assembly can only end in the state that call leaves; and when a slot
    of the returned batch holds no header, or a header whose hash is not
    the one asked for at that position, the assembly returns an error and
    no block. *)
Theorem getBlock_uncles_one_batch (r r1 : Recorder C) (method : string)
    (numOrHash : any) (raw : RawMessage) (hd : Header) (resp : fullResp) :
  Call r (EmptyString : RawMessage) method [numOrHash; VBool true]
    = (r1, (raw, None)) ->
  raw <> EmptyString ->
  json_Unmarshal raw (None : option Header) = (Some hd, None) ->
  json_Unmarshal raw {| fullResp_Uncles := []; fullResp_Transactions := [];
                        fullResp_Withdrawals := [] |} = (resp, None) ->
  fullResp_Uncles resp <> [] ->
  let hashes := fullResp_Uncles resp in
  let batch := uncleBatch (Header_Hash hd) hashes in
  let reply := BatchCall r1 batch in
  length batch = length hashes /\
  calls reply.1 = calls r ++ [ReqCall method [numOrHash; VBool true];
                              uncleRequest (Header_Hash hd) hashes] /\
  (forall r' res,
     getBlock r method numOrHash true = Returns (r', res) -> r' = reply.1) /\
  (bad_uncle reply.2.1 hashes ->
   exists e, getBlock r method numOrHash true = Returns (reply.1, (None, Some e))).
Proof.
  intros Hcall Hraw Hhd Hresp Hne hashes batch reply.
  assert (Hlen : (String.length raw =? 0) = false).
  { destruct raw; [contradiction|reflexivity]. }
  assert (Hzero : (length hashes =? 0) = false).
  { subst hashes. destruct (fullResp_Uncles resp); [contradiction|reflexivity]. }
  split; [apply length_imap|].
  split.
  { subst reply. rewrite Recorder_BatchCall_calls.
    pose proof (Recorder_Call_calls r (EmptyString : RawMessage) method
                  [numOrHash; VBool true]) as Hcalls.
    rewrite Hcall in Hcalls. cbn [fst] in Hcalls. rewrite Hcalls.
    subst batch. rewrite batchRequest_uncleBatch, <- app_assoc. reflexivity. }
  assert (Hrun : getBlock r method numOrHash true =
            match reply.2.2 with
            | Some e => Returns (reply.1, (None, Some e))
            | None =>
                match checkUncles reply.2.1 hashes with
                | Some e => Returns (reply.1, (None, Some e))
                | None =>
                    match WithBody (NewBlockWithHeader (Some hd))
                            (fullResp_Transactions resp) (Result <$> reply.2.1) with
                    | Panics => Panics
                    | Returns b =>
                        Returns (reply.1,
                                 (Some (WithWithdrawals b (fullResp_Withdrawals resp)),
                                  None))
                    end
                end
            end).
  { unfold getBlock. rewrite Hcall, Hlen, Hhd, Hresp.
    unfold getBlockUncles. fold hashes. rewrite Hzero. fold batch. fold reply.
    destruct reply as [r2 [got [e|]]]; cbn [fst snd]; [reflexivity|].
    destruct (checkUncles got hashes); reflexivity. }
  split.
  - intros r' res. rewrite Hrun.
    destruct reply.2.2; [congruence|].
    destruct (checkUncles _ _); [congruence|].
    destruct (WithBody _ _ _); [congruence|discriminate].
  - intros Hbad. rewrite Hrun.
    destruct reply.2.2 as [e|]; [eauto|].
    apply checkUncles_bad in Hbad as [e ->]. eauto.
Qed.

End uncles_facts.

(** ** The connection pool *)
Section pool_facts.
Import types rpc client spec.
Context {E : Type} `{rpcCaller E}.
Variable others : nat -> list Z -> list Z.

Lemma steps_app (p p' : RpcConnectionPool E) (evs : list Event) :
  trace p' = trace p ++ evs -> steps p p' = evs.
Proof. intros Htrace. unfold steps. rewrite Htrace. apply drop_app_length. Qed.

Lemma quiet_no_cooldown (e : error) :
  quiet e <->
  bool_decide (e <> NotFound) && bool_decide (e <> ErrNoResult) = false.
Proof.
  unfold quiet. rewrite andb_false_iff, !bool_decide_eq_false.
  split; intros [Hq|Hq].
  - left. intros Hne. exact (Hne Hq).
  - right. intros Hne. exact (Hne Hq).
  - left. apply dec_stable. exact Hq.
  - right. apply dec_stable. exact Hq.
Qed.

(** An event about slot [i] is not among events about later slots. *)
Lemma not_in_later (evs : list Event) (idx : nat) (ev : Event) :
  Forall (fun ev => S idx <= slot ev) evs -> slot ev <= idx -> ev ∉ evs.
Proof.
  intros Hlater Hslot Hin. rewrite Forall_forall in Hlater.
  apply Hlater in Hin. lia.
Qed.

(** What the loop of [Call] adds to the trace, and what it returns. *)
Lemma Call_range_steps {T : Type} `{Unmarshal T} (method : string)
    (args : list any) (todo : list E) :
  forall idx p (result : T) err0 p' out err,
    Call_range others idx todo p result method args err0 = (p', (out, err)) ->
    exists evs,
      trace p' = trace p ++ evs /\
      Forall (fun ev => idx <= slot ev) evs /\
      ((forall j, Claimed j ∉ evs) -> err = err0) /\
      (forall i e, Replied i (Some e) ∈ evs -> quiet e ->
         (CoolingDown i ∉ evs) /\
         ((forall j, i < j -> Claimed j ∉ evs) -> err = Some e)) /\
      (forall i, Claimed i ∈ evs ->
         Released i ∈ evs \/ CoolingDown i ∈ evs \/
         exists e, quiet e /\ Replied i (Some e) ∈ evs).
Proof.
  induction todo as [|client todo IH]; intros idx p result err0 p' out err Hrun.
  - injection Hrun as <- <- <-. exists []. rewrite app_nil_r.
    repeat split; try constructor; intros; exfalso; eapply not_elem_of_nil; eauto.
  - cbn [Call_range] in Hrun.
    destruct (CompareAndSwapInt64 _ idx 0 1) as [st [|]]; cbn [negb] in Hrun.
    + destruct (Call client result method args) as [client' [result' [e|]]].
      * set (cd := if bool_decide (e <> NotFound) && bool_decide (e <> ErrNoResult)
                   then [CoolingDown idx] else []).
        apply IH in Hrun as (evs & Htrace & Hslots & Hnone & Hquiet & Hclaimed).
        exists (Claimed idx :: Replied idx (Some e) :: cd ++ evs).
        assert (Hcd : Forall (fun ev => idx <= slot ev) cd).
        { subst cd. destruct (_ && _); repeat constructor. }
        assert (Hlater : Forall (fun ev => S idx <= slot ev) evs) by exact Hslots.
        split.
        { rewrite Htrace. subst cd. destruct (_ && _); simpl;
            rewrite <- !app_assoc; reflexivity. }
        split.
        { repeat constructor; simpl; try lia. apply Forall_app. split; [exact Hcd|].
          eapply Forall_impl; [exact Hslots|]. simpl. intros; lia. }
        split.
        { intros Hno. exfalso. apply (Hno idx). left. }
        split.
        { intros i e' Hin Hq.
          assert (Hcase : (i = idx /\ e' = e) \/ Replied i (Some e') ∈ evs).
          { apply elem_of_cons in Hin as [Heq|Hin]; [discriminate|].
            apply elem_of_cons in Hin as [Heq|Hin]; [left; split; congruence|].
            apply elem_of_app in Hin as [Hin|Hin]; [|right; exact Hin].
            subst cd. destruct (_ && _); [|inversion Hin].
            apply list_elem_of_singleton in Hin. discriminate. }
          destruct Hcase as [[-> ->]|Hin'].
          - apply quiet_no_cooldown in Hq. subst cd. rewrite Hq. simpl. split.
            + intros Hc. apply elem_of_cons in Hc as [Heq|Hc]; [discriminate|].
              apply elem_of_cons in Hc as [Heq|Hc]; [discriminate|].
              revert Hc. apply not_in_later with (idx := idx); [exact Hlater|simpl; lia].
            + intros Hno. rewrite Hnone; [reflexivity|].
              intros j Hj. assert (idx < j).
              { rewrite Forall_forall in Hlater. apply Hlater in Hj. simpl in Hj. lia. }
              apply (Hno j); [assumption|]. right. right. exact Hj.
          - assert (Hi : idx < i).
            { rewrite Forall_forall in Hlater. apply Hlater in Hin'. simpl in Hin'. lia. }
            destruct (Hquiet i e' Hin' Hq) as [Hncd Hlast]. split.
            + intros Hc. apply elem_of_cons in Hc as [Heq|Hc]; [discriminate|].
              apply elem_of_cons in Hc as [Heq|Hc]; [discriminate|].
              apply elem_of_app in Hc as [Hc|Hc]; [|contradiction].
              subst cd. destruct (_ && _); [|inversion Hc].
              apply list_elem_of_singleton in Hc. injection Hc as ->. lia.
            + intros Hno. apply Hlast. intros j Hj Hclaim.
              apply (Hno j Hj). right. right. apply elem_of_app. right. exact Hclaim. }
        { intros i Hin. apply elem_of_cons in Hin as [Heq|Hin].
          - injection Heq as ->. subst cd.
            destruct (bool_decide (e <> NotFound) && bool_decide (e <> ErrNoResult)) eqn:Hq.
            + right. left. right. right. left.
            + right. right. exists e. split; [apply quiet_no_cooldown; exact Hq|].
              right. left.
          - apply elem_of_cons in Hin as [Heq|Hin]; [discriminate|].
            apply elem_of_app in Hin as [Hin|Hin].
            { subst cd. destruct (_ && _); [|inversion Hin].
              apply list_elem_of_singleton in Hin. discriminate. }
            destruct (Hclaimed i Hin) as [Hr|[Hc|(e' & Hq & Hr)]].
            + left. right. right. apply elem_of_app. right. exact Hr.
            + right. left. right. right. apply elem_of_app. right. exact Hc.
            + right. right. exists e'. split; [exact Hq|].
              right. right. apply elem_of_app. right. exact Hr. }
      * injection Hrun as <- <- <-.
        exists [Claimed idx; Replied idx None; Released idx].
        split; [simpl; rewrite <- !app_assoc; reflexivity|].
        split; [repeat constructor|].
        split; [intros Hno; exfalso; apply (Hno idx); left|].
        split.
        { intros i e Hin _. exfalso.
          repeat (apply elem_of_cons in Hin as [Heq|Hin]; [discriminate|]).
          inversion Hin. }
        { intros i Hin. apply elem_of_cons in Hin as [Heq|Hin].
          - injection Heq as ->. left. right. right. left.
          - exfalso.
            repeat (apply elem_of_cons in Hin as [Heq|Hin]; [discriminate|]).
            inversion Hin. }
    + apply IH in Hrun as (evs & Htrace & Hslots & Hnone & Hquiet & Hclaimed).
      exists evs. split; [exact Htrace|].
      split; [eapply Forall_impl; [exact Hslots|]; simpl; intros; lia|].
      split; [exact Hnone|]. split; [exact Hquiet|exact Hclaimed].
Qed.

(** A cooldown goroutine whose first timer fires before [quitCh] closes,
    and whose reconnection succeeds, sets the slot free and returns. *)
Lemma cooldown_frees (connect : E -> E * option error) (wakeups : list Wakeup)
    (idx : nat) (client client' : E) (p : RpcConnectionPool E) :
  connect client = (client', None) ->
  idx < length (status p) ->
  let '(p', returned) := cooldown connect (Timer :: wakeups) idx client p in
  status p' !! idx = Some 0%Z /\ returned = true.
Proof.
  intros Hconnect Hidx. cbn [cooldown]. rewrite Hconnect.
  split; [|reflexivity].
  cbn [status with_status with_client StoreInt64].
  apply list_lookup_insert_eq. exact Hidx.
Qed.

(** What the loop of [BatchCall] adds to the trace, and what it returns. *)
Lemma BatchCall_range_steps {T : Type} `{Unmarshal T} (todo : list E) :
  forall idx p (batch : list (BatchElem T)) err0 allBusy p' batch' err,
    BatchCall_range others idx todo p batch err0 allBusy = (p', (batch', err)) ->
    exists evs,
      trace p' = trace p ++ evs /\
      Forall (fun ev => idx <= slot ev) evs /\
      ((forall j, Claimed j ∉ evs) ->
       err = if allBusy then Some ErrAllBusy else err0) /\
      (forall i, Claimed i ∈ evs -> Released i ∈ evs \/ CoolingDown i ∈ evs).
Proof.
  induction todo as [|client todo IH];
    intros idx p batch err0 allBusy p' batch' err Hrun.
  - exists []. rewrite app_nil_r. cbn [BatchCall_range] in Hrun.
    destruct allBusy; injection Hrun as <- <- <-;
      (repeat split; try constructor; intros; exfalso; eapply not_elem_of_nil; eauto).
  - cbn [BatchCall_range] in Hrun.
    destruct (CompareAndSwapInt64 _ idx 0 1) as [st [|]]; cbn [negb] in Hrun.
    + destruct (BatchCall client batch) as [client' [got err1]].
      destruct (match err1 with None => getBatchErr got | Some e => Some e end)
        as [e|].
      * apply IH in Hrun as (evs & Htrace & Hslots & Hnone & Hclaimed).
        exists (Claimed idx :: Replied idx (Some e) :: CoolingDown idx :: evs).
        split; [rewrite Htrace; simpl; rewrite <- !app_assoc; reflexivity|].
        split.
        { repeat constructor; simpl; try lia.
          eapply Forall_impl; [exact Hslots|]. simpl. intros; lia. }
        split; [intros Hno; exfalso; apply (Hno idx); left|].
        intros i Hin. apply elem_of_cons in Hin as [Heq|Hin].
        { injection Heq as ->. right. right. right. left. }
        apply elem_of_cons in Hin as [Heq|Hin]; [discriminate|].
        apply elem_of_cons in Hin as [Heq|Hin]; [discriminate|].
        destruct (Hclaimed i Hin) as [Hr|Hc]; [left|right]; do 3 right; assumption.
      * injection Hrun as <- <- <-.
        exists [Claimed idx; Replied idx None; Released idx].
        split; [simpl; rewrite <- !app_assoc; reflexivity|].
        split; [repeat constructor|].
        split; [intros Hno; exfalso; apply (Hno idx); left|].
        intros i Hin. apply elem_of_cons in Hin as [Heq|Hin].
        { injection Heq as ->. left. right. right. left. }
        exfalso. repeat (apply elem_of_cons in Hin as [Heq|Hin]; [discriminate|]).
        inversion Hin.
    + apply IH in Hrun as (evs & Htrace & Hslots & Hnone & Hclaimed).
      exists evs. split; [exact Htrace|].
      split; [eapply Forall_impl; [exact Hslots|]; simpl; intros; lia|].
      split; [exact Hnone|exact Hclaimed].
Qed.

(** When no slot can be claimed, [BatchCall] reports that all clients are
    busy. *)
Lemma Pool_BatchCall_all_busy {T : Type} `{Unmarshal T}
    (p p' : RpcConnectionPool E) (batch batch' : list (BatchElem T))
    (err : option error) :
  Pool_BatchCall others p batch = (p', (batch', err)) ->
  (forall j, Claimed j ∉ steps p p') ->
  err = Some ErrAllBusy.
Proof.
  intros Hrun Hbusy.
  apply BatchCall_range_steps in Hrun as (evs & Htrace & _ & Hnone & _).
  apply steps_app in Htrace. rewrite Htrace in Hbusy. apply Hnone, Hbusy.
Qed.

(** When no slot can be claimed, [Call] returns no error at all. *)
Lemma Pool_Call_all_busy {T : Type} `{Unmarshal T}
    (p p' : RpcConnectionPool E) (result out : T) (method : string)
    (args : list any) (err : option error) :
  Pool_Call others p result method args = (p', (out, err)) ->
  (forall j, Claimed j ∉ steps p p') ->
  err = None.
Proof.
  intros Hrun Hbusy.
  apply Call_range_steps in Hrun as (evs & Htrace & _ & Hnone & _).
  apply steps_app in Htrace. rewrite Htrace in Hbusy. apply Hnone, Hbusy.
Qed.

Lemma CompareAndSwapInt64_spec (mem : list Z) (idx : nat) (old new : Z) :
  match CompareAndSwapInt64 mem idx old new with
  | (mem', true) => mem !! idx = Some old /\ mem' = <[idx := new]> mem
  | (mem', false) => mem' = mem
  end.
Proof.
  unfold CompareAndSwapInt64. destruct (mem !! idx) as [v|]; [|reflexivity].
  destruct (Z.eqb_spec v old) as [->|]; auto.
Qed.

(** The loop of [Call] reaches every slot still to come: a slot that is
    free, and that the other goroutines leave alone, is claimed and its
    client asked, unless the loop has returned before it, after a client
    answered without error. *)
Lemma Call_range_reaches {T : Type} `{Unmarshal T} (method : string)
    (args : list any) (todo : list E) :
  forall idx p (result : T) err0 p' out err j,
    Call_range others idx todo p result method args err0 = (p', (out, err)) ->
    idx <= j < idx + length todo ->
    (forall i st, others i st !! j = st !! j) ->
    status p !! j = Some 0%Z ->
    exists evs,
      trace p' = trace p ++ evs /\
      ((Claimed j ∈ evs /\ exists r, Replied j r ∈ evs) \/
       exists k, idx <= k < j /\ Released k ∈ evs).
Proof.
  induction todo as [|client todo IH];
    intros idx p result err0 p' out err j Hrun Hrange Hothers Hfree;
    [simpl in Hrange; lia|].
  cbn [Call_range] in Hrun. cbn [length] in Hrange.
  assert (Hj : others idx (status p) !! j = Some 0%Z)
    by (rewrite Hothers; exact Hfree).
  pose proof (CompareAndSwapInt64_spec
                (status (with_status p (others idx (status p)))) idx 0 1) as Hcas.
  destruct (CompareAndSwapInt64 _ idx 0 1) as [st [|]] eqn:Hswap;
    cbn [negb] in Hrun.
  - destruct Hcas as [_ ->]. cbn [status with_status] in *.
    destruct (Call client result method args) as [client' [result' [e|]]].
    + set (cd := if bool_decide (e <> NotFound) && bool_decide (e <> ErrNoResult)
                 then [CoolingDown idx] else []).
      destruct (decide (j = idx)) as [->|Hne].
      * apply Call_range_steps in Hrun as (evs & Htrace & _).
        exists (Claimed idx :: Replied idx (Some e) :: cd ++ evs). split.
        { rewrite Htrace. subst cd. destruct (_ && _); simpl;
            rewrite <- !app_assoc; reflexivity. }
        left. split; [left|]. exists (Some e). right. left.
      * apply IH with (j := j) in Hrun as (evs & Htrace & Hcase);
          [|lia|exact Hothers|].
        2:{ destruct (_ && _); simpl;
              rewrite list_lookup_insert_ne by congruence; exact Hj. }
        exists (Claimed idx :: Replied idx (Some e) :: cd ++ evs). split.
        { rewrite Htrace. subst cd. destruct (_ && _); simpl;
            rewrite <- !app_assoc; reflexivity. }
        destruct Hcase as [[Hclaim [r Hrep]]|(k & Hk & Hrel)].
        { left. split.
          - right. right. apply elem_of_app. right. exact Hclaim.
          - exists r. right. right. apply elem_of_app. right. exact Hrep. }
        { right. exists k. split; [lia|].
          right. right. apply elem_of_app. right. exact Hrel. }
    + injection Hrun as <- <- <-.
      exists [Claimed idx; Replied idx None; Released idx].
      split; [simpl; rewrite <- !app_assoc; reflexivity|].
      destruct (decide (j = idx)) as [->|Hne].
      * left. split; [left|]. exists None. right. left.
      * right. exists idx. split; [lia|]. right. right. left.
  - destruct (decide (j = idx)) as [->|Hne].
    + exfalso. unfold CompareAndSwapInt64 in Hswap.
      cbn [status with_status] in Hswap. rewrite Hj in Hswap.
      simpl in Hswap. discriminate.
    + subst st. apply IH with (j := j) in Hrun as (evs & Htrace & Hcase);
        [|lia|exact Hothers|exact Hj].
      exists evs. split; [exact Htrace|].
      destruct Hcase as [Hclaim|(k & Hk & Hrel)]; [left; exact Hclaim|].
      right. exists k. split; [lia|exact Hrel].
Qed.

(** After a client has answered with an error, the loop of [Call] goes on
    with the slots after it. *)
Lemma Call_range_continues {T : Type} `{Unmarshal T} (method : string)
    (args : list any) (todo : list E) :
  forall idx p (result : T) err0 p' out err,
    Call_range others idx todo p result method args err0 = (p', (out, err)) ->
    exists evs,
      trace p' = trace p ++ evs /\
      forall i e j,
        Replied i (Some e) ∈ evs ->
        i < j < idx + length todo ->
        (forall i st, others i st !! j = st !! j) ->
        status p !! j = Some 0%Z ->
        (Claimed j ∈ evs /\ exists r, Replied j r ∈ evs) \/
        exists k, i < k < j /\ Released k ∈ evs.
Proof.
  induction todo as [|client todo IH]; intros idx p result err0 p' out err Hrun.
  - injection Hrun as <- <- <-. exists []. rewrite app_nil_r.
    split; [reflexivity|]. intros i e j Hin. inversion Hin.
  - cbn [Call_range] in Hrun.
    pose proof (CompareAndSwapInt64_spec
                  (status (with_status p (others idx (status p)))) idx 0 1) as Hcas.
    destruct (CompareAndSwapInt64 _ idx 0 1) as [st [|]]; cbn [negb] in Hrun.
    + destruct Hcas as [_ ->]. cbn [status with_status] in *.
      destruct (Call client result method args) as [client' [result' [e0|]]].
      * set (cd := if bool_decide (e0 <> NotFound) && bool_decide (e0 <> ErrNoResult)
                   then [CoolingDown idx] else []).
        pose proof Hrun as Hslots. pose proof Hrun as Hreach.
        apply IH in Hrun as (evs & Htrace & Hcont).
        apply Call_range_steps in Hslots as (evs1 & Htrace1 & Hslots & _).
        assert (evs1 = evs) as ->.
        { rewrite Htrace in Htrace1. apply (inj _) in Htrace1. congruence. }
        exists (Claimed idx :: Replied idx (Some e0) :: cd ++ evs). split.
        { rewrite Htrace. subst cd. destruct (_ && _); simpl;
            rewrite <- !app_assoc; reflexivity. }
        intros i e j Hin Hrange Hothers Hfree. cbn [length] in Hrange.
        assert (Hj : forall q : RpcConnectionPool E,
                  status q = <[idx := 1%Z]> (others idx (status p)) ->
                  j <> idx -> status q !! j = Some 0%Z).
        { intros q -> Hne. rewrite list_lookup_insert_ne by congruence.
          rewrite Hothers. exact Hfree. }
        assert (Hcase : (i = idx /\ e = e0) \/ Replied i (Some e) ∈ evs).
        { apply elem_of_cons in Hin as [Heq|Hin]; [discriminate|].
          apply elem_of_cons in Hin as [Heq|Hin]; [left; split; congruence|].
          apply elem_of_app in Hin as [Hin|Hin]; [|right; exact Hin].
          subst cd. destruct (_ && _); [|inversion Hin].
          apply list_elem_of_singleton in Hin. discriminate. }
        assert (Hlift : (Claimed j ∈ evs /\ exists r, Replied j r ∈ evs) \/
                        (exists k, i < k < j /\ Released k ∈ evs) ->
                  (Claimed j ∈ Claimed idx :: Replied idx (Some e0) :: cd ++ evs /\
                   exists r, Replied j r ∈
                               Claimed idx :: Replied idx (Some e0) :: cd ++ evs) \/
                  (exists k, i < k < j /\
                     Released k ∈ Claimed idx :: Replied idx (Some e0) :: cd ++ evs)).
        { intros [[Hclaim [r Hrep]]|(k & Hk & Hrel)].
          - left. split.
            + right. right. apply elem_of_app. right. exact Hclaim.
            + exists r. right. right. apply elem_of_app. right. exact Hrep.
          - right. exists k. split; [exact Hk|].
            right. right. apply elem_of_app. right. exact Hrel. }
        apply Hlift. destruct Hcase as [[-> ->]|Hin'].
        -- assert (Hrange' : S idx <= j < S idx + length todo) by lia.
           pose proof (Call_range_reaches method args todo _ _ _ _ _ _ _ j
                         Hreach Hrange' Hothers) as Hreached.
           destruct Hreached as (evs2 & Htrace2 & Hcase).
           { apply Hj; [destruct (_ && _); reflexivity|lia]. }
           assert (evs2 = evs) as ->.
           { rewrite Htrace in Htrace2. apply (inj _) in Htrace2. congruence. }
           destruct Hcase as [Hclaim|(k & Hk & Hrel)]; [left; exact Hclaim|].
           right. exists k. split; [lia|exact Hrel].
        -- assert (Hi : S idx <= i).
           { rewrite Forall_forall in Hslots. apply Hslots in Hin'. exact Hin'. }
           apply (Hcont i e j Hin'); [lia|exact Hothers|].
           apply Hj; [destruct (_ && _); reflexivity|lia].
      * injection Hrun as <- <- <-.
        exists [Claimed idx; Replied idx None; Released idx].
        split; [simpl; rewrite <- !app_assoc; reflexivity|].
        intros i e j Hin. exfalso.
        repeat (apply elem_of_cons in Hin as [Heq|Hin]; [discriminate|]).
        inversion Hin.
    + subst st. apply IH in Hrun as (evs & Htrace & Hcont).
      exists evs. split; [exact Htrace|].
      intros i e j Hin Hrange Hothers Hfree. cbn [length] in Hrange.
      apply (Hcont i e j Hin); [lia|exact Hothers|].
      cbn [status with_status]. rewrite Hothers. exact Hfree.
Qed.

(** C4, as the code has it: when a client claimed by [Call] answers
    [NotFound] or [ErrNoResult], no cooldown is started for its slot, and
    the scan goes on with the following slots: every later slot of the pool
    that is free, and that the other goroutines leave alone, is claimed and
    its client asked, up to the first client that answers without error.
    That error is what [Call] returns when no later slot is claimed. *)
Theorem Pool_Call_quiet_error {T : Type} `{Unmarshal T}
    (p p' : RpcConnectionPool E) (result out : T) (method : string)
    (args : list any) (err : option error) (idx : nat) (e : error) :
  Pool_Call others p result method args = (p', (out, err)) ->
  Replied idx (Some e) ∈ steps p p' ->
  quiet e ->
  (CoolingDown idx ∉ steps p p') /\
  (forall j, idx < j < Size p ->
     (forall i st, others i st !! j = st !! j) ->
     status p !! j = Some 0%Z ->
     (Claimed j ∈ steps p p' /\ exists r, Replied j r ∈ steps p p') \/
     exists k, idx < k < j /\ Released k ∈ steps p p') /\
  ((forall j, idx < j -> Claimed j ∉ steps p p') -> err = Some e).
Proof.
  intros Hrun Hin Hq. pose proof Hrun as Hgoes.
  apply Call_range_steps in Hrun as (evs & Htrace & _ & _ & Hquiet & _).
  apply Call_range_continues in Hgoes as (evs' & Htrace' & Hcont).
  assert (evs' = evs) as ->.
  { rewrite Htrace in Htrace'. apply (inj _) in Htrace'. congruence. }
  apply steps_app in Htrace. rewrite Htrace in Hin |- *.
  destruct (Hquiet idx e Hin Hq) as [Hcool Hlast].
  split; [exact Hcool|]. split; [|exact Hlast].
  intros j Hrange Hothers Hfree. apply (Hcont idx e j Hin); assumption.
Qed.

(** X25: every slot [Call] claims is released, handed to a cooldown, or
    left claimed after a [NotFound] or [ErrNoResult] answer. *)
Lemma Pool_Call_claims {T : Type} `{Unmarshal T}
    (p p' : RpcConnectionPool E) (result out : T) (method : string)
    (args : list any) (err : option error) (idx : nat) :
  Pool_Call others p result method args = (p', (out, err)) ->
  Claimed idx ∈ steps p p' ->
  Released idx ∈ steps p p' \/ CoolingDown idx ∈ steps p p' \/
  exists e, quiet e /\ Replied idx (Some e) ∈ steps p p'.
Proof.
  intros Hrun Hin.
  apply Call_range_steps in Hrun as (evs & Htrace & _ & _ & _ & Hclaimed).
  apply steps_app in Htrace. rewrite Htrace in Hin |- *.
  exact (Hclaimed idx Hin).
Qed.

(** X26: every slot [BatchCall] claims is released or handed to a
    cooldown. *)
Lemma Pool_BatchCall_claims {T : Type} `{Unmarshal T}
    (p p' : RpcConnectionPool E) (batch batch' : list (BatchElem T))
    (err : option error) (idx : nat) :
  Pool_BatchCall others p batch = (p', (batch', err)) ->
  Claimed idx ∈ steps p p' ->
  Released idx ∈ steps p p' \/ CoolingDown idx ∈ steps p p'.
Proof.
  intros Hrun Hin.
  apply BatchCall_range_steps in Hrun as (evs & Htrace & _ & _ & Hclaimed).
  apply steps_app in Htrace. rewrite Htrace in Hin |- *.
  exact (Hclaimed idx Hin).
Qed.

End pool_facts.

(** ** Sorting by a key *)
Section sort_facts.
Context {A : Type} (key : A -> Z).
Let less (a b : A) : bool := (key a <? key b)%Z.
Let ascending (a b : A) : Prop := (key a <= key b)%Z.
Let descending (a b : A) : Prop := (key b <= key a)%Z.

Lemma sift_Permutation (x : A) (sorted : list A) :
  sort.sift less x sorted ≡ₚ x :: sorted.
Proof.
  induction sorted as [|y sorted IH]; [reflexivity|].
  simpl. destruct (less x y); [|reflexivity].
  rewrite IH. apply Permutation_swap.
Qed.

Lemma sift_sorted (x : A) (sorted : list A) :
  StronglySorted descending sorted ->
  StronglySorted descending (sort.sift less x sorted).
Proof.
  induction sorted as [|y sorted IH]; intros Hsorted.
  - repeat constructor.
  - apply StronglySorted_cons in Hsorted as [Hy Hsorted].
    simpl. unfold less at 1. destruct (Z.ltb_spec (key x) (key y)) as [Hlt|Hge].
    + apply StronglySorted_cons. split; [|apply IH; assumption].
      rewrite sift_Permutation. constructor; [unfold descending; lia|assumption].
    + apply StronglySorted_cons. split.
      * constructor; [exact Hge|].
        eapply Forall_impl; [exact Hy|]. unfold descending. intros; lia.
      * apply StronglySorted_cons. split; assumption.
Qed.

Lemma foldl_sift (l : list A) :
  forall sorted, StronglySorted descending sorted ->
    let sorted' := foldl (fun sorted x => sort.sift less x sorted) sorted l in
    StronglySorted descending sorted' /\ sorted' ≡ₚ l ++ sorted.
Proof.
  induction l as [|x l IH]; intros sorted Hsorted; simpl.
  - split; [assumption|reflexivity].
  - destruct (IH (sort.sift less x sorted) (sift_sorted x sorted Hsorted))
      as [Hs Hp].
    split; [exact Hs|].
    rewrite Hp, sift_Permutation. symmetry. apply Permutation_middle.
Qed.

Lemma StronglySorted_reverse (l : list A) :
  StronglySorted descending l -> StronglySorted ascending (reverse l).
Proof.
  induction l as [|x l IH]; intros Hsorted; [constructor|].
  apply StronglySorted_cons in Hsorted as [Hx Hsorted].
  rewrite reverse_cons. apply StronglySorted_app_2.
  - intros a b Ha Hb. apply list_elem_of_singleton in Hb as ->.
    rewrite elem_of_reverse in Ha. rewrite Forall_forall in Hx. apply Hx, Ha.
  - apply IH, Hsorted.
  - repeat constructor.
Qed.

(** [sort.Slice] by a key returns a permutation in ascending key order. *)
Lemma Slice_sorted (l : list A) :
  StronglySorted ascending (sort.Slice less l) /\ sort.Slice less l ≡ₚ l.
Proof.
  unfold sort.Slice.
  destruct (foldl_sift l [] ltac:(constructor)) as [Hs Hp]. split.
  - apply StronglySorted_reverse, Hs.
  - rewrite reverse_Permutation, Hp, app_nil_r. reflexivity.
Qed.

(** With distinct keys the order is strict. *)
Lemma StronglySorted_strict (l : list A) :
  StronglySorted ascending l -> NoDup (key <$> l) ->
  StronglySorted (fun a b => (key a < key b)%Z) l.
Proof.
  induction l as [|x l IH]; intros Hsorted Hnodup; [constructor|].
  apply StronglySorted_cons in Hsorted as [Hx Hsorted].
  rewrite fmap_cons in Hnodup. apply NoDup_cons in Hnodup as [Hnotin Hnodup].
  apply StronglySorted_cons. split; [|apply IH; assumption].
  rewrite Forall_forall in Hx |- *. intros b Hb.
  specialize (Hx b Hb). unfold ascending in Hx.
  assert (key b <> key x).
  { intros Heq. apply Hnotin. rewrite <- Heq. apply list_elem_of_fmap_2, Hb. }
  lia.
Qed.

End sort_facts.

(** ** Construction of the pool *)
Section setup_facts.
Import types rpc client spec.
Context `{Unmarshal string}.
Variable rpc_DialContext : string -> error + rpc.Client.
Variable time_Since : string -> Z.

Abbreviation DialContext := (client.DialContext rpc_DialContext time_Since).
Abbreviation dialInto := (client.dialInto rpc_DialContext time_Since).

(** [DialContext] returns a client or an error, never both. *)
Lemma DialContext_cases (url : string) :
  (exists ec, DialContext url = (Some ec, None)) \/
  (exists e, DialContext url = (None, Some e)).
Proof.
  unfold client.DialContext.
  destruct (connect _ _ _) as [ec [e|]]; eauto.
Qed.

Lemma dialInto_spec (clients : list ETHClient) (url : string) :
  dialInto clients url = clients ++ option_list (DialContext url).1.
Proof.
  unfold client.dialInto.
  destruct (DialContext_cases url) as [[ec ->]|[e ->]]; simpl.
  - reflexivity.
  - rewrite app_nil_r. reflexivity.
Qed.

(** The goroutines leave the clients that connected, in the order in which
    they finished. *)
Lemma dial_loop (urls : list string) (finished : list nat) :
  forall clients,
    foldl (fun clients i =>
             match urls !! i with
             | Some url => dialInto clients url
             | None => clients
             end) clients finished
    = clients ++ omap (fun i => urls !! i ≫= fun url => (DialContext url).1) finished.
Proof.
  induction finished as [|i finished IH]; intros clients; simpl.
  - rewrite app_nil_r. reflexivity.
  - rewrite IH. destruct (urls !! i) as [url|]; simpl; [|reflexivity].
    rewrite dialInto_spec, <- app_assoc. f_equal.
    destruct (DialContext url).1; reflexivity.
Qed.

Lemma omap_lookup_seq {B : Type} (f : string -> option B) (urls : list string) :
  forall done_ : list string,
    omap (fun i => (done_ ++ urls) !! i ≫= f) (seq (length done_) (length urls))
    = omap f urls.
Proof.
  induction urls as [|url urls IH]; intros done_; [reflexivity|].
  cbn [length seq omap list_omap]. rewrite list_lookup_middle by reflexivity.
  cbn [mbind option_bind].
  specialize (IH (done_ ++ [url])).
  rewrite <- app_assoc, length_app in IH. simpl in IH.
  rewrite Nat.add_1_r in IH. rewrite IH. reflexivity.
Qed.

Lemma dial_loop_Permutation (urls : list string) (finished : list nat) :
  finished ≡ₚ seq 0 (length urls) ->
  omap (fun i => urls !! i ≫= fun url => (DialContext url).1) finished
    ≡ₚ connected rpc_DialContext time_Since urls.
Proof.
  intros ->. unfold connected.
  rewrite <- (omap_lookup_seq (fun url => (DialContext url).1) urls []).
  reflexivity.
Qed.

(** C8: whatever the order in which the dial goroutines finish,
    [SetupConnectionPool] returns either a pool whose clients are exactly
    the ones that connected, sorted by ascending latency (strictly so when
    the latencies differ) with every slot free, or, exactly when no client
    connected, the error "no connection established". *)
Theorem SetupConnectionPool_sorted (urls : list string) (finished : list nat) :
  finished ≡ₚ seq 0 (length urls) ->
  let survivors := connected rpc_DialContext time_Since urls in
  match SetupConnectionPool rpc_DialContext time_Since finished urls with
  | (Some p, None) =>
      survivors <> [] /\
      clients p ≡ₚ survivors /\
      StronglySorted (fun a b => (Latency a <= Latency b)%Z) (clients p) /\
      (NoDup (Latency <$> survivors) ->
       StronglySorted (fun a b => (Latency a < Latency b)%Z) (clients p)) /\
      status p = replicate (length survivors) 0%Z
  | (None, Some e) => survivors = [] /\ e = ErrNoConnection
  | _ => False
  end.
Proof.
  intros Hfinished survivors. unfold SetupConnectionPool.
  rewrite dial_loop. cbn [app].
  pose proof (dial_loop_Permutation urls finished Hfinished) as Hperm.
  fold survivors in Hperm.
  set (arrived := omap _ finished) in *.
  destruct (Nat.ltb_spec 0 (length arrived)) as [Hsome|Hnone].
  - destruct (Slice_sorted Latency arrived) as [Hsorted Hslice].
    cbn [clients status NewRpcConnectionPool].
    assert (Hclients : sort.Slice (fun a b => (Latency a <? Latency b)%Z) arrived
                       ≡ₚ survivors) by (rewrite Hslice; exact Hperm).
    split.
    { intros Hnil. rewrite Hnil in Hperm. apply Permutation_nil_r in Hperm.
      rewrite Hperm in Hsome. simpl in Hsome. lia. }
    split; [exact Hclients|].
    split; [exact Hsorted|].
    split.
    { intros Hnodup. apply StronglySorted_strict; [exact Hsorted|].
      rewrite Hclients. exact Hnodup. }
    rewrite Hclients. reflexivity.
  - split; [|reflexivity].
    assert (Hnil : arrived = []) by (apply nil_length_inv; lia).
    rewrite Hnil in Hperm. symmetry. apply Permutation_nil_l. exact Hperm.
Qed.

End setup_facts.

(** ** The client on the fixtures *)
Section runs.
Import types rpc client spec fixtures.
#[local] Existing Instances decodeHeader decodeFull decodeCompact
  decodeReceipt decodeString.

(** C2, on the code: asked for the receipts of block 1 with the single
    hash 7, [getBlockReceiptsByHashes] succeeds and returns a receipt whose
    block hash is 2. *)
Theorem getBlockReceiptsByHashes_small_unchecked :
  exists c',
    getBlockReceiptsByHashes node_receipt7in2 1%N [7%N]
      = Returns (c', (Some [Some (mkReceipt 2%N 7%N)], None)) /\
    Receipt_BlockHash (mkReceipt 2%N 7%N) <> 1%N.
Proof.
  eexists. split; [vm_compute; reflexivity|discriminate].
Qed.

(** C3, on the code: with its only slot busy, [Call] returns no error and
    leaves the result as it was, where [BatchCall] returns the error
    "all clients are busy"; [BlockByHash], reading the untouched result,
    then reports [NotFound]. *)
Theorem Pool_Call_all_busy_returns_nil :
  Pool_Call alone busy_pool (EmptyString : RawMessage) "eth_blockNumber" []
    = (busy_pool, (EmptyString, None)) /\
  Pool_BatchCall alone busy_pool (receiptBatch [7%N])
    = (busy_pool, (receiptBatch [7%N], Some ErrAllBusy)) /\
  BlockByHash alone busy_pool 11%N false
    = Returns (busy_pool, (None, Some NotFound)).
Proof. repeat split. Qed.

(** C4 fails as worded: the first client answers [ErrNoResult], the scan
    goes on, the second client is claimed and answers, and [Call] returns
    its result and no error. *)
Lemma Pool_Call_tries_next_after_no_result :
  exists p',
    Pool_Call alone (NewRpcConnectionPool [silent_node; live_node])
      (EmptyString : RawMessage) "eth_blockNumber" []
      = (p', ("0x10"%string, None)) /\
    steps (NewRpcConnectionPool [silent_node; live_node]) p'
      = [Claimed 0; Replied 0 (Some ErrNoResult);
         Claimed 1; Replied 1 None; Released 1] /\
    ~ returned_at_once (NewRpcConnectionPool [silent_node; live_node]) p' None.
Proof.
  eexists. split; [vm_compute; reflexivity|].
  split; [reflexivity|].
  intros Hclaim.
  destruct (Hclaim 0 ErrNoResult) as [Herr _]; [|right; reflexivity|discriminate].
  apply list_elem_of_further, list_elem_of_here.
Qed.

(** C5, on the code: the only client answers [ErrNoResult]; [Call] returns
    with the slot still busy, having neither freed it nor started a
    cooldown for it. *)
Theorem Pool_Call_leaks_slot :
  exists p',
    Pool_Call alone (NewRpcConnectionPool [silent_node])
      (EmptyString : RawMessage) "eth_blockNumber" []
      = (p', (EmptyString, Some ErrNoResult)) /\
    status p' = [1%Z] /\
    steps (NewRpcConnectionPool [silent_node]) p'
      = [Claimed 0; Replied 0 (Some ErrNoResult)] /\
    ~ claims_released (NewRpcConnectionPool [silent_node]) p'.
Proof.
  eexists. split; [vm_compute; reflexivity|].
  split; [reflexivity|]. split; [reflexivity|].
  intros Hclaim. destruct (Hclaim 0) as [Hin|Hin].
  - apply list_elem_of_here.
  - apply elem_of_cons in Hin as [Heq|Hin]; [discriminate|].
    apply elem_of_cons in Hin as [Heq|Hin]; [discriminate|]. inversion Hin.
  - apply elem_of_cons in Hin as [Heq|Hin]; [discriminate|].
    apply elem_of_cons in Hin as [Heq|Hin]; [discriminate|]. inversion Hin.
Qed.

(** [Pool_Call_quiet_error] on the pool of three clients, where the scan
    goes on from the silent node to the next client, and on the pool of one
    silent node, where the error of that node is returned. *)
Lemma Pool_Call_quiet_error_witness :
  ((CoolingDown 1 ∉
      steps mixed_pool
        (Pool_Call alone mixed_pool (EmptyString : RawMessage)
           "eth_blockNumber" []).1) /\
   Claimed 2 ∈
     steps mixed_pool
       (Pool_Call alone mixed_pool (EmptyString : RawMessage)
          "eth_blockNumber" []).1 /\
   exists r,
     Replied 2 r ∈
       steps mixed_pool
         (Pool_Call alone mixed_pool (EmptyString : RawMessage)
            "eth_blockNumber" []).1) /\
  (CoolingDown 0 ∉
     steps silent_pool
       (Pool_Call alone silent_pool (EmptyString : RawMessage)
          "eth_blockNumber" []).1) /\
  ((forall j, 0 < j ->
      Claimed j ∉
        steps silent_pool
          (Pool_Call alone silent_pool (EmptyString : RawMessage)
             "eth_blockNumber" []).1) ->
   (Pool_Call alone silent_pool (EmptyString : RawMessage)
      "eth_blockNumber" []).2.2 = Some ErrNoResult).
Proof.
  split.
  - destruct (Pool_Call_quiet_error alone mixed_pool
                (Pool_Call alone mixed_pool (EmptyString : RawMessage)
                   "eth_blockNumber" []).1 EmptyString
                (Pool_Call alone mixed_pool (EmptyString : RawMessage)
                   "eth_blockNumber" []).2.1
                "eth_blockNumber" []
                (Pool_Call alone mixed_pool (EmptyString : RawMessage)
                   "eth_blockNumber" []).2.2 1 ErrNoResult)
      as (Hcool & Hgoes & _).
    + vm_compute. reflexivity.
    + vm_compute. apply list_elem_of_further, list_elem_of_here.
    + right. reflexivity.
    + split; [exact Hcool|].
      destruct (Hgoes 2) as [Hclaimed|(k & Hk & _)].
      * unfold Size. simpl. lia.
      * intros i st. reflexivity.
      * reflexivity.
      * exact Hclaimed.
      * lia.
  - destruct (Pool_Call_quiet_error alone silent_pool
                (Pool_Call alone silent_pool (EmptyString : RawMessage)
                   "eth_blockNumber" []).1 EmptyString
                (Pool_Call alone silent_pool (EmptyString : RawMessage)
                   "eth_blockNumber" []).2.1
                "eth_blockNumber" []
                (Pool_Call alone silent_pool (EmptyString : RawMessage)
                   "eth_blockNumber" []).2.2 0 ErrNoResult)
      as (Hcool & _ & Hlast).
    + vm_compute. reflexivity.
    + vm_compute. apply list_elem_of_further, list_elem_of_here.
    + right. reflexivity.
    + split; [exact Hcool|exact Hlast].
Defined.

(** [getBlock_uncles_one_batch] on the node whose second uncle is wrong. *)
Lemma getBlock_uncles_one_batch_witness :
  calls uncle_reply.1
    = [ReqCall "eth_getBlockByHash" [VHash 11%N; VBool true];
       uncleRequest 11%N [21%N; 22%N]] /\
  exists e, getBlock (recorded node11_wrong_uncle) "eth_getBlockByHash"
              (VHash 11%N) true
            = Returns (uncle_reply.1, (None, Some e)).
Proof.
  destruct (getBlock_uncles_one_batch (recorded node11_wrong_uncle)
              after_block11 "eth_getBlockByHash" (VHash 11%N)
              "block11" (mkHeader 11%N)
              {| fullResp_Uncles := [21%N; 22%N];
                 fullResp_Transactions := [Some (mkTransaction 31%N)];
                 fullResp_Withdrawals := [] |})
    as (_ & Hcalls & _ & Hbad).
  - vm_compute. reflexivity.
  - discriminate.
  - vm_compute. reflexivity.
  - vm_compute. reflexivity.
  - discriminate.
  - split; [exact Hcalls|]. apply Hbad.
    exists 1, {| Method := "eth_getUncleByBlockHashAndIndex";
                 Args := [VHash 11%N; VString "0x1"];
                 Result := Some (mkHeader 23%N); Error := None |}, 22%N.
    split; [vm_compute; reflexivity|]. split; [reflexivity|]. discriminate.
Defined.

(** [getBlockReceiptsByHashes_chunked] on 101 hashes, against a node that
    answers both batches: two batched calls, and 101 receipts. *)
Lemma getBlockReceiptsByHashes_chunked_witness :
  length (chunks rpcRequestBatchSize (replicate 101 7%N)) = 2 /\
  (submit (recorded node_receipts101)
     (receiptBatch <$> chunks rpcRequestBatchSize (replicate 101 7%N))).2
    = (2, true) /\
  exists r' ret,
    getBlockReceiptsByHashes (recorded node_receipts101) 1%N (replicate 101 7%N)
      = Returns (r', (Some ret, None)) /\
    length ret = 101 /\
    calls r' = receiptRequest <$>
               chunks rpcRequestBatchSize (replicate 101 7%N).
Proof.
  destruct (getBlockReceiptsByHashes_chunked (recorded node_receipts101)
              1%N (replicate 101 7%N))
    as (Hcount & _ & _ & _ & r' & ret & err & k & Hrun & _ & Hcalls & Hsucc
        & _ & Hk & _ & _ & Hgood).
  assert (Hsub : (submit (recorded node_receipts101)
                    (receiptBatch <$>
                     chunks rpcRequestBatchSize (replicate 101 7%N))).2
                 = (2, true)) by (vm_compute; reflexivity).
  split.
  { transitivity ((length (replicate 101 7%N) + 99) / 100);
      [exact Hcount|reflexivity]. }
  split; [exact Hsub|].
  assert (Herr : err = None).
  { destruct (Hgood (f_equal snd Hsub))
      as [_ [Herr|(_ & _ & receipt & Hin & Hne)]]; [exact Herr|].
    exfalso. apply Hne. vm_compute in Hin.
    repeat (apply elem_of_cons in Hin as [[= ->]|Hin]; [reflexivity|]).
    inversion Hin. }
  destruct (Hsucc Herr) as (Hall & _ & Hret & Hlen & _).
  subst err. rewrite Hret in Hrun.
  eexists r', _. split; [exact Hrun|].
  split; [rewrite length_fmap; exact Hlen|].
  rewrite Hcalls, Hall, take_ge by lia. reflexivity.
Defined.

(** [SetupConnectionPool_sorted] on the network of four URLs. *)
Lemma SetupConnectionPool_sorted_witness :
  match SetupConnectionPool network round_trip finish_order four_urls with
  | (Some p, None) =>
      connected network round_trip four_urls <> [] /\
      clients p ≡ₚ connected network round_trip four_urls /\
      StronglySorted (fun a b => (Latency a <= Latency b)%Z) (clients p) /\
      (NoDup (Latency <$> connected network round_trip four_urls) ->
       StronglySorted (fun a b => (Latency a < Latency b)%Z) (clients p)) /\
      status p = replicate (length (connected network round_trip four_urls)) 0%Z
  | (None, Some e) =>
      connected network round_trip four_urls = [] /\ e = ErrNoConnection
  | _ => False
  end.
Proof.
  apply (SetupConnectionPool_sorted network round_trip four_urls finish_order).
  apply (bool_decide_unpack _). vm_compute. reflexivity.
Defined.

End runs.

(** * Further properties *)

(** ** Headers, bodies and access lists *)
Section types_more.
Import types spec.

(** X1: [CopyHeader] returns its argument unchanged exactly when the header
    has a difficulty and a number; otherwise the copy has zero where the
    original had [nil].  A copy is its own copy, and keeps the hash. *)
Theorem CopyHeader_fixpoint (h : Header) :
  (CopyHeader h = h <->
   Header_Difficulty h <> None /\ Header_Number h <> None) /\
  Header_Difficulty (CopyHeader h)
    = Some (default 0%Z (Header_Difficulty h)) /\
  Header_Number (CopyHeader h) = Some (default 0%Z (Header_Number h)) /\
  CopyHeader (CopyHeader h) = CopyHeader h /\
  Header_Hash (CopyHeader h) = Header_Hash h.
Proof.
  destruct h as [ph uh cb rt th rh bl df nb gl gu tm ex md nc bf wh bg eg pb hs].
  unfold CopyHeader; simpl.
  split; [split|].
  - intros [= Hd Hn]. rewrite <- Hd, <- Hn. split; discriminate.
  - intros [Hd Hn]. destruct df; [|contradiction]. destruct nb; [|contradiction].
    reflexivity.
  - destruct df, nb; repeat split; reflexivity.
Qed.

Lemma Transaction_in_lookup (transactions : Transactions) (hash : common.Hash) :
  match Transaction_in transactions hash with
  | Returns (Some tx) =>
      Transaction_Hash tx = hash /\
      exists i, transactions !! i = Some (Some tx) /\
                passed_over transactions hash i
  | Returns None => passed_over transactions hash (length transactions)
  | Panics =>
      exists i, transactions !! i = Some None /\ passed_over transactions hash i
  end.
Proof.
  assert (Hstep : forall tx rest i, Transaction_Hash tx <> hash ->
            passed_over rest hash i -> passed_over (Some tx :: rest) hash (S i)).
  { intros tx rest i Hne Hrest [|j] Hj; [exists tx; auto|].
    apply Hrest. lia. }
  induction transactions as [|[tx|] rest IH]; simpl.
  - intros j Hj. lia.
  - destruct (decide (Transaction_Hash tx = hash)) as [Heq|Hne].
    + split; [exact Heq|]. exists 0. split; [reflexivity|]. intros j Hj; lia.
    + destruct (Transaction_in rest hash) as [[found|]|].
      * destruct IH as (Hhash & i & Hi & Hpassed). split; [exact Hhash|].
        exists (S i). split; [exact Hi|]. apply Hstep; assumption.
      * apply Hstep; assumption.
      * destruct IH as (i & Hi & Hpassed).
        exists (S i). split; [exact Hi|]. apply Hstep; assumption.
  - exists 0. split; [reflexivity|]. intros j Hj; lia.
Qed.

(** X2: [Body.Transaction] returns the first transaction of the body whose
    hash is the one asked for; it returns [nil] when every slot holds a
    transaction with another hash; it panics when it meets a [nil] slot
    before finding one. *)
Theorem Body_Transaction_lookup (b : Body) (hash : common.Hash) :
  match Body_Transaction b hash with
  | Returns (Some tx) =>
      Transaction_Hash tx = hash /\
      exists i, Body_Transactions b !! i = Some (Some tx) /\
                passed_over (Body_Transactions b) hash i
  | Returns None =>
      passed_over (Body_Transactions b) hash (length (Body_Transactions b))
  | Panics =>
      exists i, Body_Transactions b !! i = Some None /\
                passed_over (Body_Transactions b) hash i
  end.
Proof. apply Transaction_in_lookup. Qed.

Lemma fillTransactions_panics (transactions : Transactions) :
  forall i bd cp,
    (None ∈ transactions -> fillTransactions i transactions bd cp = Panics) /\
    (None ∉ transactions ->
     exists filled, fillTransactions i transactions bd cp = Returns filled).
Proof.
  induction transactions as [|[tx|] rest IH]; intros i bd cp; simpl.
  - split; [intros Hin; inversion Hin|eauto].
  - split.
    + intros Hin. apply elem_of_cons in Hin as [Heq|Hin]; [discriminate|].
      apply IH, Hin.
    + intros Hnotin. apply IH. intros Hin. apply Hnotin. right. exact Hin.
  - split; [reflexivity|]. intros Hnotin. exfalso. apply Hnotin. left.
Qed.

Lemma fillUncles_panics (uncles : list (option Header)) :
  forall i bd cp,
    (None ∈ uncles -> fillUncles i uncles bd cp = Panics) /\
    (None ∉ uncles -> exists filled, fillUncles i uncles bd cp = Returns filled).
Proof.
  induction uncles as [|[uncle|] rest IH]; intros i bd cp; simpl.
  - split; [intros Hin; inversion Hin|eauto].
  - split.
    + intros Hin. apply elem_of_cons in Hin as [Heq|Hin]; [discriminate|].
      apply IH, Hin.
    + intros Hnotin. apply IH. intros Hin. apply Hnotin. right. exact Hin.
  - split; [reflexivity|]. intros Hnotin. exfalso. apply Hnotin. left.
Qed.

(** X3: [WithBody] panics exactly when it is given a [nil] transaction or a
    [nil] uncle; in every other case it returns its receiver, whatever the
    transactions and uncles are. *)
Theorem WithBody_outcome (b : Block) (transactions : Transactions)
    (uncles : list (option Header)) :
  (None ∈ transactions \/ None ∈ uncles ->
   WithBody b transactions uncles = Panics) /\
  (None ∉ transactions -> None ∉ uncles ->
   WithBody b transactions uncles = Returns b).
Proof.
  unfold WithBody, WithBody_block.
  set (bd := {| Body_Transactions := _ |}). set (cp := {| compactBody_Transactions := _ |}).
  destruct (fillTransactions_panics transactions 0 bd cp) as [Hpanic Hfill].
  split.
  - intros [Hin|Hin].
    + rewrite Hpanic by exact Hin. reflexivity.
    + destruct (fillTransactions 0 transactions bd cp) as [[bd' cp']|];
        [|reflexivity].
      destruct (fillUncles_panics uncles 0 bd' cp') as [Hpanic' _].
      rewrite Hpanic' by exact Hin. reflexivity.
  - intros Htxs Huncles. destruct (Hfill Htxs) as [[bd' cp'] ->].
    destruct (fillUncles_panics uncles 0 bd' cp') as [_ Hfill'].
    destruct (Hfill' Huncles) as [[bd'' cp''] ->]. reflexivity.
Qed.

Lemma int_wrap_small (z : Z) :
  (- 2 ^ 63 <= z < 2 ^ 63)%Z -> int_wrap z = z.
Proof.
  intros Hz. unfold int_wrap. rewrite Z.mod_small by lia. lia.
Qed.

Lemma StorageKeys_from (al : list AccessTuple) :
  forall sum : Z,
    (0 <= sum)%Z ->
    (sum + Z.of_nat (length (concat (AccessTuple_StorageKeys <$> al))) < 2 ^ 63)%Z ->
    foldl (fun sum tuple =>
             int_wrap (sum + Z.of_nat (length (AccessTuple_StorageKeys tuple))))
          sum al
    = (sum + Z.of_nat (length (concat (AccessTuple_StorageKeys <$> al))))%Z.
Proof.
  induction al as [|tuple al IH]; intros sum Hsum Hbound;
    cbn [foldl fmap list_fmap concat] in *.
  - simpl. lia.
  - rewrite length_app in Hbound |- *.
    rewrite int_wrap_small by lia. rewrite IH by lia. lia.
Qed.

(** X4: [AccessList.StorageKeys] is the number of storage keys of all the
    tuples together, as long as that number fits a Go [int]. *)
Theorem AccessList_StorageKeys_total (al : list AccessTuple) :
  (Z.of_nat (length (concat (AccessTuple_StorageKeys <$> al))) < 2 ^ 63)%Z ->
  AccessList_StorageKeys al
    = Z.of_nat (length (concat (AccessTuple_StorageKeys <$> al))).
Proof.
  intros Hbound. unfold AccessList_StorageKeys.
  rewrite StorageKeys_from by lia. lia.
Qed.

End types_more.

(** ** More of the block assembler *)
Section rpccall_more.
Import types rpc client spec.
Context {C : Type} `{rpcCaller C}.
Context `{Unmarshal (option Header)} `{Unmarshal fullResp}
        `{Unmarshal compactResp}.

(** X5: [getBatchErr] returns the error of the first element that has one,
    and [nil] when no element has one. *)
Theorem getBatchErr_first {T : Type} (batch : list (BatchElem T)) :
  getBatchErr batch = head (omap Error batch).
Proof.
  induction batch as [|elem batch IH]; [reflexivity|].
  cbn [getBatchErr omap list_omap]. destruct (Error elem); [reflexivity|exact IH].
Qed.

Lemma checkUncles_passed (got : list (BatchElem (option Header))) :
  forall hashes, length got = length hashes ->
    checkUncles got hashes = None ->
    Forall2 (fun uncle hash =>
               exists hd, uncle = Some hd /\ Header_Hash hd = hash)
            (Result <$> got) hashes.
Proof.
  induction got as [|elem got IH]; intros [|hash hashes] Hlen Hcheck;
    try discriminate; [constructor|].
  cbn [checkUncles] in Hcheck.
  destruct (Error elem); [discriminate|].
  destruct (Result elem) as [hd|] eqn:Hres; [|discriminate].
  destruct (decide (Header_Hash hd <> hash)) as [|Heq]; [discriminate|].
  rewrite fmap_cons, Hres. constructor.
  - exists hd. split; [reflexivity|]. apply dec_stable. exact Heq.
  - apply IH; [simpl in Hlen; lia|exact Hcheck].
Qed.

(** X6: [getBlockUncles] asks nothing for an empty list of hashes and
    returns [nil, nil]; for [n >= 1] hashes it makes one batched call, and
    when it returns no error it returns [n] headers, none of them [nil],
    the header at each position having the hash asked for there.  With an
    error it returns no headers. *)
Theorem getBlockUncles_result (r : Recorder C) (blockHash : common.Hash)
    (hashes : list common.Hash) :
  let '(r', (uncles, err)) := getBlockUncles r blockHash hashes in
  calls r' = calls r ++ match hashes with
                        | [] => []
                        | _ => [uncleRequest blockHash hashes]
                        end /\
  match err, uncles with
  | None, None => hashes = []
  | None, Some headers =>
      hashes <> [] /\
      Forall2 (fun uncle hash =>
                 exists hd, uncle = Some hd /\ Header_Hash hd = hash)
              headers hashes
  | Some _, None => hashes <> []
  | Some _, Some _ => False
  end.
Proof.
  unfold getBlockUncles. destruct hashes as [|hash hashes].
  - simpl. rewrite app_nil_r. auto.
  - cbn [length Nat.eqb].
    pose proof (Recorder_BatchCall_calls r (uncleBatch blockHash (hash :: hashes)))
      as Hcalls.
    pose proof (BatchCall_length r (uncleBatch blockHash (hash :: hashes))) as Hlen.
    rewrite batchRequest_uncleBatch in Hcalls.
    unfold uncleBatch in Hlen at 2. rewrite length_imap in Hlen.
    destruct (BatchCall r (uncleBatch blockHash (hash :: hashes)))
      as [r' [got [e|]]]; cbn [fst snd] in *.
    + split; [exact Hcalls|discriminate].
    + destruct (checkUncles got (hash :: hashes)) eqn:Hcheck.
      * split; [exact Hcalls|discriminate].
      * split; [exact Hcalls|]. split; [discriminate|].
        apply checkUncles_passed; assumption.
Qed.

(** Without an envelope [getBlock] stops after its one call: an error
    of the call is returned as it is, and an empty payload is [NotFound];
    no block is returned, whichever body was asked for. *)
Lemma getBlock_no_envelope (c c1 : C) (method : string) (numOrHash : any)
    (fullBlock : bool) (raw : RawMessage) (err : option error) :
  Call c (EmptyString : RawMessage) method [numOrHash; VBool fullBlock]
    = (c1, (raw, err)) ->
  err <> None \/ raw = EmptyString ->
  getBlock c method numOrHash fullBlock
    = Returns (c1, (None, Some (default NotFound err))).
Proof.
  intros Hcall Hnone. unfold getBlock. rewrite Hcall.
  destruct err as [e|]; [reflexivity|].
  destruct Hnone as [Hne| ->]; [contradiction|reflexivity].
Qed.

(** X8: the compact path of [getBlock] makes exactly one request and never
    panics.  When it returns no error, the block has the decoded header,
    no body, and a compact body whose [Transactions()] and [Uncles()] are
    the hash lists decoded from the envelope; its withdrawals are the
    decoded ones, [nil] when there are none. *)
Theorem getBlock_compact (r : Recorder C) (method : string) (numOrHash : any) :
  exists r' blk err,
    getBlock r method numOrHash false = Returns (r', (blk, err)) /\
    calls r' = calls r ++ [ReqCall method [numOrHash; VBool false]] /\
    match err, blk with
    | Some _, None => True
    | None, Some b =>
        exists raw resp,
          Call r (EmptyString : RawMessage) method [numOrHash; VBool false]
            = (r', (raw, None)) /\
          json_Unmarshal raw (None : option Header) = (header b, None) /\
          json_Unmarshal raw
            {| compactResp_Uncles := []; compactResp_Transactions := [];
               compactResp_Withdrawals := [] |} = (resp, None) /\
          Block_Body b = None /\
          Block_Transactions b = Returns (compactResp_Transactions resp) /\
          Block_Uncles b = Returns (compactResp_Uncles resp) /\
          Block_Withdrawals_of b (compactResp_Withdrawals resp)
    | _, _ => False
    end.
Proof.
  unfold getBlock.
  pose proof (Recorder_Call_calls r (EmptyString : RawMessage) method
                [numOrHash; VBool false]) as Hcalls.
  destruct (Call r (EmptyString : RawMessage) method [numOrHash; VBool false])
    as [r' [raw [e|]]] eqn:Hcall; cbn [fst] in Hcalls.
  { exists r', None, (Some e). auto. }
  destruct (String.length raw =? 0)%nat.
  { exists r', None, (Some NotFound). auto. }
  destruct (json_Unmarshal raw (None : option Header)) as [hd [e|]] eqn:Hhd.
  { exists r', None, (Some e). auto. }
  destruct (json_Unmarshal raw
              {| compactResp_Uncles := []; compactResp_Transactions := [];
                 compactResp_Withdrawals := [] |}) as [resp [e|]] eqn:Hresp.
  { exists r', None, (Some e). auto. }
  eexists r', (Some _), None. split; [reflexivity|]. split; [exact Hcalls|].
  exists raw, resp. repeat split; try assumption.
  unfold Block_Withdrawals_of, WithWithdrawals; cbn [withdrawals].
  destruct (compactResp_Withdrawals resp); reflexivity.
Qed.

(** X9: when the envelope decodes to a [nil] header (the JSON [null] of a
    block the node does not have), the full path of [getBlock] panics on
    [header.Hash], while the compact path returns a block without
    header. *)
Theorem getBlock_nil_header (c c1 : C) (method : string) (numOrHash : any)
    (raw : RawMessage) (full : fullResp) (cmp : compactResp) :
  raw <> EmptyString ->
  json_Unmarshal raw (None : option Header) = (None, None) ->
  (Call c (EmptyString : RawMessage) method [numOrHash; VBool true]
     = (c1, (raw, None)) ->
   json_Unmarshal raw
     {| fullResp_Uncles := []; fullResp_Transactions := [];
        fullResp_Withdrawals := [] |} = (full, None) ->
   getBlock c method numOrHash true = Panics) /\
  (Call c (EmptyString : RawMessage) method [numOrHash; VBool false]
     = (c1, (raw, None)) ->
   json_Unmarshal raw
     {| compactResp_Uncles := []; compactResp_Transactions := [];
        compactResp_Withdrawals := [] |} = (cmp, None) ->
   exists b, getBlock c method numOrHash false = Returns (c1, (Some b, None)) /\
             header b = None /\ Block_Header b = Panics).
Proof.
  intros Hraw Hhd.
  assert (Hlen : (String.length raw =? 0)%nat = false).
  { destruct raw; [contradiction|reflexivity]. }
  split; intros Hcall Hresp; unfold getBlock; rewrite Hcall, Hlen, Hhd, Hresp.
  - reflexivity.
  - eexists. split; [reflexivity|]. split; reflexivity.
Qed.

End rpccall_more.

(** ** Call arguments *)
Section call_args.
Import types rpc client.

(** X10: the map [toCallArg] builds always holds the sender under ["from"]
    and the recipient under ["to"]; it holds ["data"], ["value"], ["gas"]
    and ["gasPrice"] exactly when the message has non-empty data, a value,
    a non-zero gas limit and a gas price; it holds no other key, so the fee
    cap, the tip cap and the access list of the message are never passed
    on. *)
Theorem toCallArg_lookup (msg : CallMsg) (k : string) :
  toCallArg msg !! k =
    if decide (k = "gasPrice") then ArgBig <$> CallMsg_GasPrice msg
    else if decide (k = "gas")
      then (if (CallMsg_Gas msg =? 0)%Z then None
            else Some (ArgUint64 (CallMsg_Gas msg)))
    else if decide (k = "value") then ArgBig <$> CallMsg_Value msg
    else if decide (k = "data")
      then (if (0 <? length (CallMsg_Data msg))%nat
            then Some (ArgBytes (CallMsg_Data msg)) else None)
    else if decide (k = "to") then Some (ArgAddressPtr (CallMsg_To msg))
    else if decide (k = "from") then Some (ArgAddress (CallMsg_From msg))
    else None.
Proof.
  unfold toCallArg.
  destruct (CallMsg_GasPrice msg), (CallMsg_Gas msg =? 0)%Z,
    (CallMsg_Value msg), (0 <? length (CallMsg_Data msg))%nat;
    repeat case_decide; simplify_map_eq; reflexivity.
Qed.

End call_args.

(** ** More of the connection pool *)
Section pool_more.
Import types rpc client spec.
Context {E : Type} `{rpcCaller E}.
Variable others : nat -> list Z -> list Z.

(** The loop of [Call] keeps the sizes of the two slices, asks the clients
    in increasing slot order, and leaves alone the clients whose slots it
    did not claim. *)
Lemma Call_range_scan {T : Type} `{Unmarshal T} (method : string)
    (args : list any) (todo : list E) :
  forall idx p (result : T) err0 p' out err,
    (forall i st, length (others i st) = length st) ->
    Call_range others idx todo p result method args err0 = (p', (out, err)) ->
    exists evs,
      trace p' = trace p ++ evs /\
      length (status p') = length (status p) /\
      length (clients p') = length (clients p) /\
      Forall (fun i => idx <= i < idx + length todo) (claimed evs) /\
      StronglySorted lt (claimed evs) /\
      (forall j, j ∉ claimed evs -> clients p' !! j = clients p !! j).
Proof.
  induction todo as [|client todo IH];
    intros idx p result err0 p' out err Hothers Hrun.
  - injection Hrun as <- <- <-. exists []. rewrite app_nil_r.
    repeat split; constructor.
  - cbn [Call_range] in Hrun.
    pose proof (CompareAndSwapInt64_spec
                  (status (with_status p (others idx (status p)))) idx 0 1) as Hcas.
    destruct (CompareAndSwapInt64 _ idx 0 1) as [st [|]]; cbn [negb] in Hrun.
    + destruct Hcas as [Hfree ->]. cbn [status with_status] in Hfree.
      destruct (Call client result method args) as [client' [result' [e|]]].
      * apply IH in Hrun as (evs & Htrace & Hst & Hcl & Hrange & Hsorted & Hkeep);
          [|exact Hothers].
        set (cd := if bool_decide (e <> NotFound) && bool_decide (e <> ErrNoResult)
                   then [CoolingDown idx] else []) in *.
        exists (Claimed idx :: Replied idx (Some e) :: cd ++ evs).
        assert (Hclaimed : claimed (Claimed idx :: Replied idx (Some e) :: cd ++ evs)
                           = idx :: claimed evs).
        { unfold claimed. cbn [omap list_omap]. f_equal. rewrite omap_app.
          subst cd. destruct (_ && _); reflexivity. }
        rewrite Hclaimed.
        split.
        { rewrite Htrace. subst cd. destruct (_ && _); simpl;
            rewrite <- !app_assoc; reflexivity. }
        split.
        { rewrite Hst. subst cd. destruct (_ && _); simpl;
            rewrite length_insert; apply Hothers. }
        split.
        { rewrite Hcl. subst cd. destruct (_ && _); simpl;
            apply length_insert. }
        split.
        { constructor; [simpl; lia|].
          eapply Forall_impl; [exact Hrange|]. simpl. intros; lia. }
        split.
        { constructor; [exact Hsorted|].
          eapply Forall_impl; [exact Hrange|]. simpl. intros; lia. }
        intros j Hj. rewrite Hkeep by (intros Hin; apply Hj; right; exact Hin).
        assert (j <> idx) by (intros ->; apply Hj; left).
        subst cd. destruct (_ && _); simpl;
          apply list_lookup_insert_ne; congruence.
      * injection Hrun as <- <- <-.
        exists [Claimed idx; Replied idx None; Released idx].
        split; [simpl; rewrite <- !app_assoc; reflexivity|].
        split; [simpl; unfold StoreInt64; rewrite !length_insert; apply Hothers|].
        split; [simpl; apply length_insert|].
        split; [repeat constructor; simpl; lia|].
        split; [repeat constructor|].
        intros j Hj. assert (j <> idx) by (intros ->; apply Hj; left).
        simpl. apply list_lookup_insert_ne. congruence.
    + subst st.
      apply IH in Hrun as (evs & Htrace & Hst & Hcl & Hrange & Hsorted & Hkeep);
        [|exact Hothers].
      exists evs. split; [exact Htrace|].
      split; [rewrite Hst; simpl; apply Hothers|].
      split; [exact Hcl|].
      split; [eapply Forall_impl; [exact Hrange|]; simpl; intros; lia|].
      split; [exact Hsorted|exact Hkeep].
Qed.

(** X11: one [Call] claims each slot at most once, in increasing slot
    order, and only slots of the pool; it keeps the sizes of [clients] and
    [status]; and the clients whose slots it did not claim are left as
    they were. *)
Theorem Pool_Call_scan {T : Type} `{Unmarshal T} (p p' : RpcConnectionPool E)
    (result out : T) (method : string) (args : list any) (err : option error) :
  (forall i st, length (others i st) = length st) ->
  Pool_Call others p result method args = (p', (out, err)) ->
  StronglySorted lt (claimed (steps p p')) /\
  Forall (fun i => i < Size p) (claimed (steps p p')) /\
  length (status p') = length (status p) /\
  Size p' = Size p /\
  (forall j, j ∉ claimed (steps p p') -> clients p' !! j = clients p !! j).
Proof.
  intros Hothers Hrun.
  apply Call_range_scan in Hrun as (evs & Htrace & Hst & Hcl & Hrange & Hsorted & Hkeep);
    [|exact Hothers].
  apply steps_app in Htrace. rewrite Htrace. unfold Size.
  split; [exact Hsorted|].
  split; [eapply Forall_impl; [exact Hrange|]; simpl; intros; lia|].
  split; [exact Hst|]. split; [exact Hcl|exact Hkeep].
Qed.

(** Without other goroutines, the loop of [Call] claims only slots that
    were free when it started. *)
Lemma Call_range_claims_free {T : Type} `{Unmarshal T} (method : string)
    (args : list any) (todo : list E) :
  forall idx p (result : T) err0 p' out err,
    (forall i st, others i st = st) ->
    Call_range others idx todo p result method args err0 = (p', (out, err)) ->
    exists evs,
      trace p' = trace p ++ evs /\
      Forall (fun ev => idx <= slot ev) evs /\
      (forall j, Claimed j ∈ evs -> status p !! j = Some 0%Z) /\
      (forall j, Claimed j ∉ evs -> status p' !! j = status p !! j).
Proof.
  induction todo as [|client todo IH];
    intros idx p result err0 p' out err Halone Hrun.
  - injection Hrun as <- <- <-. exists []. rewrite app_nil_r.
    split; [reflexivity|]. split; [constructor|].
    split; [intros j Hin; inversion Hin|reflexivity].
  - cbn [Call_range] in Hrun. rewrite Halone in Hrun.
    replace (with_status p (status p)) with p in Hrun by (destruct p; reflexivity).
    pose proof (CompareAndSwapInt64_spec (status p) idx 0 1) as Hcas.
    destruct (CompareAndSwapInt64 (status p) idx 0 1) as [st [|]];
      cbn [negb] in Hrun.
    + destruct Hcas as [Hfree ->].
      destruct (Call client result method args) as [client' [result' [e|]]].
      * apply IH in Hrun as (evs & Htrace & Hslots & Hfrees & Hkeep);
          [|exact Halone].
        set (cd := if bool_decide (e <> NotFound) && bool_decide (e <> ErrNoResult)
                   then [CoolingDown idx] else []) in *.
        assert (Hstatus : forall j, j <> idx ->
                  status (if bool_decide (e <> NotFound) && bool_decide (e <> ErrNoResult)
                          then note (note (with_client
                                 (note (with_status p (<[idx:=1%Z]> (status p)))
                                    (Claimed idx)) idx client')
                                 (Replied idx (Some e))) (CoolingDown idx)
                          else note (with_client
                                 (note (with_status p (<[idx:=1%Z]> (status p)))
                                    (Claimed idx)) idx client')
                                 (Replied idx (Some e))) !! j
                  = status p !! j).
        { intros j Hj. destruct (_ && _); simpl;
            apply list_lookup_insert_ne; congruence. }
        exists (Claimed idx :: Replied idx (Some e) :: cd ++ evs).
        split.
        { rewrite Htrace. subst cd. destruct (_ && _); simpl;
            rewrite <- !app_assoc; reflexivity. }
        split.
        { repeat constructor; simpl; try lia. apply Forall_app. split.
          - subst cd. destruct (_ && _); repeat constructor.
          - eapply Forall_impl; [exact Hslots|]. simpl. intros; lia. }
        assert (Htail : forall j, Claimed j ∈ Claimed idx :: Replied idx (Some e) :: cd ++ evs ->
                  j = idx \/ Claimed j ∈ evs).
        { intros j Hin. apply elem_of_cons in Hin as [[= ->]|Hin]; [left; reflexivity|].
          apply elem_of_cons in Hin as [Heq|Hin]; [discriminate|].
          apply elem_of_app in Hin as [Hin|Hin]; [|right; exact Hin].
          subst cd. destruct (_ && _); [|inversion Hin].
          apply list_elem_of_singleton in Hin. discriminate. }
        split.
        { intros j Hin. destruct (Htail j Hin) as [->|Hin']; [exact Hfree|].
          rewrite <- Hstatus; [apply Hfrees; exact Hin'|].
          rewrite Forall_forall in Hslots. apply Hslots in Hin'. simpl in Hin'. lia. }
        { intros j Hnotin.
          assert (j <> idx) by (intros ->; apply Hnotin; left).
          rewrite Hkeep; [apply Hstatus; assumption|].
          intros Hin. apply Hnotin. right. right. apply elem_of_app. right. exact Hin. }
      * injection Hrun as <- <- <-.
        exists [Claimed idx; Replied idx None; Released idx].
        split; [simpl; rewrite <- !app_assoc; reflexivity|].
        split; [repeat constructor|].
        split.
        { intros j Hin. apply elem_of_cons in Hin as [[= ->]|Hin]; [exact Hfree|].
          exfalso. repeat (apply elem_of_cons in Hin as [Heq|Hin]; [discriminate|]).
          inversion Hin. }
        { intros j Hnotin.
          assert (j <> idx) by (intros ->; apply Hnotin; left).
          simpl. unfold StoreInt64. rewrite !list_lookup_insert_ne by congruence.
          reflexivity. }
    + subst st.
      apply IH in Hrun as (evs & Htrace & Hslots & Hfrees & Hkeep); [|exact Halone].
      exists evs. split; [exact Htrace|].
      split; [eapply Forall_impl; [exact Hslots|]; simpl; intros; lia|].
      split; assumption.
Qed.

(** X12: running alone, [Call] claims only slots that are free when it
    starts; a busy slot is never claimed, its status is left as it is, and
    its client is not asked. *)
Theorem Pool_Call_skips_busy {T : Type} `{Unmarshal T}
    (p p' : RpcConnectionPool E) (result out : T) (method : string)
    (args : list any) (err : option error) (j : nat) (v : Z) :
  (forall i st, others i st = st) ->
  Pool_Call others p result method args = (p', (out, err)) ->
  status p !! j = Some v -> v <> 0%Z ->
  (Claimed j ∉ steps p p') /\
  status p' !! j = Some v /\
  clients p' !! j = clients p !! j.
Proof.
  intros Halone Hrun Hbusy Hv.
  pose proof Hrun as Hscan.
  apply Call_range_claims_free in Hrun as (evs & Htrace & _ & Hfrees & Hkeep);
    [|exact Halone].
  apply Call_range_scan in Hscan as (evs' & Htrace' & _ & _ & _ & _ & Hclients);
    [|intros i st; rewrite Halone; reflexivity].
  assert (evs' = evs) as -> by (rewrite Htrace in Htrace'; apply (inj _) in Htrace'; congruence).
  apply steps_app in Htrace. rewrite Htrace.
  assert (Hnot : Claimed j ∉ evs).
  { intros Hin. apply Hfrees in Hin. congruence. }
  split; [exact Hnot|]. split; [rewrite Hkeep by exact Hnot; exact Hbusy|].
  apply Hclients. unfold claimed. rewrite list_elem_of_omap.
  intros (ev & Hin & Hev). destruct ev; try discriminate.
  injection Hev as ->. contradiction.
Qed.

(** How the loop of [Call] ends: with the error it started with when no
    slot is claimed, with [nil] right after a release, and otherwise with
    the error of the last client it asked. *)
Lemma Call_range_outcome {T : Type} `{Unmarshal T} (method : string)
    (args : list any) (todo : list E) :
  forall idx p (result : T) err0 p' out err,
    Call_range others idx todo p result method args err0 = (p', (out, err)) ->
    exists evs,
      trace p' = trace p ++ evs /\
      Forall (fun ev => idx <= slot ev) evs /\
      ((forall j, Claimed j ∉ evs) -> err = err0 /\ out = result) /\
      (err = None ->
       (forall j, Claimed j ∉ evs) \/
       exists i, last evs = Some (Released i) /\ Replied i None ∈ evs /\
                 status p' !! i = Some 0%Z) /\
      (forall e, err = Some e ->
       (forall j, Released j ∉ evs) /\
       ((forall j, Claimed j ∉ evs) \/
        exists i, Replied i (Some e) ∈ evs /\
                  forall j, i < j -> Claimed j ∉ evs)).
Proof.
  induction todo as [|client todo IH]; intros idx p result err0 p' out err Hrun.
  - injection Hrun as <- <- <-. exists []. rewrite app_nil_r.
    split; [reflexivity|]. split; [constructor|].
    split; [intros _; split; reflexivity|].
    split; [intros _; left; intros j Hin; inversion Hin|].
    intros e _. split; [intros j Hin; inversion Hin|].
    left. intros j Hin. inversion Hin.
  - cbn [Call_range] in Hrun.
    pose proof (CompareAndSwapInt64_spec
                  (status (with_status p (others idx (status p)))) idx 0 1) as Hcas.
    destruct (CompareAndSwapInt64 _ idx 0 1) as [st [|]]; cbn [negb] in Hrun.
    + destruct Hcas as [Hfree ->]. cbn [status with_status] in Hfree.
      destruct (Call client result method args) as [client' [result' [e|]]].
      * apply IH in Hrun as (evs & Htrace & Hslots & Hnone & Hnil & Herr).
        set (cd := if bool_decide (e <> NotFound) && bool_decide (e <> ErrNoResult)
                   then [CoolingDown idx] else []) in *.
        assert (Hlater : Forall (fun ev => S idx <= slot ev) evs) by exact Hslots.
        assert (Hcd : forall ev, ev ∈ cd -> ev = CoolingDown idx).
        { intros ev Hin. subst cd. destruct (_ && _); [|inversion Hin].
          apply list_elem_of_singleton in Hin. exact Hin. }
        assert (Hsplit : forall ev,
                  ev ∈ Claimed idx :: Replied idx (Some e) :: cd ++ evs ->
                  ev = Claimed idx \/ ev = Replied idx (Some e) \/
                  ev = CoolingDown idx \/ ev ∈ evs).
        { intros ev Hin. apply elem_of_cons in Hin as [->|Hin]; [auto|].
          apply elem_of_cons in Hin as [->|Hin]; [auto|].
          apply elem_of_app in Hin as [Hin|Hin]; [apply Hcd in Hin|]; auto. }
        assert (Hevs : forall ev, ev ∈ evs ->
                  ev ∈ Claimed idx :: Replied idx (Some e) :: cd ++ evs).
        { intros ev Hin. right. right. apply elem_of_app. right. exact Hin. }
        exists (Claimed idx :: Replied idx (Some e) :: cd ++ evs).
        split.
        { rewrite Htrace. subst cd. destruct (_ && _); simpl;
            rewrite <- !app_assoc; reflexivity. }
        split.
        { repeat constructor; simpl; try lia. apply Forall_app. split.
          - subst cd. destruct (_ && _); repeat constructor.
          - eapply Forall_impl; [exact Hslots|]. simpl. intros; lia. }
        split; [intros Hno; exfalso; apply (Hno idx); left|].
        split.
        { intros Herrnil. right.
          destruct (Hnil Herrnil) as [Hno|(i & Hlast & Hrep & Hst)].
          - destruct (Hnone Hno) as [Hcontra _]. congruence.
          - exists i. split; [|split; [apply Hevs; exact Hrep|exact Hst]].
            change (Claimed idx :: Replied idx (Some e) :: cd ++ evs)
              with ((Claimed idx :: Replied idx (Some e) :: cd) ++ evs).
            rewrite last_app, Hlast. reflexivity. }
        { intros e' Herre. destruct (Herr e' Herre) as [Hnorel Hwho]. split.
          - intros j Hin.
            destruct (Hsplit _ Hin) as [Heq|[Heq|[Heq|Hin']]]; try discriminate.
            exact (Hnorel j Hin').
          - right. destruct Hwho as [Hno|(i & Hrep & Hlast)].
            + destruct (Hnone Hno) as [Heq _].
              assert (e' = e) as -> by congruence.
              exists idx. split; [right; left|].
              intros j Hj Hin.
              destruct (Hsplit _ Hin) as [Heq'|[Heq'|[Heq'|Hin']]];
                try discriminate; [injection Heq' as ->; lia|].
              exact (Hno j Hin').
            + exists i. split; [apply Hevs; exact Hrep|].
              assert (Hi : S idx <= i).
              { rewrite Forall_forall in Hlater. apply Hlater in Hrep. exact Hrep. }
              intros j Hj Hin.
              destruct (Hsplit _ Hin) as [Heq'|[Heq'|[Heq'|Hin']]];
                try discriminate; [injection Heq' as ->; lia|].
              exact (Hlast j Hj Hin'). }
      * injection Hrun as <- <- <-.
        exists [Claimed idx; Replied idx None; Released idx].
        split; [simpl; rewrite <- !app_assoc; reflexivity|].
        split; [repeat constructor|].
        split; [intros Hno; exfalso; apply (Hno idx); left|].
        split; [|intros e Heq; discriminate].
        intros _. right. exists idx. split; [reflexivity|].
        split; [right; left|].
        simpl. unfold StoreInt64. apply list_lookup_insert_eq.
        rewrite length_insert. apply lookup_lt_Some in Hfree. exact Hfree.
    + subst st.
      apply IH in Hrun as (evs & Htrace & Hslots & Hrest).
      exists evs. split; [exact Htrace|].
      split; [eapply Forall_impl; [exact Hslots|]; simpl; intros; lia|].
      exact Hrest.
Qed.

(** X13: how [Call] ends.  It returns [nil] either without having claimed
    a slot, the result untouched, or right after a client answered without
    error, and the last thing it did was to set that client's slot free.
    It returns an error only after every client it asked failed: the error
    is that of the last client asked, and no slot was set free. *)
Theorem Pool_Call_outcome {T : Type} `{Unmarshal T}
    (p p' : RpcConnectionPool E) (result out : T) (method : string)
    (args : list any) (err : option error) :
  Pool_Call others p result method args = (p', (out, err)) ->
  match err with
  | None =>
      ((forall j, Claimed j ∉ steps p p') /\ out = result) \/
      (exists i, last (steps p p') = Some (Released i) /\
                 Replied i None ∈ steps p p' /\
                 status p' !! i = Some 0%Z)
  | Some e =>
      (forall j, Released j ∉ steps p p') /\
      exists i, Replied i (Some e) ∈ steps p p' /\
                forall j, i < j -> Claimed j ∉ steps p p'
  end.
Proof.
  intros Hrun.
  apply Call_range_outcome in Hrun as (evs & Htrace & _ & Hnone & Hnil & Herr).
  apply steps_app in Htrace. rewrite Htrace.
  destruct err as [e|].
  - destruct (Herr e eq_refl) as [Hnorel [Hno|Hwho]]; [|split; assumption].
    destruct (Hnone Hno) as [Hcontra _]. discriminate.
  - destruct (Hnil eq_refl) as [Hno|Hwho]; [|right; exact Hwho].
    left. split; [exact Hno|]. apply Hnone. exact Hno.
Qed.

Lemma getBatchErr_None {T : Type} (batch : list (BatchElem T)) :
  getBatchErr batch = None -> Forall (fun elem => Error elem = None) batch.
Proof.
  induction batch as [|elem batch IH]; [constructor|].
  cbn [getBatchErr]. destruct (Error elem) eqn:Helem; [discriminate|].
  intros Hrest. constructor; [exact Helem|apply IH; exact Hrest].
Qed.

(** How the loop of [BatchCall] ends. *)
Lemma BatchCall_range_outcome {T : Type} `{Unmarshal T} (todo : list E) :
  forall idx p (batch : list (BatchElem T)) err0 allBusy p' batch' err,
    BatchCall_range others idx todo p batch err0 allBusy = (p', (batch', err)) ->
    exists evs,
      trace p' = trace p ++ evs /\
      Forall (fun ev => idx <= slot ev) evs /\
      ((forall j, Claimed j ∉ evs) ->
       batch' = batch /\ err = if allBusy then Some ErrAllBusy else err0) /\
      (err = None ->
       (forall j, Claimed j ∉ evs) \/
       exists i, last evs = Some (Released i) /\ Replied i None ∈ evs /\
                 status p' !! i = Some 0%Z /\
                 Forall (fun elem => Error elem = None) batch') /\
      (forall e, err = Some e ->
       (forall j, Released j ∉ evs) /\
       ((forall j, Claimed j ∉ evs) \/
        exists i, Replied i (Some e) ∈ evs /\ CoolingDown i ∈ evs /\
                  forall j, i < j -> Claimed j ∉ evs)).
Proof.
  induction todo as [|client todo IH];
    intros idx p batch err0 allBusy p' batch' err Hrun.
  - exists []. rewrite app_nil_r. cbn [BatchCall_range] in Hrun.
    assert (Hres : p' = p /\ batch' = batch /\
                   err = if allBusy then Some ErrAllBusy else err0).
    { destruct allBusy; injection Hrun as <- <- <-; auto. }
    destruct Hres as (-> & -> & ->).
    split; [reflexivity|]. split; [constructor|].
    split; [intros _; split; reflexivity|].
    split; [intros _; left; intros j Hin; inversion Hin|].
    intros e _. split; [intros j Hin; inversion Hin|].
    left. intros j Hin. inversion Hin.
  - cbn [BatchCall_range] in Hrun.
    pose proof (CompareAndSwapInt64_spec
                  (status (with_status p (others idx (status p)))) idx 0 1) as Hcas.
    destruct (CompareAndSwapInt64 _ idx 0 1) as [st [|]]; cbn [negb] in Hrun.
    + destruct Hcas as [Hfree ->]. cbn [status with_status] in Hfree.
      destruct (BatchCall client batch) as [client' [got err1]].
      destruct (match err1 with None => getBatchErr got | Some e => Some e end)
        as [e|] eqn:Hgot.
      * apply IH in Hrun as (evs & Htrace & Hslots & Hnone & Hnil & Herr).
        assert (Hlater : Forall (fun ev => S idx <= slot ev) evs) by exact Hslots.
        assert (Hsplit : forall ev,
                  ev ∈ Claimed idx :: Replied idx (Some e) :: CoolingDown idx :: evs ->
                  ev = Claimed idx \/ ev = Replied idx (Some e) \/
                  ev = CoolingDown idx \/ ev ∈ evs).
        { intros ev Hin. repeat (apply elem_of_cons in Hin as [->|Hin]; [auto|]).
          auto. }
        assert (Hevs : forall ev, ev ∈ evs ->
                  ev ∈ Claimed idx :: Replied idx (Some e) :: CoolingDown idx :: evs).
        { intros ev Hin. do 3 right. exact Hin. }
        exists (Claimed idx :: Replied idx (Some e) :: CoolingDown idx :: evs).
        split; [rewrite Htrace; simpl; rewrite <- !app_assoc; reflexivity|].
        split.
        { repeat constructor; simpl; try lia.
          eapply Forall_impl; [exact Hslots|]. simpl. intros; lia. }
        split; [intros Hno; exfalso; apply (Hno idx); left|].
        split.
        { intros Herrnil. right.
          destruct (Hnil Herrnil) as [Hno|(i & Hlast & Hrep & Hst & Hbatch)].
          - destruct (Hnone Hno) as [_ Hcontra]. simpl in Hcontra. congruence.
          - exists i. split; [|split; [apply Hevs; exact Hrep|split; assumption]].
            change (Claimed idx :: Replied idx (Some e) :: CoolingDown idx :: evs)
              with ([Claimed idx; Replied idx (Some e); CoolingDown idx] ++ evs).
            rewrite last_app, Hlast. reflexivity. }
        { intros e' Herre. destruct (Herr e' Herre) as [Hnorel Hwho]. split.
          - intros j Hin.
            destruct (Hsplit _ Hin) as [Heq|[Heq|[Heq|Hin']]]; try discriminate.
            exact (Hnorel j Hin').
          - right. destruct Hwho as [Hno|(i & Hrep & Hcool & Hlast)].
            + destruct (Hnone Hno) as [_ Heq]. simpl in Heq.
              assert (e' = e) as -> by congruence.
              exists idx. split; [right; left|]. split; [right; right; left|].
              intros j Hj Hin.
              destruct (Hsplit _ Hin) as [Heq'|[Heq'|[Heq'|Hin']]];
                try discriminate; [injection Heq' as ->; lia|].
              exact (Hno j Hin').
            + exists i. split; [apply Hevs; exact Hrep|].
              split; [apply Hevs; exact Hcool|].
              assert (Hi : S idx <= i).
              { rewrite Forall_forall in Hlater. apply Hlater in Hrep. exact Hrep. }
              intros j Hj Hin.
              destruct (Hsplit _ Hin) as [Heq'|[Heq'|[Heq'|Hin']]];
                try discriminate; [injection Heq' as ->; lia|].
              exact (Hlast j Hj Hin'). }
      * injection Hrun as <- <- <-.
        exists [Claimed idx; Replied idx None; Released idx].
        split; [simpl; rewrite <- !app_assoc; reflexivity|].
        split; [repeat constructor|].
        split; [intros Hno; exfalso; apply (Hno idx); left|].
        split; [|intros e Heq; discriminate].
        intros _. right. exists idx. split; [reflexivity|].
        split; [right; left|]. split.
        { simpl. unfold StoreInt64. apply list_lookup_insert_eq.
          rewrite length_insert. apply lookup_lt_Some in Hfree. exact Hfree. }
        destruct err1; [discriminate|]. apply getBatchErr_None. exact Hgot.
    + subst st.
      apply IH in Hrun as (evs & Htrace & Hslots & Hrest).
      exists evs. split; [exact Htrace|].
      split; [eapply Forall_impl; [exact Hslots|]; simpl; intros; lia|].
      exact Hrest.
Qed.

(** X14: how [BatchCall] ends.  It returns [nil] only right after a client
    answered the whole batch with no error in any element, and the last
    thing it did was to set that client's slot free.  Otherwise no slot was
    set free, and either no slot was claimed, the batch is untouched and
    the error is "all clients are busy", or the error is that of the last
    client asked, whose slot was handed to a cooldown. *)
Theorem Pool_BatchCall_outcome {T : Type} `{Unmarshal T}
    (p p' : RpcConnectionPool E) (batch batch' : list (BatchElem T))
    (err : option error) :
  Pool_BatchCall others p batch = (p', (batch', err)) ->
  match err with
  | None =>
      exists i, last (steps p p') = Some (Released i) /\
                Replied i None ∈ steps p p' /\
                status p' !! i = Some 0%Z /\
                Forall (fun elem => Error elem = None) batch'
  | Some e =>
      (forall j, Released j ∉ steps p p') /\
      (((forall j, Claimed j ∉ steps p p') /\ batch' = batch /\ e = ErrAllBusy) \/
       exists i, Replied i (Some e) ∈ steps p p' /\
                 CoolingDown i ∈ steps p p' /\
                 forall j, i < j -> Claimed j ∉ steps p p')
  end.
Proof.
  intros Hrun.
  apply BatchCall_range_outcome in Hrun as (evs & Htrace & _ & Hnone & Hnil & Herr).
  apply steps_app in Htrace. rewrite Htrace.
  destruct err as [e|].
  - destruct (Herr e eq_refl) as [Hnorel [Hno|Hwho]].
    + split; [exact Hnorel|]. left. destruct (Hnone Hno) as [-> Heq].
      split; [exact Hno|]. split; [reflexivity|]. congruence.
    + split; [exact Hnorel|]. right. exact Hwho.
  - destruct (Hnil eq_refl) as [Hno|Hwho]; [|exact Hwho].
    destruct (Hnone Hno) as [_ Hcontra]. discriminate.
Qed.

Lemma cooldown_spec (connect : E -> E * option error) (wakeups : list Wakeup)
    (idx : nat) :
  forall client p p' returned,
    cooldown connect wakeups idx client p = (p', returned) ->
    quitCh p' = quitCh p /\ trace p' = trace p /\
    length (clients p') = length (clients p) /\
    (forall j, j <> idx -> clients p' !! j = clients p !! j) /\
    (status p' = status p \/
     returned = true /\ status p' = <[idx := 0%Z]> (status p)) /\
    (returned = false -> status p' = status p) /\
    ((forall c, (connect c).2 <> None) -> status p' = status p).
Proof.
  induction wakeups as [|[|] wakeups IH]; intros client p p' returned Hrun;
    cbn [cooldown] in Hrun.
  - injection Hrun as <- <-. repeat split; auto.
  - injection Hrun as <- <-. repeat split; auto.
  - destruct (connect client) as [client' [e|]] eqn:Hconnect.
    + apply IH in Hrun as (Hquit & Htrace & Hlen & Hkeep & Hstatus & Hfalse & Hfail).
      cbn [quitCh trace clients status with_client] in *.
      rewrite length_insert in Hlen.
      split; [exact Hquit|]. split; [exact Htrace|]. split; [exact Hlen|].
      split; [|split; [exact Hstatus|split; [exact Hfalse|exact Hfail]]].
      intros j Hj. rewrite Hkeep by exact Hj.
      apply list_lookup_insert_ne. congruence.
    + injection Hrun as <- <-.
      cbn [quitCh trace clients status with_client with_status StoreInt64].
      split; [reflexivity|]. split; [reflexivity|].
      split; [apply length_insert|].
      split; [intros j Hj; apply list_lookup_insert_ne; congruence|].
      split; [right; split; reflexivity|].
      split; [discriminate|].
      intros Hfail. exfalso. apply (Hfail client). rewrite Hconnect. reflexivity.
Qed.

(** X15: a cooldown goroutine never touches [quitCh]; it leaves the sizes
    of the pool and the clients of the other slots as they are; and what it
    does to [status] is either nothing or, when it returns after a
    reconnection, to set its own slot free.  While it has not returned, and
    whenever every reconnection fails, [status] is unchanged: the slot
    stays claimed. *)
Theorem cooldown_only_frees_own_slot (connect : E -> E * option error)
    (wakeups : list Wakeup) (idx : nat) (client : E)
    (p : RpcConnectionPool E) :
  let '(p', returned) := cooldown connect wakeups idx client p in
  quitCh p' = quitCh p /\
  Size p' = Size p /\
  (forall j, j <> idx -> clients p' !! j = clients p !! j) /\
  (status p' = status p \/
   returned = true /\ status p' = <[idx := 0%Z]> (status p)) /\
  (returned = false -> status p' = status p) /\
  ((forall c, (connect c).2 <> None) -> status p' = status p).
Proof.
  destruct (cooldown connect wakeups idx client p) as [p' returned] eqn:Hrun.
  apply cooldown_spec in Hrun
    as (Hquit & _ & Hlen & Hkeep & Hstatus & Hfalse & Hfail).
  unfold Size. repeat split; assumption.
Qed.

End pool_more.

(** ** Transactions and receipts through the pool *)
Section chain_reader_more.
Import types rpc client spec.
Context {E : Type} `{rpcCaller E}.
Variable others : nat -> list Z -> list Z.
Context `{Unmarshal (option Transaction)} `{Unmarshal (option Receipt)}.

(** When no slot can be claimed, [Call] returns [nil] and leaves the
    result as it was. *)
Lemma Pool_Call_untouched {T : Type} `{Unmarshal T}
    (p p' : RpcConnectionPool E) (result out : T) (method : string)
    (args : list any) (err : option error) :
  Pool_Call others p result method args = (p', (out, err)) ->
  (forall j, Claimed j ∉ steps p p') ->
  err = None /\ out = result.
Proof.
  intros Hrun Hbusy.
  apply Call_range_outcome in Hrun as (evs & Htrace & _ & Hnone & _).
  apply steps_app in Htrace. rewrite Htrace in Hbusy. apply Hnone, Hbusy.
Qed.

(** X16: [TransactionReceipt] never returns a nil receipt together with a
    nil error, and a receipt it returns with a nil error is the one the
    pool call decoded.  When no slot of the pool can be claimed, no node is
    asked and the transaction is reported as not found. *)
Theorem TransactionReceipt_outcome (p p' : RpcConnectionPool E)
    (txHash : common.Hash) (receipt : option Receipt) (err : option error) :
  TransactionReceipt others p txHash = (p', (receipt, err)) ->
  (receipt = None -> err <> None) /\
  (err = None ->
   (Pool_Call others p (None : option Receipt)
      "eth_getTransactionReceipt" [VHash txHash]).2 = (receipt, None)) /\
  ((forall j, Claimed j ∉ steps p p') ->
   receipt = None /\ err = Some NotFound).
Proof.
  unfold TransactionReceipt. intros Hrun.
  destruct (Pool_Call others p None "eth_getTransactionReceipt" [VHash txHash])
    as [p1 [got err1]] eqn:Hcall.
  assert (Hcases : p1 = p' /\
            ((err1 = None /\ got = None /\ receipt = None /\ err = Some NotFound) \/
             (receipt = got /\ err = err1 /\ (err1 <> None \/ got <> None)))).
  { destruct err1 as [e|], got as [r|]; injection Hrun as <- <- <-;
      (split; [reflexivity|]); [right|right|right|left]; repeat split;
      try (left; discriminate); right; discriminate. }
  destruct Hcases as [-> Hcases]. split; [|split].
  - intros Hnil. destruct Hcases as [(_ & _ & _ & ->)|(Hr & -> & [Hne|Hne])];
      [discriminate|exact Hne|congruence].
  - intros Hnil. destruct Hcases as [(_ & _ & _ & Herr)|(-> & -> & _)];
      [congruence|rewrite Hnil; reflexivity].
  - intros Hbusy.
    destruct (Pool_Call_untouched _ _ _ _ _ _ _ Hcall Hbusy) as [-> ->].
    destruct Hcases as [(_ & _ & -> & ->)|(_ & _ & [Hne|Hne])];
      [split; reflexivity|contradiction|contradiction].
Qed.

(** X17: [TransactionByHash] returns a transaction exactly when it returns
    no error; the transaction then carries a signature, and it is reported
    pending exactly when it has no block number.  With an error the
    transaction is nil and the pending flag false.  When no slot of the
    pool can be claimed, no node is asked and the transaction is reported
    as not found. *)
Theorem TransactionByHash_outcome (p p' : RpcConnectionPool E)
    (hash : common.Hash) (tx : option Transaction) (isPending : bool)
    (err : option error) :
  TransactionByHash others p hash = (p', (tx, isPending, err)) ->
  match err with
  | None =>
      exists t, tx = Some t /\
        (Transaction_RawSignatureValues t).1.2 <> None /\
        (isPending = true <-> Transaction_BlockNumber t = None)
  | Some _ => tx = None /\ isPending = false
  end /\
  ((forall j, Claimed j ∉ steps p p') -> err = Some NotFound).
Proof.
  unfold TransactionByHash. intros Hrun.
  destruct (Pool_Call others p None "eth_getTransactionByHash" [VHash hash])
    as [p1 [got err1]] eqn:Hcall.
  destruct err1 as [e|].
  - injection Hrun as <- <- <- <-. split; [split; reflexivity|].
    intros Hbusy.
    destruct (Pool_Call_untouched _ _ _ _ _ _ _ Hcall Hbusy) as [Hcontra _].
    discriminate.
  - destruct got as [t|].
    + unfold Transaction_RawSignatureValues in *. cbn [fst snd] in *.
      destruct (txData_R (data t)) as [r|] eqn:Hr.
      * injection Hrun as <- <- <- <-. split.
        { exists t. split; [reflexivity|]. split; [rewrite Hr; discriminate|].
          destruct (Transaction_BlockNumber t); split; congruence. }
        intros Hbusy.
        destruct (Pool_Call_untouched _ _ _ _ _ _ _ Hcall Hbusy) as [_ Hcontra].
        discriminate.
      * injection Hrun as <- <- <- <-. split; [split; reflexivity|].
        intros Hbusy.
        destruct (Pool_Call_untouched _ _ _ _ _ _ _ Hcall Hbusy) as [_ Hcontra].
        discriminate.
    + injection Hrun as <- <- <- <-. split; [split; reflexivity|].
      intros _. reflexivity.
Qed.

End chain_reader_more.

(** ** Connecting *)
Section dial_more.
Import types rpc client spec.
Context `{Unmarshal string}.
Variable rpc_DialContext : string -> error + rpc.Client.
Variable time_Since : string -> Z.

Abbreviation connect' := (client.connect rpc_DialContext time_Since).
Abbreviation DialContext' := (client.DialContext rpc_DialContext time_Since).

Lemma CallContext_sent {T : Type} `{Unmarshal T} (c : rpc.Client) (result : T)
    (method : string) (args : list any) :
  sent (CallContext c result method args).1 = sent c ++ [ReqCall method args].
Proof.
  unfold CallContext.
  destruct (inbox c) as [|[e|msg|msgs] rest]; try reflexivity.
  destruct (msg_Error msg); [reflexivity|].
  destruct (_ =? _)%nat; reflexivity.
Qed.

Lemma connect_spec (ec ec' : ETHClient) (err : option error) :
  connect' ec = (ec', err) ->
  url ec' = url ec /\
  match err with
  | Some _ => client ec' = client ec
  | None =>
      exists conn0 conn,
        rpc_DialContext (url ec) = inr conn0 /\
        client ec' = Some conn /\
        sent conn = sent conn0 ++ [ReqCall "net_version" [];
                                   ReqCall "web3_clientVersion" []] /\
        latency ec' = time_Since (url ec)
  end.
Proof.
  unfold client.connect.
  destruct (rpc_DialContext (url ec)) as [e|conn0] eqn:Hdial.
  { intros [= <- <-]. split; reflexivity. }
  pose proof (CallContext_sent conn0 (networkId ec) "net_version" []) as Hsent1.
  destruct (CallContext conn0 (networkId ec) "net_version" [])
    as [conn1 [id [e|]]].
  { intros [= <- <-]. split; reflexivity. }
  cbn [url client networkId version latency].
  pose proof (CallContext_sent conn1 (version ec) "web3_clientVersion" [])
    as Hsent2.
  destruct (CallContext conn1 (version ec) "web3_clientVersion" [])
    as [conn2 [ver [e|]]].
  { intros [= <- <-]. split; reflexivity. }
  intros [= <- <-]. split; [reflexivity|].
  exists conn0, conn2. split; [reflexivity|]. split; [reflexivity|].
  split; [|reflexivity].
  cbn [fst] in Hsent1, Hsent2. rewrite Hsent2, Hsent1, <- app_assoc.
  reflexivity.
Qed.

(** X18: [connect] never changes the URL.  When it fails, at whatever
    step, the transport the client had is kept; when it succeeds, the
    client holds the connection just dialled, on which exactly
    [net_version] and then [web3_clientVersion] were asked, and its latency
    is the time of the [net_version] round trip. *)
Theorem connect_outcome (ec ec' : ETHClient) (err : option error) :
  connect' ec = (ec', err) ->
  url ec' = url ec /\
  match err with
  | Some _ => client ec' = client ec
  | None =>
      exists conn0 conn,
        rpc_DialContext (url ec) = inr conn0 /\
        client ec' = Some conn /\
        sent conn = sent conn0 ++ [ReqCall "net_version" [];
                                   ReqCall "web3_clientVersion" []] /\
        latency ec' = time_Since (url ec)
  end.
Proof. apply connect_spec. Qed.

Lemma DialContext_connected (u : string) (ec : ETHClient) :
  (DialContext' u).1 = Some ec ->
  url ec = u /\ latency ec = time_Since u /\
  exists conn, client ec = Some conn.
Proof.
  unfold client.DialContext.
  destruct (connect' _) as [ec' [e|]] eqn:Hconnect; [discriminate|].
  intros [= ->]. apply connect_spec in Hconnect
    as [Hurl (conn0 & conn & _ & Hclient & _ & Hlatency)].
  cbn [url] in Hurl, Hlatency.
  split; [exact Hurl|]. split; [exact Hlatency|]. exists conn. exact Hclient.
Qed.

(** X19: whatever the order in which the dial goroutines finish, and
    whichever of them finish, [SetupConnectionPool] returns either a pool
    or the error "no connection established", never both.  Every client of
    the pool has one of the given URLs, holds a live transport, and has the
    latency measured for its URL; the pool is not closed and all its slots
    are free.  The error is returned only when every dial failed. *)
Theorem SetupConnectionPool_clients (urls : list string) (finished : list nat) :
  match SetupConnectionPool rpc_DialContext time_Since finished urls with
  | (Some p, None) =>
      clients p <> [] /\
      Forall (fun ec => url ec ∈ urls /\
                        latency ec = time_Since (url ec) /\
                        exists conn, client ec = Some conn) (clients p) /\
      status p = replicate (Size p) 0%Z /\
      quitCh p = false
  | (None, Some e) =>
      e = ErrNoConnection /\
      forall i u, i ∈ finished -> urls !! i = Some u ->
        (DialContext' u).1 = None
  | _ => False
  end.
Proof.
  unfold SetupConnectionPool.
  rewrite (dial_loop rpc_DialContext time_Since). cbn [app].
  set (arrived := omap _ finished).
  destruct (Nat.ltb_spec 0 (length arrived)) as [Hsome|Hnone].
  - destruct (Slice_sorted Latency arrived) as [_ Hslice].
    cbn [clients status quitCh NewRpcConnectionPool]. unfold Size.
    cbn [clients NewRpcConnectionPool].
    split.
    { intros Hnil. rewrite Hnil in Hslice. apply Permutation_length in Hslice.
      simpl in Hslice. lia. }
    split; [|split; reflexivity].
    rewrite Hslice. apply Forall_forall. intros ec Hin.
    subst arrived. apply list_elem_of_omap in Hin as (i & _ & Hec).
    destruct (urls !! i) as [u|] eqn:Hu; [|discriminate].
    cbn [mbind option_bind] in Hec.
    apply DialContext_connected in Hec as (Hurl & Hlatency & Hconn).
    subst u. split; [eapply list_elem_of_lookup_2; exact Hu|].
    split; [exact Hlatency|exact Hconn].
  - split; [reflexivity|]. intros i u Hi Hu.
    assert (Hnil : arrived = []) by (apply nil_length_inv; lia).
    destruct (DialContext' u).1 as [ec|] eqn:Hdial; [|reflexivity].
    exfalso. assert (Hin : ec ∈ arrived).
    { subst arrived. apply list_elem_of_omap. exists i. split; [exact Hi|].
      rewrite Hu. exact Hdial. }
    rewrite Hnil in Hin. inversion Hin.
Qed.

End dial_more.

(** ** Blocks through one client *)
Section eth_client_more.
Import types rpc client spec.
Context `{Unmarshal (option Header)} `{Unmarshal fullResp}
        `{Unmarshal compactResp}.

Lemma BatchCallContext_sent {T : Type} `{Unmarshal T} (c : rpc.Client)
    (batch : list (BatchElem T)) :
  sent (BatchCallContext c batch).1 = sent c ++ [batchRequest batch].
Proof.
  unfold BatchCallContext. destruct (inbox c) as [|[e|msg|msgs] rest]; reflexivity.
Qed.

Lemma getBlockUncles_sent (c c' : rpc.Client) (blockHash : common.Hash)
    (hashes : list common.Hash) (uncles : option (list (option Header)))
    (err : option error) :
  getBlockUncles c blockHash hashes = (c', (uncles, err)) ->
  sent c' = sent c \/ exists elems, sent c' = sent c ++ [ReqBatch elems].
Proof.
  unfold getBlockUncles.
  destruct (length hashes =? 0)%nat; [intros [= <- <- <-]; left; reflexivity|].
  pose proof (BatchCallContext_sent c (uncleBatch blockHash hashes)) as Hsent.
  cbn [BatchCall Client_rpcCaller].
  destruct (BatchCallContext c (uncleBatch blockHash hashes))
    as [c1 [batch err1]].
  cbn [fst] in Hsent. intros Hrun.
  assert (c' = c1) as ->.
  { destruct err1; [congruence|]. destruct (checkUncles batch hashes); congruence. }
  right. eexists. exact Hsent.
Qed.

(** The requests [getBlock] sends on a connection: the block request, and
    after it at most one batch. *)
Lemma getBlock_sent (c c' : rpc.Client) (method : string) (numOrHash : any)
    (fullBlock : bool) (out : option Block * option error) :
  getBlock c method numOrHash fullBlock = Returns (c', out) ->
  exists rest,
    sent c' = sent c ++ ReqCall method [numOrHash; VBool fullBlock] :: rest /\
    (rest = [] \/ exists elems, rest = [ReqBatch elems]).
Proof.
  unfold getBlock. cbn [Call Client_rpcCaller].
  pose proof (CallContext_sent c (EmptyString : RawMessage) method
                [numOrHash; VBool fullBlock]) as Hsent.
  destruct (CallContext c (EmptyString : RawMessage) method
              [numOrHash; VBool fullBlock]) as [c1 [raw [e|]]];
    cbn [fst] in Hsent.
  { intros [= <- <-]. exists []. split; [exact Hsent|left; reflexivity]. }
  destruct (String.length raw =? 0)%nat.
  { intros [= <- <-]. exists []. split; [exact Hsent|left; reflexivity]. }
  destruct (json_Unmarshal raw (None : option Header)) as [header [e|]].
  { intros [= <- <-]. exists []. split; [exact Hsent|left; reflexivity]. }
  destruct fullBlock.
  - destruct (json_Unmarshal raw
                {| fullResp_Uncles := []; fullResp_Transactions := [];
                   fullResp_Withdrawals := [] |}) as [resp [e|]].
    { intros [= <- <-]. exists []. split; [exact Hsent|left; reflexivity]. }
    destruct header as [hd|]; [|discriminate].
    destruct (getBlockUncles c1 (Header_Hash hd) (fullResp_Uncles resp))
      as [c2 [uncles err]] eqn:Huncles.
    apply getBlockUncles_sent in Huncles.
    assert (Hrest : exists rest,
              sent c2 = sent c ++ ReqCall method [numOrHash; VBool true] :: rest /\
              (rest = [] \/ exists elems, rest = [ReqBatch elems])).
    { destruct Huncles as [->|[elems ->]].
      - exists []. split; [exact Hsent|left; reflexivity].
      - exists [ReqBatch elems]. rewrite Hsent, <- app_assoc.
        split; [reflexivity|right; eexists; reflexivity]. }
    destruct err as [e|]; [intros [= <- <-]; exact Hrest|].
    destruct (WithBody _ _ _); [|discriminate].
    intros [= <- <-]. exact Hrest.
  - destruct (json_Unmarshal raw
                {| compactResp_Uncles := []; compactResp_Transactions := [];
                   compactResp_Withdrawals := [] |}) as [resp [e|]];
      intros [= <- <-]; exists []; (split; [exact Hsent|left; reflexivity]).
Qed.

(** X20: what [ETHClient.BlockByHash] asks its node.  When it returns, the
    client had a transport, and the requests sent on it are the block
    request, made with the method [eth_getBlockByNumber] on the hash, and
    after it at most one batch; nothing else of the client changes. *)
Theorem ETHClient_BlockByHash_requests (ec ec' : ETHClient)
    (hash : common.Hash) (fullBlock : bool)
    (out : option Block * option error) :
  ETHClient_BlockByHash ec hash fullBlock = Returns (ec', out) ->
  exists conn conn' rest,
    client ec = Some conn /\
    ec' = with_transport ec conn' /\
    sent conn' = sent conn ++
      ReqCall "eth_getBlockByNumber" [VHash hash; VBool fullBlock] :: rest /\
    (rest = [] \/ exists elems, rest = [ReqBatch elems]).
Proof.
  unfold ETHClient_BlockByHash.
  destruct (client ec) as [conn|]; [|discriminate].
  destruct (getBlock conn "eth_getBlockByNumber" (VHash hash) fullBlock)
    as [[conn' out']|] eqn:Hrun; [|discriminate].
  intros [= <- <-]. apply getBlock_sent in Hrun as (rest & Hsent & Hrest).
  exists conn, conn', rest. repeat split; assumption.
Qed.

End eth_client_more.

(** ** What [getBlock] returns *)
Section getBlock_results.
Import types rpc client spec.
Context {C : Type} `{rpcCaller C}.
Context `{Unmarshal (option Header)} `{Unmarshal fullResp}
        `{Unmarshal compactResp}.

(** X7: when [getBlock] returns, it returns a block or an error, never
    both and never neither; and the block of a full-body request has a
    header. *)
Theorem getBlock_block_xor_error (c c' : C) (method : string)
    (numOrHash : any) (fullBlock : bool) (blk : option Block)
    (err : option error) :
  getBlock c method numOrHash fullBlock = Returns (c', (blk, err)) ->
  (blk = None <-> err <> None) /\
  (fullBlock = true -> forall b, blk = Some b -> header b <> None).
Proof.
  assert (Hfail : forall (c1 : C) (e : error),
            Returns (c1, (None : option Block, Some e)) = Returns (c', (blk, err)) ->
            (blk = None <-> err <> None) /\
            (fullBlock = true -> forall b, blk = Some b -> header b <> None)).
  { intros c1 e [= <- <- <-]. split; [split; [discriminate|reflexivity]|].
    intros _ b Hb. discriminate. }
  unfold getBlock.
  destruct (Call c _ method _) as [c1 [raw [e|]]]; [apply Hfail|].
  destruct (String.length raw =? 0)%nat; [apply Hfail|].
  destruct (json_Unmarshal raw (None : option Header)) as [hd [e|]];
    [apply Hfail|].
  destruct fullBlock.
  - destruct (json_Unmarshal raw _) as [resp [e|]]; [apply Hfail|].
    destruct hd as [hd|]; [|discriminate].
    destruct (getBlockUncles c1 _ _) as [c2 [uncles [e|]]]; [apply Hfail|].
    destruct (WithBody _ _ _) as [b|] eqn:Hb; [|discriminate].
    apply WithBody_returns_receiver in Hb. subst b.
    intros [= <- <- <-]. split.
    + split; [discriminate|]. intros Hne. contradiction.
    + intros _ b [= <-]. discriminate.
  - destruct (json_Unmarshal raw _) as [resp [e|]]; [apply Hfail|].
    intros [= <- <- <-]. split.
    + split; [discriminate|]. intros Hne. contradiction.
    + discriminate.
Qed.

End getBlock_results.

(** ** The further properties on the fixtures *)
Section further_runs.
Import types rpc client spec fixtures.
#[local] Existing Instances decodeHeader decodeFullOrNull decodeCompactOrNull
  decodeReceipt decodeString decodeTransaction.

(** [AccessList_StorageKeys_total] on an access list with three keys. *)
Lemma AccessList_StorageKeys_total_witness :
  AccessList_StorageKeys storage_list = 3%Z.
Proof.
  refine (AccessList_StorageKeys_total storage_list _).
  vm_compute. reflexivity.
Defined.


(** [getBlock_block_xor_error] on the full-body request for block 11. *)
Lemma getBlock_block_xor_error_witness :
  exists c' b,
    getBlock node11 "eth_getBlockByHash" (VHash 11%N) true
      = Returns (c', (Some b, None)) /\
    (Some b = None <-> (None : option error) <> None) /\
    header b <> None.
Proof.
  destruct (getBlock node11 "eth_getBlockByHash" (VHash 11%N) true)
    as [[c' [blk err]]|] eqn:Hrun; [|vm_compute in Hrun; discriminate].
  destruct (getBlock_block_xor_error node11 c' "eth_getBlockByHash"
              (VHash 11%N) true blk err Hrun) as [Hxor Hheader].
  vm_compute in Hrun. injection Hrun as <- <- <-.
  eexists _, _. split; [reflexivity|].
  split; [exact Hxor|]. exact (Hheader eq_refl _ eq_refl).
Defined.

(** [getBlock_nil_header] on a node that answers [null]. *)
Lemma getBlock_nil_header_witness :
  getBlock null_node "eth_getBlockByHash" (VHash 12%N) true = Panics /\
  exists c' b,
    getBlock null_node "eth_getBlockByHash" (VHash 12%N) false
      = Returns (c', (Some b, None)) /\
    header b = None /\ Block_Header b = Panics.
Proof.
  split.
  - refine (proj1 (getBlock_nil_header null_node
                     (exchange null_node
                        (ReqCall "eth_getBlockByHash" [VHash 12%N; VBool true]))
                     "eth_getBlockByHash" (VHash 12%N) "null"
                     {| fullResp_Uncles := []; fullResp_Transactions := [];
                        fullResp_Withdrawals := [] |}
                     {| compactResp_Uncles := []; compactResp_Transactions := [];
                        compactResp_Withdrawals := [] |} _ _) _ _);
      try discriminate; vm_compute; reflexivity.
  - eexists.
    refine (proj2 (getBlock_nil_header null_node
                     (exchange null_node
                        (ReqCall "eth_getBlockByHash" [VHash 12%N; VBool false]))
                     "eth_getBlockByHash" (VHash 12%N) "null"
                     {| fullResp_Uncles := []; fullResp_Transactions := [];
                        fullResp_Withdrawals := [] |}
                     {| compactResp_Uncles := []; compactResp_Transactions := [];
                        compactResp_Withdrawals := [] |} _ _) _ _);
      try discriminate; vm_compute; reflexivity.
Defined.

(** [Pool_Call_scan] on the pool of three clients. *)
Lemma Pool_Call_scan_witness :
  let p' := (Pool_Call alone mixed_pool (EmptyString : string)
               "eth_blockNumber" []).1 in
  claimed (steps mixed_pool p') = [1; 2] /\
  StronglySorted lt (claimed (steps mixed_pool p')) /\
  Size p' = 3 /\
  clients p' !! 0 = Some live_node.
Proof.
  intros p'.
  destruct (Pool_Call_scan alone mixed_pool p' EmptyString
              (Pool_Call alone mixed_pool (EmptyString : string)
                 "eth_blockNumber" []).2.1
              "eth_blockNumber" []
              (Pool_Call alone mixed_pool (EmptyString : string)
                 "eth_blockNumber" []).2.2)
    as (Hsorted & _ & _ & Hsize & Hkeep).
  - reflexivity.
  - vm_compute. reflexivity.
  - split; [vm_compute; reflexivity|]. split; [exact Hsorted|].
    split; [exact Hsize|]. apply (Hkeep 0). vm_compute.
    intros Hin. apply elem_of_cons in Hin as [Heq|Hin]; [discriminate|].
    apply elem_of_cons in Hin as [Heq|Hin]; [discriminate|]. inversion Hin.
Defined.

(** [Pool_Call_skips_busy] on the pool of three clients, whose first slot
    is busy. *)
Lemma Pool_Call_skips_busy_witness :
  let p' := (Pool_Call alone mixed_pool (EmptyString : string)
               "eth_blockNumber" []).1 in
  (Claimed 0 ∉ steps mixed_pool p') /\
  status p' !! 0 = Some 1%Z /\
  clients p' !! 0 = Some live_node.
Proof.
  intros p'.
  apply (Pool_Call_skips_busy alone mixed_pool p' EmptyString
           (Pool_Call alone mixed_pool (EmptyString : string)
              "eth_blockNumber" []).2.1
           "eth_blockNumber" []
           (Pool_Call alone mixed_pool (EmptyString : string)
              "eth_blockNumber" []).2.2 0 1%Z).
  - reflexivity.
  - vm_compute. reflexivity.
  - reflexivity.
  - discriminate.
Defined.

(** [Pool_Call_outcome] on the pool of three clients: the third answers. *)
Lemma Pool_Call_outcome_witness :
  let run := Pool_Call alone mixed_pool (EmptyString : string)
               "eth_blockNumber" [] in
  run.2 = ("0x10"%string, None) /\
  last (steps mixed_pool run.1) = Some (Released 2) /\
  status run.1 = [1%Z; 1%Z; 0%Z].
Proof.
  intros run.
  destruct (Pool_Call_outcome alone mixed_pool run.1 EmptyString run.2.1
              "eth_blockNumber" [] None)
    as [[Hbusy _]|(i & Hlast & _ & _)].
  - vm_compute. reflexivity.
  - exfalso. apply (Hbusy 1). vm_compute. left.
  - split; [vm_compute; reflexivity|]. split; vm_compute; reflexivity.
Defined.

(** [Pool_BatchCall_outcome] on the pool whose first node drops the
    connection. *)
Lemma Pool_BatchCall_outcome_witness :
  let run := Pool_BatchCall alone receipt_pool (receiptBatch [7%N]) in
  run.2.2 = None /\
  last (steps receipt_pool run.1) = Some (Released 1) /\
  CoolingDown 0 ∈ steps receipt_pool run.1 /\
  Forall (fun elem => Error elem = None) run.2.1.
Proof.
  intros run.
  destruct (Pool_BatchCall_outcome alone receipt_pool run.1
              (receiptBatch [7%N]) run.2.1 None)
    as (i & _ & _ & _ & Hbatch).
  - vm_compute. reflexivity.
  - split; [vm_compute; reflexivity|]. split; [vm_compute; reflexivity|].
    split; [vm_compute; do 2 right; left|exact Hbatch].
Defined.

(** [TransactionReceipt_outcome] on the pool whose only slot is busy. *)
Lemma TransactionReceipt_outcome_witness :
  let run := TransactionReceipt alone busy_pool 7%N in
  run.2 = (None, Some NotFound) /\ steps busy_pool run.1 = [].
Proof.
  intros run.
  destruct (TransactionReceipt_outcome alone busy_pool run.1 7%N
              run.2.1 run.2.2)
    as (_ & _ & Hbusy).
  - vm_compute. reflexivity.
  - split; [|vm_compute; reflexivity].
    destruct Hbusy as [Hreceipt Herr].
    + intros j Hin. vm_compute in Hin. inversion Hin.
    + rewrite (surjective_pairing run.2), Hreceipt, Herr. reflexivity.
Defined.

(** [TransactionByHash_outcome] on a node that has the transaction. *)
Lemma TransactionByHash_outcome_witness :
  let run := TransactionByHash alone (NewRpcConnectionPool [node_tx31]) 31%N in
  run.2 = (Some (signedTransaction 31%N), false, None).
Proof.
  intros run.
  destruct (TransactionByHash_outcome alone (NewRpcConnectionPool [node_tx31])
              run.1 31%N run.2.1.1 run.2.1.2 None)
    as [(t & Htx & _ & Hpending) _].
  - vm_compute. reflexivity.
  - vm_compute. reflexivity.
Defined.

(** [connect_outcome] on the URL that answers after 10 time units. *)
Lemma connect_outcome_witness :
  let run := connect network round_trip fresh_client in
  run.2 = None /\
  url run.1 = "near"%string /\
  latency run.1 = 10%Z /\
  exists conn, client run.1 = Some conn /\
    sent conn = [ReqCall "net_version" []; ReqCall "web3_clientVersion" []].
Proof.
  intros run.
  destruct (connect_outcome network round_trip fresh_client run.1 None)
    as (Hurl & conn0 & conn & Hdial & Hclient & Hsent & Hlatency).
  - vm_compute. reflexivity.
  - split; [vm_compute; reflexivity|]. split; [exact Hurl|].
    split; [exact Hlatency|]. exists conn. split; [exact Hclient|].
    injection Hdial as <-. exact Hsent.
Defined.

(** [ETHClient_BlockByHash_requests] on the client of the node holding
    block 11. *)
Lemma ETHClient_BlockByHash_requests_witness :
  exists ec' out conn',
    ETHClient_BlockByHash client11 11%N false = Returns (ec', out) /\
    client ec' = Some conn' /\
    sent conn' = [ReqCall "eth_getBlockByNumber" [VHash 11%N; VBool false]].
Proof.
  destruct (ETHClient_BlockByHash client11 11%N false)
    as [[ec' out]|] eqn:Hrun; [|vm_compute in Hrun; discriminate].
  destruct (ETHClient_BlockByHash_requests client11 ec' 11%N false out Hrun)
    as (conn & conn' & rest & Hconn & -> & Hsent & Hrest).
  exists (with_transport client11 conn'), out, conn'.
  split; [reflexivity|]. split; [reflexivity|].
  injection Hconn as <-. rewrite Hsent.
  vm_compute in Hrun. injection Hrun as Hc _. 
  assert (rest = []) as ->; [|reflexivity].
  apply (f_equal sent) in Hc. rewrite Hsent in Hc. simpl in Hc.
  injection Hc as <-. reflexivity.
Defined.

(** [getBlock_full_bodiless] on the full-body request for block 11. *)
Lemma getBlock_full_bodiless_witness :
  exists c' blk,
    getBlock node11 "eth_getBlockByHash" (VHash 11%N) true
      = Returns (c', (Some blk, None)) /\
    body blk = None /\ compact blk = None.
Proof.
  destruct (getBlock node11 "eth_getBlockByHash" (VHash 11%N) true)
    as [[c' [[blk|] [e|]]]|] eqn:Hrun; try (vm_compute in Hrun; discriminate).
  exists c', blk. split; [reflexivity|].
  exact (getBlock_full_bodiless node11 c' "eth_getBlockByHash" (VHash 11%N)
           blk Hrun).
Defined.

(** [WithBody_block_hydrated] on one transaction and one uncle. *)
Lemma WithBody_block_hydrated_witness :
  exists block,
    WithBody_block (NewBlockWithHeader (Some (mkHeader 11%N)))
      [Some (mkTransaction 31%N)] [Some (mkHeader 21%N)] = Returns block /\
    hydrated block [Some (mkTransaction 31%N)] [Some (mkHeader 21%N)] /\
    header block = header (NewBlockWithHeader (Some (mkHeader 11%N))).
Proof.
  destruct (WithBody_block (NewBlockWithHeader (Some (mkHeader 11%N)))
              [Some (mkTransaction 31%N)] [Some (mkHeader 21%N)])
    as [block|] eqn:Hrun; [|vm_compute in Hrun; discriminate].
  exists block. split; [reflexivity|].
  exact (WithBody_block_hydrated _ block _ _ Hrun).
Defined.

(** [getBlockReceiptsByHashes_large_checked] on 101 hashes. *)
Lemma getBlockReceiptsByHashes_large_checked_witness :
  exists c' ret,
    getBlockReceiptsByHashes node_receipts101 1%N (replicate 101 7%N)
      = Returns (c', (Some ret, None)) /\
    length ret = 101 /\
    Forall (fun slot => exists receipt,
              slot = Some receipt /\ Receipt_BlockHash receipt = 1%N) ret.
Proof.
  destruct (getBlockReceiptsByHashes node_receipts101 1%N (replicate 101 7%N))
    as [[c' [[ret|] [e|]]]|] eqn:Hrun; try (vm_compute in Hrun; discriminate).
  exists c', ret. split; [reflexivity|]. split.
  - vm_compute in Hrun. injection Hrun as _ <-. reflexivity.
  - apply (getBlockReceiptsByHashes_large_checked node_receipts101 c' 1%N
             (replicate 101 7%N) ret); [vm_compute; lia|exact Hrun].
Defined.

(** [batchGetTransactionReceipt_null] on a node without the receipt. *)
Lemma batchGetTransactionReceipt_null_witness :
  exists e,
    batchGetTransactionReceipt node_null_receipt [7%N]
      = ((BatchCall node_null_receipt (receiptBatch [7%N])).1, (None, Some e)).
Proof.
  apply (batchGetTransactionReceipt_null node_null_receipt [7%N]).
  exists 0. eexists. split; [vm_compute; reflexivity|reflexivity].
Defined.

(** [Pool_Call_claims] on the pool of three clients: the slot of the
    silent node stays claimed. *)
Lemma Pool_Call_claims_witness :
  let p' := (Pool_Call alone mixed_pool (EmptyString : string)
               "eth_blockNumber" []).1 in
  Released 2 ∈ steps mixed_pool p' /\
  (Released 1 ∉ steps mixed_pool p') /\
  (CoolingDown 1 ∉ steps mixed_pool p') /\
  Replied 1 (Some ErrNoResult) ∈ steps mixed_pool p'.
Proof.
  intros p'.
  assert (Hsteps : steps mixed_pool p'
                   = [Claimed 1; Replied 1 (Some ErrNoResult);
                      Claimed 2; Replied 2 None; Released 2])
    by (vm_compute; reflexivity).
  destruct (Pool_Call_claims alone mixed_pool p' EmptyString
              (Pool_Call alone mixed_pool (EmptyString : string)
                 "eth_blockNumber" []).2.1
              "eth_blockNumber" []
              (Pool_Call alone mixed_pool (EmptyString : string)
                 "eth_blockNumber" []).2.2 1)
    as [Hr|[Hc|(e & Hq & Hrep)]].
  - vm_compute. reflexivity.
  - rewrite Hsteps. left.
  - exfalso. rewrite Hsteps in Hr.
    repeat (apply elem_of_cons in Hr as [Heq|Hr]; [discriminate|]). inversion Hr.
  - exfalso. rewrite Hsteps in Hc.
    repeat (apply elem_of_cons in Hc as [Heq|Hc]; [discriminate|]). inversion Hc.
  - rewrite Hsteps. split; [do 4 right; left|].
    split.
    { intros Hr. repeat (apply elem_of_cons in Hr as [Heq|Hr]; [discriminate|]).
      inversion Hr. }
    split.
    { intros Hc. repeat (apply elem_of_cons in Hc as [Heq|Hc]; [discriminate|]).
      inversion Hc. }
    right. left.
Defined.

(** [Pool_BatchCall_claims] on the pool whose first node drops the
    connection. *)
Lemma Pool_BatchCall_claims_witness :
  let p' := (Pool_BatchCall alone receipt_pool (receiptBatch [7%N])).1 in
  Claimed 0 ∈ steps receipt_pool p' /\
  (Released 0 ∈ steps receipt_pool p' \/ CoolingDown 0 ∈ steps receipt_pool p').
Proof.
  intros p'.
  assert (Hin : Claimed 0 ∈ steps receipt_pool p') by (vm_compute; left).
  split; [exact Hin|].
  apply (Pool_BatchCall_claims alone receipt_pool p' (receiptBatch [7%N])
           (Pool_BatchCall alone receipt_pool (receiptBatch [7%N])).2.1
           (Pool_BatchCall alone receipt_pool (receiptBatch [7%N])).2.2 0).
  - vm_compute. reflexivity.
  - exact Hin.
Defined.

End further_runs.
